(** * mdui: plugin registry, declarative dialog trigger and the Dialog overlay

    A shallow embedding of
    - [$.fn.extend]                         (jq/methods/extend),
    - the [data-md-dialog] click handler     (the declarative trigger),
    - [Dialog] of the components package     ([onOpenChange], the key and
      overlay-click handlers, [disconnectedCallback]),
    - [Chip] of the components package       ([onClick], [onKeyDown],
      [onDelete]),
    together with the helpers these call ([emit], [Modal], [lockScreen],
    [unlockScreen], [animateTo], [stopAnimations], [$.parseOptions],
    [$.getData], [$.setData], [eachObject]). *)

From Stdlib Require Import Ascii String ZArith.
From stdpp Require Import gmap strings list fin_maps fin_sets.

Set Default Proof Using "Type".

(* ===================================================================== *)
(** ** Plugin registry: [$.fn.extend]                                     *)
(* ===================================================================== *)

Module Plugin.

Section Registry.
Context {Fn : Type}.

(** A [PlainObject]: its own enumerable properties in enumeration order. *)
Definition PlainObject := list (string * Fn).

(** Modelled from the spec: [eachObject] of shared/core, which calls the
    callback on every own enumerable property of the object, in order. The
    callback of [extend] returns nothing, so no entry is skipped. *)
Fixpoint eachObject {S : Type} (obj : PlainObject)
    (callback : string → Fn → S → S) (s : S) : S :=
  match obj with
  | [] => s
  | (prop, value) :: rest => eachObject rest callback (callback prop value s)
  end.

(** The object [$.fn]: the properties it holds itself, and the value its
    prototype was replaced by, if it was ([None]: it still has the prototype
    it was created with). [$.fn] is the prototype object of the Collection
    class, which is not under these sources; it is taken to hold writable
    data properties only and to inherit from [Object.prototype]. *)
Record Table := { own : gmap string Fn; proto : option Fn }.

(** What [$.fn[prop] = value] does once the prototype of [$.fn] has been
    replaced by [v], for a [prop] that [$.fn] does not hold itself: that is
    decided by the properties of [v] and of its prototypes (a read-only
    property of that name makes the assignment throw in module code, which
    is [None]; a setter is run; otherwise [$.fn] gets the property). *)
Variable assign_inherited : Fn → string → Fn → Table → option Table.

(** [$.fn[prop] = value], in module code. A property [$.fn] holds itself is
    overwritten. Otherwise the prototypes are asked: on the prototype
    [$.fn] was created with, the one property that keeps an assignment from
    creating a property is the accessor [__proto__] of [Object.prototype],
    whose setter makes [value], a function, the prototype of [$.fn] and
    creates no property; under any other name the property is created. *)
Definition assign (prop : string) (value : Fn) (fn : Table) : option Table :=
  match own fn !! prop with
  | Some _ => Some {| own := <[prop := value]> (own fn); proto := proto fn |}
  | None =>
      match proto fn with
      | Some v => assign_inherited v prop value fn
      | None =>
          if decide (prop = "__proto__")
          then Some {| own := own fn; proto := Some value |}
          else Some {| own := <[prop := value]> (own fn); proto := None |}
      end
  end.

(** [$.fn.extend = function (obj) { eachObject(obj, (prop, value) =>
    { $.fn[prop] = value; }); return this; }]
    The state is the object [$.fn]; the result is [this], which is [$.fn]
    itself, or [None] when an assignment has thrown. *)
Definition extend (obj : PlainObject) (fn : Table) : option Table :=
  eachObject obj (λ prop value fn, fn ≫= assign prop value) (Some fn).

(** Modelled from the spec: a Collection resolves a capability by name in
    the shared table at call time, so every instance, created before or
    after a registration, sees the same table. *)
Record Collection := { nodes : list nat }.

(** Modelled from the spec: the call of a capability by name on a
    Collection, looked up in the shared table when it is called; the
    capabilities are the properties [$.fn] holds. *)
Definition capability (fn : Table) (c : Collection) (name : string)
    : option Fn :=
  own fn !! name.

(** The value an object holds under a name: of two entries with one name
    the later one wins, as in an object literal. *)
Fixpoint entry_of (obj : PlainObject) (name : string) : option Fn :=
  match obj with
  | [] => None
  | (prop, value) :: rest =>
      match entry_of rest name with
      | Some v => Some v
      | None => if decide (prop = name) then Some value else None
      end
  end.

(** The properties [$.fn] holds once every entry of [obj] has become a
    property of it. *)
Definition install (obj : PlainObject) (m : gmap string Fn) : gmap string Fn :=
  eachObject obj (λ prop value m, <[prop := value]> m) m.

(** The object has no entry named [__proto__]. *)
Definition ordinary (obj : PlainObject) : Prop := "__proto__" ∉ obj.*1.

End Registry.

Arguments PlainObject : clear implicits.
Arguments Table : clear implicits.

(** An instance: the prototype of [$.fn] was replaced by a function. Its
    [name] and [length] are read-only and the setters of [caller] and
    [arguments] throw, so an assignment under these names throws;
    [__proto__] is the accessor it inherits from [Object.prototype]; under
    any other name the property is created. *)
Definition function_prototype (v : nat) (prop : string) (value : nat)
    (fn : Table nat) : option (Table nat) :=
  if decide (prop ∈ ["name"; "length"; "caller"; "arguments"]) then None
  else if decide (prop = "__proto__")
  then Some {| own := own fn; proto := Some value |}
  else Some {| own := <[prop := value]> (own fn); proto := proto fn |}.

(** [$.fn] with one capability, and the prototype it was created with. *)
Definition demo_table : Table nat := {| own := {[ "show" := 0 ]}; proto := None |}.

End Plugin.

(* ===================================================================== *)
(** ** Serialized options of a trigger attribute: [$.parseOptions]        *)
(* ===================================================================== *)

Module Options.

Section Parse.
(** The syntax of the serialized form: how a string splits into entries and
    what one entry denotes; [None] is an entry that does not parse. *)
Context {Value : Type}.
Variable entries : string → list string.
Variable parse_entry : string → option (string * Value).

(** One entry is added to the mapping built so far, or skipped. *)
Definition add_entry (m : gmap string Value) (e : string) : gmap string Value :=
  match parse_entry e with
  | Some (k, v) => <[k := v]> m
  | None => m
  end.

(** Modelled from the spec: [$.parseOptions], called by the trigger handler
    and defined outside these sources. It turns the serialized string into
    a plain key/value mapping, entry by entry; an entry that does not parse
    is ignored and the rest of the mapping is still produced. *)
Definition parseOptions (s : string) : gmap string Value :=
  foldl add_entry ∅ (entries s).

(** The entries of a string that parse. *)
Definition well_formed (e : string) : Prop := is_Some (parse_entry e).

(** The last binding the well-formed entries of a list give to a key. *)
Fixpoint last_binding (es : list string) (k : string) : option Value :=
  match es with
  | [] => None
  | e :: rest =>
      match last_binding rest k with
      | Some v => Some v
      | None =>
          match parse_entry e with
          | Some (k', v) => if decide (k' = k) then Some v else None
          | None => None
          end
      end
  end.

End Parse.

(** A concrete syntax to run the parser on: entries separated by commas,
    each of the form [key:value] with a non-empty key. *)
Fixpoint split_on (sep : ascii) (s : string) : list string :=
  match s with
  | EmptyString => [EmptyString]
  | String c rest =>
      if decide (c = sep) then EmptyString :: split_on sep rest
      else match split_on sep rest with
           | [] => [String c EmptyString]
           | hd :: tl => String c hd :: tl
           end
  end.

Fixpoint cut_at (sep : ascii) (s : string) : option (string * string) :=
  match s with
  | EmptyString => None
  | String c rest =>
      if decide (c = sep) then Some (EmptyString, rest)
      else match cut_at sep rest with
           | Some (k, v) => Some (String c k, v)
           | None => None
           end
  end.

Definition comma_entries (s : string) : list string := split_on ","%char s.

Definition colon_entry (e : string) : option (string * string) :=
  match cut_at ":"%char e with
  | Some (EmptyString, _) => None
  | Some (k, v) => Some (k, v)
  | None => None
  end.

End Options.

(* ===================================================================== *)
(** ** The declarative trigger: click on [[data-md-dialog]]               *)
(* ===================================================================== *)

Module Trigger.

(** An object built by [new mdui.Dialog(dialog, options)]. *)
Record Controller := {
  ctl_node : nat;
  ctl_options : gmap string string }.

Record State := {
  (** the Node Data Store: (node, key) to the object stored there *)
  store : gmap (nat * string) nat;
  (** the controllers built so far; an object is named by its position *)
  constructed : list Controller;
  (** the receivers of [inst.open()], oldest first *)
  openCalls : list nat }.

Definition init : State :=
  {| store := ∅; constructed := []; openCalls := [] |}.

(** Modelled from the spec: [$.getData(node, key)] of the Node Data Store,
    one entry per node identity and key; reading an absent entry gives
    [undefined]. The values stored under ['mdui.dialog'] are objects. *)
Definition getData (node : nat) (key : string) (s : State) : option nat :=
  store s !! (node, key).

(** Modelled from the spec: [$.setData(node, key, value)] writes the entry
    of the node and the key, and no other. *)
Definition setData (node : nat) (key : string) (inst : nat) (s : State) : State :=
  {| store := <[(node, key) := inst]> (store s);
     constructed := constructed s;
     openCalls := openCalls s |}.

(** Modelled from the spec: [new mdui.Dialog(dialog, options)], the overlay
    controller of a node, and its [open] operation; the handler only
    builds it and calls [open], so the model keeps the object and the call. *)
Definition new_Dialog (node : nat) (options : gmap string string) (s : State)
    : nat * State :=
  (length (constructed s),
   {| store := store s;
      constructed := constructed s ++ [{| ctl_node := node; ctl_options := options |}];
      openCalls := openCalls s |}).

(** Modelled from the spec: [inst.open()], the open operation of the
    controller, kept as the call it is. *)
Definition call_open (inst : nat) (s : State) : State :=
  {| store := store s;
     constructed := constructed s;
     openCalls := openCalls s ++ [inst] |}.

(** The store and the controllers agree: what is stored under a node is a
    controller built for that node, and every controller built is the one
    stored under its node. *)
Definition consistent (s : State) : Prop :=
  (∀ n i, store s !! (n, "mdui.dialog") = Some i →
          ∃ c, constructed s !! i = Some c ∧ ctl_node c = n) ∧
  (∀ i c, constructed s !! i = Some c → store s !! (ctl_node c, "mdui.dialog") = Some i).

(** A page with two dialogs and three triggers, two of them for one node. *)
Definition demo_dom (sel : option string) : list nat :=
  match sel with
  | Some "#a" => [10]
  | Some "#b" => [20]
  | _ => []
  end%string.

Section Handler.
(** [$.parseOptions] and the document the selectors are resolved in:
    [dom sel] is [$.dom(sel)], the nodes matching [sel] in document order;
    the selector is [undefined] when the options have no [target]. *)
Variable parseOptions : string → gmap string string.
Variable dom : option string → list nat.

(** The handler of [$.on(document, 'click', '[data-md-dialog]', ...)], run
    on the value of the [data-md-dialog] attribute of the clicked element.
    [None]: the selector matched no node, so [dialog] is [undefined]; what
    the store and the constructor do with it is not part of this source. *)
Definition on_click (attribute : string) (s : State) : option State :=
  let options := parseOptions attribute in
  let selector := options !! "target" in
  let options := delete "target" options in
  match dom selector !! 0 with
  | None => None
  | Some dialog =>
      match getData dialog "mdui.dialog" s with
      | Some inst => Some (call_open inst s)
      | None =>
          let '(inst, s) := new_Dialog dialog options s in
          let s := setData dialog "mdui.dialog" inst s in
          Some (call_open inst s)
      end
  end.

(** The node a click resolves to. *)
Definition target_of (attribute : string) : option nat :=
  dom (parseOptions attribute !! "target") !! 0.

(** A sequence of clicks, oldest first. *)
Fixpoint on_clicks (attributes : list string) (s : State) : option State :=
  match attributes with
  | [] => Some s
  | a :: rest =>
      match on_click a s with
      | Some s' => on_clicks rest s'
      | None => None
      end
  end.

End Handler.

End Trigger.

(* ===================================================================== *)
(** ** The Dialog component                                               *)
(* ===================================================================== *)

Module Dialog.

(** The events a dialog emits. *)
Inductive EventName := ev_open | ev_opened | ev_close | ev_closed | ev_overlay_click.

(** [this.style.display]: never written, ['flex'] or ['none']. *)
Inductive Display := display_unset | display_flex | display_none.

(** The animated elements of a dialog: [overlayRef], [panelRef] and the
    [.header, .body, .actions] elements found in the panel. *)
Inductive Part := overlay | panel | child (i : nat).

(** The keyframe lists passed to [animateTo], four of the open branch
    (duration ['medium4']) and four of the close branch (['short4']). *)
Inductive Keyframes :=
  | overlay_fade_in | panel_scale_in | panel_fade_in | child_fade_in
  | overlay_fade_out | panel_scale_out | panel_fade_out | child_fade_out.

(** A running animation: the element, its keyframes and the invocation of
    [run] whose [Promise.all] waits for it. *)
Record Anim := { an_part : Part; an_keyframes : Keyframes; an_run : nat }.

(** An element of the page outside the model of the dialogs; [el_focus]
    says whether [typeof el.focus === 'function']. *)
Record Element := { el_id : nat; el_focus : bool }.

(** What [document.activeElement] can be and what [focus] is called on. *)
Inductive Target := panel_of (d : nat) | element (e : Element).

(** An invocation of [onOpenChange] suspended at one of its [await]s. *)
Inductive Cont :=
  | await_update                     (* await this.updateComplete *)
  | open_await_stop                  (* open branch, await stopAnimations *)
  | open_await_animate (run : nat)   (* open branch, await animateTo *)
  | close_await_stop                 (* close branch, await stopAnimations *)
  | close_await_animate (run : nat). (* close branch, await animateTo *)

(** The effects performed, in the order they happen. *)
Inductive Action :=
  | emitted (d : nat) (ev : EventName)
  | scroll_target_set (d : nat)
  | display_set (d : nat) (v : Display)
  | trigger_captured (d : nat) (t : option Target)
  | modal_activated (d : nat)
  | modal_deactivated (d : nat)
  | scroll_lock_inc (d : nat)
  | scroll_lock_dec (d : nat)
  | animations_stopped (d : nat) (p : Part)
  | frame_requested (d : nat)
  | animation_started (d : nat) (a : Anim)
  | timeout_set (d : nat) (t : Target)
  | focused (t : Target)
  | propagation_stopped (d : nat).

#[global] Instance EventName_eq_dec : EqDecision EventName.
Proof. solve_decision. Defined.
#[global] Instance Display_eq_dec : EqDecision Display.
Proof. solve_decision. Defined.
#[global] Instance Part_eq_dec : EqDecision Part.
Proof. solve_decision. Defined.
#[global] Instance Keyframes_eq_dec : EqDecision Keyframes.
Proof. solve_decision. Defined.
#[global] Instance Anim_eq_dec : EqDecision Anim.
Proof. solve_decision. Defined.
#[global] Instance Element_eq_dec : EqDecision Element.
Proof. solve_decision. Defined.
#[global] Instance Target_eq_dec : EqDecision Target.
Proof. solve_decision. Defined.
#[global] Instance Cont_eq_dec : EqDecision Cont.
Proof. solve_decision. Defined.
#[global] Instance Action_eq_dec : EqDecision Action.
Proof. solve_decision. Defined.

(** One [mdui-dialog] element. *)
Record Dialog := {
  open : bool;
  closeOnEsc : bool;
  closeOnOverlayClick : bool;
  hasUpdated : bool;
  (** keydown listeners added by [connectedCallback], one per call *)
  keydownListeners : nat;
  display : Display;
  originalTrigger : option Target;
  (** [topAppBarElements] is not empty *)
  topAppBar : bool;
  (** [this.querySelector('[autofocus]')] *)
  autofocus : option Element;
  (** the [.header, .body, .actions] elements present in the panel *)
  children : list nat;
  (** whether a listener of the page calls [preventDefault] on an event *)
  prevents : EventName → bool;
  anims : list Anim;
  conts : list Cont }.

(** The page: the dialogs, and what they share. *)
Record World := {
  dialogs : gmap nat Dialog;
  activeElement : option Target;
  (** the stack of overlay contexts, topmost last *)
  activeModals : list nat;
  (** the scroll-lock counter and the dialogs that own a unit of it *)
  lockCount : Z;
  lockOwners : gset nat;
  (** callbacks queued by [requestAnimationFrame] and [setTimeout] *)
  frames : list nat;
  timers : list Target;
  log : list Action;
  nextRun : nat }.

(** *** Field updates *)

Definition with_open (b : bool) (x : Dialog) : Dialog :=
  {| open := b; closeOnEsc := closeOnEsc x;
     closeOnOverlayClick := closeOnOverlayClick x; hasUpdated := hasUpdated x;
     keydownListeners := keydownListeners x; display := display x;
     originalTrigger := originalTrigger x; topAppBar := topAppBar x;
     autofocus := autofocus x; children := children x; prevents := prevents x;
     anims := anims x; conts := conts x |}.

Definition with_hasUpdated (b : bool) (x : Dialog) : Dialog :=
  {| open := open x; closeOnEsc := closeOnEsc x;
     closeOnOverlayClick := closeOnOverlayClick x; hasUpdated := b;
     keydownListeners := keydownListeners x; display := display x;
     originalTrigger := originalTrigger x; topAppBar := topAppBar x;
     autofocus := autofocus x; children := children x; prevents := prevents x;
     anims := anims x; conts := conts x |}.

Definition with_keydownListeners (n : nat) (x : Dialog) : Dialog :=
  {| open := open x; closeOnEsc := closeOnEsc x;
     closeOnOverlayClick := closeOnOverlayClick x; hasUpdated := hasUpdated x;
     keydownListeners := n; display := display x;
     originalTrigger := originalTrigger x; topAppBar := topAppBar x;
     autofocus := autofocus x; children := children x; prevents := prevents x;
     anims := anims x; conts := conts x |}.

Definition with_display (v : Display) (x : Dialog) : Dialog :=
  {| open := open x; closeOnEsc := closeOnEsc x;
     closeOnOverlayClick := closeOnOverlayClick x; hasUpdated := hasUpdated x;
     keydownListeners := keydownListeners x; display := v;
     originalTrigger := originalTrigger x; topAppBar := topAppBar x;
     autofocus := autofocus x; children := children x; prevents := prevents x;
     anims := anims x; conts := conts x |}.

Definition with_originalTrigger (t : option Target) (x : Dialog) : Dialog :=
  {| open := open x; closeOnEsc := closeOnEsc x;
     closeOnOverlayClick := closeOnOverlayClick x; hasUpdated := hasUpdated x;
     keydownListeners := keydownListeners x; display := display x;
     originalTrigger := t; topAppBar := topAppBar x;
     autofocus := autofocus x; children := children x; prevents := prevents x;
     anims := anims x; conts := conts x |}.

Definition with_prevents (p : EventName → bool) (x : Dialog) : Dialog :=
  {| open := open x; closeOnEsc := closeOnEsc x;
     closeOnOverlayClick := closeOnOverlayClick x; hasUpdated := hasUpdated x;
     keydownListeners := keydownListeners x; display := display x;
     originalTrigger := originalTrigger x; topAppBar := topAppBar x;
     autofocus := autofocus x; children := children x; prevents := p;
     anims := anims x; conts := conts x |}.

Definition with_anims (l : list Anim) (x : Dialog) : Dialog :=
  {| open := open x; closeOnEsc := closeOnEsc x;
     closeOnOverlayClick := closeOnOverlayClick x; hasUpdated := hasUpdated x;
     keydownListeners := keydownListeners x; display := display x;
     originalTrigger := originalTrigger x; topAppBar := topAppBar x;
     autofocus := autofocus x; children := children x; prevents := prevents x;
     anims := l; conts := conts x |}.

Definition with_conts (l : list Cont) (x : Dialog) : Dialog :=
  {| open := open x; closeOnEsc := closeOnEsc x;
     closeOnOverlayClick := closeOnOverlayClick x; hasUpdated := hasUpdated x;
     keydownListeners := keydownListeners x; display := display x;
     originalTrigger := originalTrigger x; topAppBar := topAppBar x;
     autofocus := autofocus x; children := children x; prevents := prevents x;
     anims := anims x; conts := l |}.

(** [this.<field> = ...] on dialog [d]. *)
Definition update (d : nat) (f : Dialog → Dialog) (w : World) : World :=
  {| dialogs := alter f d (dialogs w); activeElement := activeElement w;
     activeModals := activeModals w; lockCount := lockCount w;
     lockOwners := lockOwners w; frames := frames w; timers := timers w;
     log := log w; nextRun := nextRun w |}.

Definition record (a : Action) (w : World) : World :=
  {| dialogs := dialogs w; activeElement := activeElement w;
     activeModals := activeModals w; lockCount := lockCount w;
     lockOwners := lockOwners w; frames := frames w; timers := timers w;
     log := log w ++ [a]; nextRun := nextRun w |}.

Definition with_activeElement (t : option Target) (w : World) : World :=
  {| dialogs := dialogs w; activeElement := t;
     activeModals := activeModals w; lockCount := lockCount w;
     lockOwners := lockOwners w; frames := frames w; timers := timers w;
     log := log w; nextRun := nextRun w |}.

Definition with_activeModals (l : list nat) (w : World) : World :=
  {| dialogs := dialogs w; activeElement := activeElement w;
     activeModals := l; lockCount := lockCount w;
     lockOwners := lockOwners w; frames := frames w; timers := timers w;
     log := log w; nextRun := nextRun w |}.

Definition with_lock (n : Z) (o : gset nat) (w : World) : World :=
  {| dialogs := dialogs w; activeElement := activeElement w;
     activeModals := activeModals w; lockCount := n;
     lockOwners := o; frames := frames w; timers := timers w;
     log := log w; nextRun := nextRun w |}.

Definition with_frames (l : list nat) (w : World) : World :=
  {| dialogs := dialogs w; activeElement := activeElement w;
     activeModals := activeModals w; lockCount := lockCount w;
     lockOwners := lockOwners w; frames := l; timers := timers w;
     log := log w; nextRun := nextRun w |}.

Definition with_timers (l : list Target) (w : World) : World :=
  {| dialogs := dialogs w; activeElement := activeElement w;
     activeModals := activeModals w; lockCount := lockCount w;
     lockOwners := lockOwners w; frames := frames w; timers := l;
     log := log w; nextRun := nextRun w |}.

Definition with_nextRun (n : nat) (w : World) : World :=
  {| dialogs := dialogs w; activeElement := activeElement w;
     activeModals := activeModals w; lockCount := lockCount w;
     lockOwners := lockOwners w; frames := frames w; timers := timers w;
     log := log w; nextRun := n |}.

(** *** The helpers the component calls *)

(** Modelled from the spec: [emit(el, name, options)] dispatches the named
    notification on the dialog and returns the event; the flag returned
    here is its [defaultPrevented], which only a cancelable event can get. *)
Definition emit (d : nat) (x : Dialog) (ev : EventName) (cancelable : bool)
    (w : World) : bool * World :=
  (cancelable && prevents x ev, record (emitted d ev) w).

(** Modelled from the spec: [Modal.activate] pushes the overlay context of
    the dialog on the stack, which makes the content outside the new
    topmost context inert. *)
Definition modal_activate (d : nat) (w : World) : World :=
  record (modal_activated d) (with_activeModals (activeModals w ++ [d]) w).

(** Modelled from the spec: [Modal.deactivate] takes the overlay context
    of the dialog off the stack, wherever it is, and with it the inert
    state it caused. *)
Definition modal_deactivate (d : nat) (w : World) : World :=
  record (modal_deactivated d)
    (with_activeModals (filter (λ m, m ≠ d) (activeModals w)) w).

(** The topmost overlay context; everything outside it is inert. *)
Definition topmost (w : World) : option nat := last (activeModals w).

(** Modelled from the spec: [lockScreen(source)] of the scroll helper. The
    counter is a process-wide integer; an overlay context owns at most one
    unit of it, taken here, so that a repeated call changes nothing. *)
Definition lockScreen (d : nat) (w : World) : World :=
  if decide (d ∈ lockOwners w) then w
  else record (scroll_lock_inc d)
         (with_lock (lockCount w + 1) ({[d]} ∪ lockOwners w) w).

(** Modelled from the spec: [unlockScreen(source)] gives the unit of the
    source back, if it owns one, and decrements the counter. *)
Definition unlockScreen (d : nat) (w : World) : World :=
  if decide (d ∈ lockOwners w)
  then record (scroll_lock_dec d)
         (with_lock (lockCount w - 1) (lockOwners w ∖ {[d]}) w)
  else w.

(** Modelled from the spec: [stopAnimations(node)] cancels every animation
    running on the node; a cancelled animation resolves its [animateTo]
    promise, it does not reject it. *)
Definition stopAnimations (d : nat) (p : Part) (w : World) : World :=
  record (animations_stopped d p)
    (update d (λ x, with_anims (filter (λ a, an_part a ≠ p) (anims x)) x) w).

(** Modelled from the spec: [animateTo(node, keyframes, options)] starts
    an animation on the node; its promise is settled when the animation
    has finished or was cancelled. *)
Definition animateTo (d : nat) (p : Part) (k : Keyframes) (run : nat)
    (w : World) : World :=
  let a := {| an_part := p; an_keyframes := k; an_run := run |} in
  record (animation_started d a)
    (update d (λ x, with_anims (anims x ++ [a]) x) w).

Definition requestAnimationFrame (d : nat) (w : World) : World :=
  record (frame_requested d) (with_frames (frames w ++ [d]) w).

Definition setTimeout (d : nat) (t : Target) (w : World) : World :=
  record (timeout_set d t) (with_timers (timers w ++ [t]) w).

(** [t.focus()]: the call, and the focus on its target. Whether the
    platform gives the focus to a target that cannot take it (an element
    that is hidden or inert, or the host element that
    [document.activeElement] reports for a focus inside a shadow tree) is
    not modelled; a focus inside a dialog is known by its panel. *)
Definition focus (t : Target) (w : World) : World :=
  record (focused t) (with_activeElement (Some t) w).

(** [typeof trigger?.focus === 'function'] *)
Definition focus_is_function (t : option Target) : bool :=
  match t with
  | Some (panel_of _) => true
  | Some (element e) => el_focus e
  | None => false
  end.

(** The invocation is parked at an [await]. *)
Definition suspend (d : nat) (c : Cont) (w : World) : World :=
  update d (λ x, with_conts (conts x ++ [c]) x) w.

(** *** [onOpenChange] *)

(** [overlayRef], [panelRef] and [children], in the order of the
    [Promise.all] arrays. *)
Definition parts (x : Dialog) : list Part :=
  overlay :: panel :: map child (children x).

Definition stop_each (d : nat) (ps : list Part) (w : World) : World :=
  foldl (λ w p, stopAnimations d p w) w ps.

Definition stop_all (d : nat) (x : Dialog) (w : World) : World :=
  stop_each d (parts x) w.

(** [...children.map((child) => animateTo(child, keyframes, options))] *)
Definition animate_children (d : nat) (k : Keyframes) (r : nat)
    (kids : list nat) (w : World) : World :=
  foldl (λ w i, animateTo d (child i) k r w) w kids.

(** The open branch of [run], up to its first [await]. *)
Definition run_open (d : nat) (x : Dialog) (w : World) : World :=
  let '(defaultPrevented, w) := emit d x ev_open true w in
  if defaultPrevented then w
  else
    let w := if topAppBar x then record (scroll_target_set d) w else w in
    let w := record (display_set d display_flex) (update d (with_display display_flex) w) in
    let t := activeElement w in
    let w := record (trigger_captured d t) (update d (with_originalTrigger t) w) in
    let w := modal_activate d w in
    let w := lockScreen d w in
    let w := stop_all d x w in
    suspend d open_await_stop w.

(** After [stopAnimations]: the focus callback is queued, then the four
    kinds of open animation are started. *)
Definition run_open_animate (d : nat) (x : Dialog) (w : World) : World :=
  let w := requestAnimationFrame d w in
  let r := nextRun w in
  let w := with_nextRun (S r) w in
  let w := animateTo d overlay overlay_fade_in r w in
  let w := animateTo d panel panel_scale_in r w in
  let w := animateTo d panel panel_fade_in r w in
  let w := animate_children d child_fade_in r (children x) w in
  suspend d (open_await_animate r) w.

(** After the open animations. *)
Definition run_open_finish (d : nat) (x : Dialog) (w : World) : World :=
  snd (emit d x ev_opened false w).

(** The callback given to [requestAnimationFrame]. *)
Definition focus_callback (d : nat) (w : World) : World :=
  match dialogs w !! d with
  | Some x =>
      match autofocus x with
      | Some e => focus (element e) w
      | None => focus (panel_of d) w
      end
  | None => w
  end.

(** The close branch of [run], up to its first [await]. *)
Definition run_close (d : nat) (x : Dialog) (w : World) : World :=
  let '(defaultPrevented, w) := emit d x ev_close true w in
  if defaultPrevented then w
  else
    let w := modal_deactivate d w in
    let w := stop_all d x w in
    suspend d close_await_stop w.

Definition run_close_animate (d : nat) (x : Dialog) (w : World) : World :=
  let r := nextRun w in
  let w := with_nextRun (S r) w in
  let w := animateTo d overlay overlay_fade_out r w in
  let w := animateTo d panel panel_scale_out r w in
  let w := animateTo d panel panel_fade_out r w in
  let w := animate_children d child_fade_out r (children x) w in
  suspend d (close_await_animate r) w.

(** After the close animations. *)
Definition run_close_finish (d : nat) (x : Dialog) (w : World) : World :=
  let w := record (display_set d display_none) (update d (with_display display_none) w) in
  let w := unlockScreen d w in
  let trigger := originalTrigger x in
  let w :=
    match trigger with
    | Some t => if focus_is_function trigger then setTimeout d t w else w
    | None => w
    end in
  snd (emit d x ev_closed false w).

(** [run]: [if (this.open) {...} else if (this.hasUpdated) {...}] *)
Definition run (d : nat) (w : World) : World :=
  match dialogs w !! d with
  | Some x =>
      if open x then run_open d x w
      else if hasUpdated x then run_close d x w
      else w
  | None => w
  end.

(** [onOpenChange], called by [@watch('open')] when the property changed. *)
Definition onOpenChange (d : nat) (w : World) : World :=
  match dialogs w !! d with
  | Some x => if hasUpdated x then run d w else suspend d await_update w
  | None => w
  end.

(** [this.open = b]: the intent. Modelled from the spec: the property
    setter and the [@watch] decorator are not under these sources; setting
    the open or the close intent triggers the transition, so [onOpenChange]
    is called when the value of the property has changed, and not
    otherwise. Every write is taken to get an update cycle of its own, after
    the first update or before it; writes that share one update cycle, and
    the call of the watcher by the first update itself, are not modelled. *)
Definition set_open (d : nat) (b : bool) (w : World) : World :=
  match dialogs w !! d with
  | Some x =>
      if bool_decide (open x = b) then w
      else onOpenChange d (update d (with_open b) w)
  | None => w
  end.

(** *** The other callbacks of the component *)

(** The listener of [$(this).on('keydown', ...)]; the flag says whether
    [stopPropagation] was called on the event. *)
Definition keydown_listener (d : nat) (key : string) (sw : bool * World)
    : bool * World :=
  match dialogs (snd sw) !! d with
  | Some x =>
      if open x && closeOnEsc x && bool_decide (key = "Escape")
      then (true, set_open d false (record (propagation_stopped d) (snd sw)))
      else sw
  | None => sw
  end.

Definition listeners_on (d : nat) (w : World) : nat :=
  match dialogs w !! d with
  | Some x => keydownListeners x
  | None => 0
  end.

(** A keydown event bubbles along its propagation path, given here as the
    dialogs on it from the target outwards; every listener of an element
    is called, and the event goes on to the next element unless its
    propagation was stopped. *)
Fixpoint dispatch_keydown (key : string) (path : list nat) (w : World) : World :=
  match path with
  | [] => w
  | d :: outer =>
      let sw := Nat.iter (listeners_on d w) (keydown_listener d key) (false, w) in
      if fst sw then snd sw else dispatch_keydown key outer (snd sw)
  end.

(** [connectedCallback]: a new [Modal] helper and one more keydown listener. *)
Definition connectedCallback (d : nat) (w : World) : World :=
  update d (λ x, with_keydownListeners (S (keydownListeners x)) x) w.

(** [disconnectedCallback] *)
Definition disconnectedCallback (d : nat) (w : World) : World :=
  unlockScreen d w.

(** [onOverlayClick] *)
Definition onOverlayClick (d : nat) (w : World) : World :=
  match dialogs w !! d with
  | Some x =>
      let w := snd (emit d x ev_overlay_click false w) in
      if negb (closeOnOverlayClick x) then w
      else set_open d false w
  | None => w
  end.

(** *** The event loop *)

(** Whether the promise an invocation waits for is settled. *)
Definition settled (x : Dialog) (c : Cont) : bool :=
  match c with
  | await_update => hasUpdated x
  | open_await_stop | close_await_stop => true
  | open_await_animate r | close_await_animate r =>
      forallb (λ a, negb (an_run a =? r)) (anims x)
  end.

(** The code after the [await]; [x] is the dialog as it is when the
    invocation goes on. The elements [run] found with [querySelectorAll]
    when it started are the [children], which no event here changes. *)
Definition continue (d : nat) (x : Dialog) (c : Cont) (w : World) : World :=
  match c with
  | await_update => run d w
  | open_await_stop => run_open_animate d x w
  | open_await_animate _ => run_open_finish d x w
  | close_await_stop => run_close_animate d x w
  | close_await_animate _ => run_close_finish d x w
  end.

(** The [i]-th suspended invocation of dialog [d] goes on, if it can. *)
Definition resume (d i : nat) (w : World) : World :=
  match dialogs w !! d with
  | Some x =>
      match conts x !! i with
      | Some c =>
          if settled x c
          then continue d x c (update d (λ x, with_conts (delete i (conts x)) x) w)
          else w
      | None => w
      end
  | None => w
  end.

(** The [i]-th running animation of dialog [d] finishes. *)
Definition animation_end (d i : nat) (w : World) : World :=
  update d (λ x, with_anims (delete i (anims x)) x) w.

(** The next animation frame: the queued callbacks run, oldest first. *)
Definition frame (w : World) : World :=
  foldl (λ w d, focus_callback d w) (with_frames [] w) (frames w).

(** The oldest timer fires: [() => trigger.focus()]. *)
Definition timer (w : World) : World :=
  match timers w with
  | t :: rest => focus t (with_timers rest w)
  | [] => w
  end.

(** What can happen on the page. *)
Inductive Event :=
  | SetOpen (d : nat) (b : bool)
  | FirstUpdate (d : nat)
  | Resume (d i : nat)
  | AnimationEnd (d i : nat)
  | Frame
  | Timer
  | Keydown (key : string) (path : list nat)
  | OverlayClick (d : nat)
  | Connect (d : nat)
  | Disconnect (d : nat)
  | Listen (d : nat) (p : EventName → bool)
  | FocusMoved (t : option Target).

Definition step (e : Event) (w : World) : World :=
  match e with
  | SetOpen d b => set_open d b w
  | FirstUpdate d => update d (with_hasUpdated true) w
  | Resume d i => resume d i w
  | AnimationEnd d i => animation_end d i w
  | Frame => frame w
  | Timer => timer w
  | Keydown key path => dispatch_keydown key path w
  | OverlayClick d => onOverlayClick d w
  | Connect d => connectedCallback d w
  | Disconnect d => disconnectedCallback d w
  | Listen d p => update d (with_prevents p) w
  | FocusMoved t => with_activeElement t w
  end.

Definition steps (es : list Event) (w : World) : World :=
  foldl (λ w e, step e w) w es.

(** A dialog as it is created, before it is connected and rendered. *)
Definition new_dialog (esc overlayClick bar : bool) (auto : option Element)
    (kids : list nat) (p : EventName → bool) : Dialog :=
  {| open := false; closeOnEsc := esc; closeOnOverlayClick := overlayClick;
     hasUpdated := false; keydownListeners := 0; display := display_unset;
     originalTrigger := None; topAppBar := bar; autofocus := auto;
     children := kids; prevents := p; anims := []; conts := [] |}.

(** A page whose dialogs were just created. *)
Definition page (ds : gmap nat Dialog) (focus : option Target) : World :=
  {| dialogs := ds; activeElement := focus; activeModals := [];
     lockCount := 0; lockOwners := ∅; frames := []; timers := [];
     log := []; nextRun := 0 |}.

(** *** The states of an overlay *)

(** [inactive]: hidden, nothing of it in flight, off the stack, no unit of
    the scroll lock. *)
Definition inactive (w : World) (d : nat) : Prop :=
  ∃ x, dialogs w !! d = Some x ∧ display x ≠ display_flex ∧
       anims x = [] ∧ conts x = [] ∧
       (d ∉ activeModals w) ∧ (d ∉ lockOwners w).

(** [active]: shown, on the stack, nothing of it in flight. *)
Definition active (w : World) (d : nat) : Prop :=
  ∃ x, dialogs w !! d = Some x ∧ open x = true ∧ display x = display_flex ∧
       anims x = [] ∧ conts x = [] ∧ d ∈ activeModals w.

(** Nothing of the dialog is in flight. *)
Definition quiescent (w : World) (d : nat) : Prop :=
  ∃ x, dialogs w !! d = Some x ∧ anims x = [] ∧ conts x = [].

(** No element of the dialog carries animations of two invocations. *)
Definition no_conflict (w : World) (d : nat) : Prop :=
  ∀ x a b, dialogs w !! d = Some x → a ∈ anims x → b ∈ anims x →
           an_part a = an_part b → an_run a = an_run b.

(** The properties and the surroundings of a dialog, which the transitions
    read and never write. *)
Definition same_props (y y' : Dialog) : Prop :=
  closeOnEsc y' = closeOnEsc y ∧
  closeOnOverlayClick y' = closeOnOverlayClick y ∧
  hasUpdated y' = hasUpdated y ∧
  keydownListeners y' = keydownListeners y ∧
  topAppBar y' = topAppBar y ∧ autofocus y' = autofocus y ∧
  children y' = children y ∧ prevents y' = prevents y.

(** Every dialog is still there, with its properties and its [open]. *)
Definition keeps_props (w w' : World) : Prop :=
  ∀ d y, dialogs w !! d = Some y →
    ∃ y', dialogs w' !! d = Some y' ∧ open y' = open y ∧ same_props y y'.

(** The log only grows. *)
Definition extends (w w' : World) : Prop := ∃ l, log w' = log w ++ l.

(** Only dialog [d] acted: the other dialogs, their places on the stack
    and their units of the scroll lock are what they were. *)
Definition acts_on (d : nat) (w w' : World) : Prop :=
  (∀ d', d' ≠ d → dialogs w' !! d' = dialogs w !! d') ∧
  (∀ d', d' ≠ d → d' ∈ activeModals w' ↔ d' ∈ activeModals w) ∧
  (∀ d', d' ≠ d → d' ∈ lockOwners w' ↔ d' ∈ lockOwners w).

(** Whether a dialog answers a keydown that reaches it: it has a listener,
    and the listener finds [open], [closeOnEsc] and the Escape key. *)
Definition reacts (key : string) (w : World) (d : nat) : bool :=
  match dialogs w !! d with
  | Some x =>
      open x && closeOnEsc x && bool_decide (key = "Escape") &&
      bool_decide (0 < keydownListeners x)
  | None => false
  end.

(** *** A page to run the model on *)

Definition button : Element := {| el_id := 7; el_focus := true |}.

(** A dialog with a header and a body, closing on Escape and on a click
    on its overlay, rendered and connected; [p] are its listeners. *)
Definition rendered_dialog (p : EventName → bool) : Dialog :=
  with_keydownListeners 1
    (with_hasUpdated true (new_dialog true true false None [0; 1] p)).

Definition no_listener (ev : EventName) : bool := false.
Definition prevent_open (ev : EventName) : bool := bool_decide (ev = ev_open).

(** Two dialogs, the focus on a button of the page. *)
Definition demo_page : World :=
  page {[ 1 := rendered_dialog no_listener; 2 := rendered_dialog no_listener ]}
       (Some (element button)).

(** The same, with a listener on dialog 1 that prevents its [open]. *)
Definition guarded_page : World :=
  page {[ 1 := rendered_dialog prevent_open; 2 := rendered_dialog no_listener ]}
       (Some (element button)).

(** Dialog 1 opened to the end, then dialog 2 opened above it. *)
Definition open_fully (d : nat) : list Event :=
  [SetOpen d true; Resume d 0; Frame;
   AnimationEnd d 0; AnimationEnd d 0; AnimationEnd d 0; AnimationEnd d 0;
   AnimationEnd d 0; Resume d 0].

(** A dialog of the demo page once it is shown; [t] had the focus. *)
Definition shown_dialog (t : Target) : Dialog :=
  with_originalTrigger (Some t)
    (with_display display_flex (with_open true (rendered_dialog no_listener))).

Definition stacked_page : World :=
  steps (open_fully 1 ++ open_fully 2) demo_page.

(** The animations the open and the close branch start, for run [r]. *)
Definition open_animations (x : Dialog) (r : nat) : list Anim :=
  [ {| an_part := overlay; an_keyframes := overlay_fade_in; an_run := r |};
    {| an_part := panel; an_keyframes := panel_scale_in; an_run := r |};
    {| an_part := panel; an_keyframes := panel_fade_in; an_run := r |} ] ++
  ((λ i, {| an_part := child i; an_keyframes := child_fade_in; an_run := r |})
     <$> children x).

Definition close_animations (x : Dialog) (r : nat) : list Anim :=
  [ {| an_part := overlay; an_keyframes := overlay_fade_out; an_run := r |};
    {| an_part := panel; an_keyframes := panel_scale_out; an_run := r |};
    {| an_part := panel; an_keyframes := panel_fade_out; an_run := r |} ] ++
  ((λ i, {| an_part := child i; an_keyframes := child_fade_out; an_run := r |})
     <$> children x).

(** Where the focus callback of a dialog puts the focus. *)
Definition focus_target (d : nat) (x : Dialog) : Target :=
  match autofocus x with
  | Some e => element e
  | None => panel_of d
  end.

(** A shown dialog closed to the end. *)
Definition close_fully (d : nat) : list Event :=
  [SetOpen d false; Resume d 0;
   AnimationEnd d 0; AnimationEnd d 0; AnimationEnd d 0; AnimationEnd d 0;
   AnimationEnd d 0; Resume d 0; Timer].

(** Both dialogs opened, then closed, the lower one first. *)
Definition open_close_both : list Event :=
  open_fully 1 ++ open_fully 2 ++ close_fully 1 ++ close_fully 2.

(** Dialog 1 of the demo page opening, two of its animations still running. *)
Definition opening_page : World :=
  steps [SetOpen 1 true; Resume 1 0; Frame; AnimationEnd 1 0;
         AnimationEnd 1 1; AnimationEnd 1 2] demo_page.

(** Dialog 1 of the demo page shown, nothing in flight. *)
Definition opened_page : World := steps (open_fully 1) demo_page.

(** The events that let a closing overlay settle: the closing animations
    start, every animation ends, the closing goes on to its end, and the
    opening that was cut short emits its [opened]. *)
Definition settle_close (d : nat) (x : Dialog) : list Event :=
  [Resume d 1] ++ replicate (3 + length (children x)) (AnimationEnd d 0) ++
  [Resume d 1; Resume d 0].

(** The states of a dialog that is closing while the opening cut short by
    the close, run [r], may still have to emit [opened]: the closing waits
    for the cancelled animations, or its own animations (all of one run)
    are running, or it is done. Throughout, the overlay context is off the
    stack. *)
Definition closing_inv (d : nat) (r : nat) (w : World) : Prop :=
  ∃ y pre, dialogs w !! d = Some y ∧ open y = false ∧
    (d ∉ activeModals w) ∧
    (pre = [] ∨ pre = [open_await_animate r]) ∧
    ((conts y = pre ++ [close_await_stop] ∧ anims y = []) ∨
     (∃ r2, conts y = pre ++ [close_await_animate r2] ∧
            Forall (λ a, an_run a = r2) (anims y)) ∨
     (conts y = pre ∧ anims y = [] ∧ display y = display_none ∧
      d ∉ lockOwners w)).

(** How often the counter went up and down for a dialog. *)
Definition increments (d : nat) (l : list Action) : nat :=
  length (filter (λ a, a = scroll_lock_inc d) l).

Definition decrements (d : nat) (l : list Action) : nat :=
  length (filter (λ a, a = scroll_lock_dec d) l).

(** The scroll lock is consistent: the counter is the number of dialogs
    that own a unit, only shown dialogs own one, and for every dialog the
    counter went up once more than down if it owns a unit and as often as
    down if it does not. *)
Definition lock_consistent (w : World) : Prop :=
  lockCount w = Z.of_nat (size (lockOwners w)) ∧
  (∀ d, d ∈ lockOwners w →
        ∃ x, dialogs w !! d = Some x ∧ display x = display_flex) ∧
  (∀ d, increments d (log w) =
        decrements d (log w) + (if decide (d ∈ lockOwners w) then 1 else 0)).

(** A step that leaves the scroll lock alone and hides no dialog. *)
Definition benign (w w' : World) : Prop :=
  lockCount w' = lockCount w ∧ lockOwners w' = lockOwners w ∧
  (∀ d, increments d (log w') = increments d (log w) ∧
        decrements d (log w') = decrements d (log w)) ∧
  (∀ d x, dialogs w !! d = Some x → display x = display_flex →
          ∃ x', dialogs w' !! d = Some x' ∧ display x' = display_flex).

(** An effect that is no change of the counter. *)
Definition no_lock_change (a : Action) : Prop :=
  (∀ d, a ≠ scroll_lock_inc d) ∧ (∀ d, a ≠ scroll_lock_dec d).

(** No dialog of the page is shown. *)
Definition all_hidden (w : World) : Prop :=
  ∀ d x, dialogs w !! d = Some x → display x ≠ display_flex.

(** *** A transition run to its end *)

(** The open intent, the continuation after [stopAnimations], the next
    animation frame, the end of every open animation, the continuation
    after them. *)
Definition open_to_end (d : nat) (x : Dialog) : list Event :=
  [SetOpen d true; Resume d 0; Frame] ++
  replicate (3 + length (children x)) (AnimationEnd d 0) ++ [Resume d 0].

(** The close intent, the continuation after [stopAnimations], the end of
    every close animation, the continuation after them, the timer. *)
Definition close_to_end (d : nat) (x : Dialog) : list Event :=
  [SetOpen d false; Resume d 0] ++
  replicate (3 + length (children x)) (AnimationEnd d 0) ++ [Resume d 0; Timer].

(** *** Reopening a dialog that is closing *)

(** An event that is no intent to close dialog [d]: no write of [false]
    to its [open], no click on its overlay, no key event that passes it. *)
Definition no_close_intent (e : Event) (d : nat) : Prop :=
  match e with
  | SetOpen d' b => d' = d → b = true
  | OverlayClick d' => d' ≠ d
  | Keydown _ path => d ∉ path
  | _ => True
  end.

(** The states of a dialog that was reopened while its close animations
    ran. The closing still waits for its animations, or it has come to its
    end and has hidden the dialog and given the unit of the scroll lock
    back; the opening waits for the cancelled animations, or its own
    animations (all of one run) are running, or it is done. Throughout,
    [open] is set and the overlay context is on the stack. *)
Definition reopen_inv (d : nat) (w : World) : Prop :=
  ∃ y cp op, dialogs w !! d = Some y ∧ open y = true ∧ d ∈ activeModals w ∧
    conts y = cp ++ op ∧
    ((∃ rc, cp = [close_await_animate rc]) ∨
     (cp = [] ∧ display y = display_none ∧ d ∉ lockOwners w)) ∧
    ((op = [open_await_stop] ∧ anims y = []) ∨
     (∃ ro, op = [open_await_animate ro] ∧
            Forall (λ a, an_run a = ro) (anims y)) ∨
     (op = [] ∧ anims y = [])).

(** Open and the topmost or a lower overlay context, yet hidden and
    without a unit of the scroll lock; nothing in flight. *)
Definition open_but_hidden (w : World) (d : nat) : Prop :=
  ∃ y, dialogs w !! d = Some y ∧ open y = true ∧ display y = display_none ∧
       anims y = [] ∧ conts y = [] ∧
       d ∈ activeModals w ∧ (d ∉ lockOwners w).

(** The events that let a reopened dialog settle: the closing that was cut
    short goes on to its end, the open animations start, every animation
    ends, the opening goes on to its end. *)
Definition settle_reopen (d : nat) (x : Dialog) : list Event :=
  [Resume d 0; Resume d 0] ++
  replicate (3 + length (children x)) (AnimationEnd d 0) ++ [Resume d 0].

(** Dialog 1 of the demo page closing, four of its animations still
    running. *)
Definition closing_page : World :=
  steps [SetOpen 1 false; Resume 1 0; AnimationEnd 1 0] opened_page.

(** *** What goes on by itself *)

(** An event that is no doing of the page or its user: a suspended
    invocation goes on, an animation ends, a frame or a timer runs. *)
Definition internal (e : Event) : Prop :=
  match e with
  | Resume _ _ | AnimationEnd _ _ | Frame | Timer => True
  | _ => False
  end.

(** A page whose one dialog is shown and has a listener that prevents
    every cancelable event. *)
Definition held_page : World :=
  with_activeModals [1]
    (page {[ 1 := with_prevents (λ _, true) (shown_dialog (element button)) ]}
          (Some (panel_of 1))).

(** *** Events seen from one dialog *)

(** The event is not about dialog [d]: it is about another dialog, or a
    key event whose path does not pass [d], or a frame, a timer, a move of
    the focus. *)
Definition elsewhere (e : Event) (d : nat) : Prop :=
  match e with
  | SetOpen d' _ | FirstUpdate d' | Resume d' _ | AnimationEnd d' _
  | OverlayClick d' | Connect d' | Disconnect d' | Listen d' _ => d' ≠ d
  | Keydown _ path => d ∉ path
  | Frame | Timer | FocusMoved _ => True
  end.

End Dialog.

(* ===================================================================== *)
(** * The Chip component                                                  *)
(* ===================================================================== *)

(** The handlers of [mdui-chip]: a click or the space key toggles the
    selection of a selectable chip, the Delete and Backspace keys and a
    click on the delete icon ask for its deletion. *)

Module Chip.

(** The properties of a chip the handlers read and write; [disabled] and
    [loading] are those of [ButtonBase]. [emitted] are the events the
    handlers themselves emit on the chip, oldest first. The [change] event
    is not among them: it is emitted by [onSelectedChange], which the
    [@watch('selected', true)] decorator calls when an update finds
    [selected] changed, and the decorator is not under these sources. *)
Record Chip := {
  disabled : bool;
  loading : bool;
  selectable : bool;
  selected : bool;
  deletable : bool;
  emitted : list string
}.

Definition with_selected (b : bool) (c : Chip) : Chip :=
  {| disabled := disabled c; loading := loading c; selectable := selectable c;
     selected := b; deletable := deletable c; emitted := emitted c |}.

(** Modelled from the spec: [emit(el, name)] dispatches the named event on
    the element. *)
Definition emit (name : string) (c : Chip) : Chip :=
  {| disabled := disabled c; loading := loading c; selectable := selectable c;
     selected := selected c; deletable := deletable c;
     emitted := emitted c ++ [name] |}.

Record KeyboardEvent := { key : string; defaultPrevented : bool }.

Definition preventDefault (event : KeyboardEvent) : KeyboardEvent :=
  {| key := key event; defaultPrevented := true |}.

Record MouseEvent := { propagationStopped : bool }.

Definition stopPropagation (event : MouseEvent) : MouseEvent :=
  {| propagationStopped := true |}.

(** [onClick] *)
Definition onClick (c : Chip) : Chip :=
  if disabled c || loading c then c
  else if selectable c then with_selected (negb (selected c)) c
  else c.

(** [onKeyDown] *)
Definition onKeyDown (event : KeyboardEvent) (c : Chip) : KeyboardEvent * Chip :=
  if disabled c || loading c then (event, c)
  else
    let '(event, c) :=
      if selectable c && bool_decide (key event = " ")
      then (preventDefault event, with_selected (negb (selected c)) c)
      else (event, c) in
    let c :=
      if deletable c && bool_decide (key event ∈ ["Delete"; "Backspace"])
      then emit "delete" c
      else c in
    (event, c).

(** [onDelete] *)
Definition onDelete (event : MouseEvent) (c : Chip) : MouseEvent * Chip :=
  (stopPropagation event, emit "delete" c).

(** [renderDeleteIcon] renders the delete icon, with [onDelete] as the
    click listener of its slot, when the chip is [deletable], and nothing
    otherwise. *)
Definition renderDeleteIcon (c : Chip) : bool := deletable c.

(** A click on the delete icon. The listener of the slot runs first; the
    click then bubbles to the chip, whose click listener is [onClick],
    unless its propagation was stopped. There is no such click on a chip
    that renders no delete icon. *)
Definition click_delete_icon (c : Chip) : option Chip :=
  if renderDeleteIcon c then
    let '(event, c) := onDelete {| propagationStopped := false |} c in
    Some (if propagationStopped event then c else onClick c)
  else None.

(** A keydown on the chip; the result says whether the default action of
    the key was prevented. *)
Definition press (k : string) (c : Chip) : bool * Chip :=
  let '(event, c) := onKeyDown {| key := k; defaultPrevented := false |} c in
  (defaultPrevented event, c).

(** A selectable, deletable chip, and the same chip disabled. *)
Definition demo_chip : Chip :=
  {| disabled := false; loading := false; selectable := true;
     selected := false; deletable := true; emitted := [] |}.

Definition disabled_chip : Chip :=
  {| disabled := true; loading := false; selectable := true;
     selected := false; deletable := true; emitted := [] |}.

End Chip.

(* ===================================================================== *)
(** * Properties                                                          *)
(* ===================================================================== *)

(** ** The plugin registry *)

Module PluginFacts.
Import Plugin.

Section Facts.
Context {Fn : Type}.
Variable assign_inherited : Fn → string → Fn → Table Fn → option (Table Fn).
Implicit Types (obj : PlainObject Fn) (fn : Table Fn) (m : gmap string Fn).

(** What [$.fn] holds under a name once every entry has become a property. *)
Lemma install_lookup obj m name :
  install obj m !! name =
    match entry_of obj name with Some v => Some v | None => m !! name end.
Proof.
  unfold install. revert m.
  induction obj as [|[prop value] rest IH]; intros m; simpl; [done|].
  rewrite IH. destruct (entry_of rest name); [done|].
  case_decide; subst; [by rewrite lookup_insert_eq | by rewrite lookup_insert_ne].
Qed.

Lemma entry_of_Some_elem obj name :
  is_Some (entry_of obj name) → name ∈ obj.*1.
Proof.
  induction obj as [|[prop w] rest IH]; simpl.
  - by intros [? ?].
  - destruct (entry_of rest name).
    + intros _. apply elem_of_cons. right. by apply IH.
    + case_decide; [subst; intros _; apply elem_of_cons; by left | by intros [? ?]].
Qed.

Lemma entry_of_NoDup obj name value :
  NoDup obj.*1 → (name, value) ∈ obj → entry_of obj name = Some value.
Proof.
  induction obj as [|[prop v] rest IH]; simpl; intros Hnd Hin.
  - by apply elem_of_nil in Hin.
  - apply NoDup_cons in Hnd as [Hnotin Hnd].
    apply elem_of_cons in Hin as [Heq|Hin].
    + inversion Heq; subst.
      destruct (entry_of rest prop) eqn:E.
      * exfalso. apply Hnotin. apply entry_of_Some_elem. by rewrite E.
      * by rewrite decide_True.
    + by rewrite (IH Hnd Hin).
Qed.

Lemma install_idempotent obj m : install obj (install obj m) = install obj m.
Proof.
  apply map_eq. intros name. rewrite !install_lookup.
  by destruct (entry_of obj name).
Qed.

(** An assignment under a name other than [__proto__], while [$.fn] has
    the prototype it was created with, gives [$.fn] the property. *)
Lemma assign_ordinary prop value fn :
  proto fn = None → prop ≠ "__proto__" →
  assign assign_inherited prop value fn =
    Some {| own := <[prop := value]> (own fn); proto := None |}.
Proof.
  intros Hp Hne. unfold assign. rewrite Hp.
  destruct (own fn !! prop); [done|]. by rewrite decide_False.
Qed.

(** A registration without an entry named [__proto__], while [$.fn] has
    the prototype it was created with: every entry becomes a property. *)
Lemma extend_ordinary obj fn :
  proto fn = None → ordinary obj →
  extend assign_inherited obj fn =
    Some {| own := install obj (own fn); proto := None |}.
Proof.
  unfold extend, install, ordinary. revert fn.
  induction obj as [|[prop value] rest IH]; intros fn Hp Hord.
  - destruct fn as [m pr]. simpl in Hp. by subst.
  - rewrite fmap_cons in Hord. apply not_elem_of_cons in Hord as [Hne Hord].
    cbn [eachObject mbind option_bind].
    rewrite (assign_ordinary prop value fn Hp) by (intros ->; by apply Hne).
    exact (IH {| own := <[prop := value]> (own fn); proto := None |}
              eq_refl Hord).
Qed.

(** C8, at the input where the code misses it. Registering a mapping with
    an entry named [__proto__] on [$.fn] (which has the prototype it was
    created with and no property of that name) installs no capability: the
    assignment [$.fn['__proto__'] = f] runs the setter of the inherited
    accessor, so [$.fn] holds what it held, its prototype is now [f], and
    no Collection has a capability [__proto__] that is [f]. *)
Theorem extend_misses_proto fn (c : Collection) (f : Fn) :
  proto fn = None → own fn !! "__proto__" = None →
  extend assign_inherited [("__proto__", f)] fn =
    Some {| own := own fn; proto := Some f |} ∧
  (∀ fn', extend assign_inherited [("__proto__", f)] fn = Some fn' →
     capability fn' c "__proto__" = None ∧
     ∀ name, capability fn' c name = capability fn c name).
Proof.
  intros Hp Hown.
  assert (extend assign_inherited [("__proto__", f)] fn =
            Some {| own := own fn; proto := Some f |}) as E.
  { unfold extend. simpl. unfold assign. rewrite Hown, Hp. by rewrite decide_True. }
  split; [exact E|]. intros fn'. rewrite E. intros [= <-].
  unfold capability. simpl. by split.
Qed.

End Facts.

Lemma extend_misses_proto_witness :
  extend function_prototype [("__proto__", 5)] demo_table =
    Some {| own := {[ "show" := 0 ]}; proto := Some 5 |}.
Proof.
  apply (proj1 (extend_misses_proto function_prototype demo_table
                  {| nodes := [4] |} 5 eq_refl eq_refl)).
Defined.

End PluginFacts.

(** ** Serialized options *)

Module OptionsFacts.
Import Options.

Section Facts.
Context {Value : Type}.
Variable entries : string → list string.
Variable parse_entry : string → option (string * Value).

Abbreviation add := (add_entry parse_entry).
Abbreviation last_of := (last_binding parse_entry).
Abbreviation wf := (well_formed parse_entry).

Lemma foldl_add_lookup es (m : gmap string Value) k :
  foldl add m es !! k =
    match last_of es k with Some v => Some v | None => m !! k end.
Proof.
  revert m. induction es as [|e rest IH]; intros m; simpl; [done|].
  rewrite IH. destruct (last_of rest k); [done|].
  unfold add_entry. destruct (parse_entry e) as [[k' v]|]; [|done].
  case_decide; subst; [by rewrite lookup_insert_eq | by rewrite lookup_insert_ne].
Qed.

Lemma foldl_add_filter es (m : gmap string Value) :
  foldl add m (filter wf es) = foldl add m es.
Proof.
  revert m. induction es as [|e rest IH]; intros m; [done|].
  destruct (decide (wf e)) as [Hwf|Hwf].
  - rewrite filter_cons_True by done. simpl. by rewrite IH.
  - rewrite filter_cons_False by done. simpl. rewrite IH.
    f_equal. unfold add_entry, well_formed in *.
    destruct (parse_entry e) as [[k v]|]; [|done].
    exfalso. apply Hwf. by eexists.
Qed.

Lemma last_of_Some es k v :
  last_of es k = Some v → ∃ e, e ∈ es ∧ parse_entry e = Some (k, v).
Proof.
  induction es as [|e rest IH]; simpl; [done|].
  destruct (last_of rest k) as [v'|].
  - intros [= <-]. destruct IH as (e' & Hin & He); [done|].
    exists e'. split; [by apply elem_of_cons; right | done].
  - destruct (parse_entry e) as [[k' v']|] eqn:E; [|done].
    case_decide; [|done]. intros [= <-]. subst.
    exists e. split; [by apply elem_of_cons; left | done].
Qed.

Lemma last_of_is_Some es e k v :
  e ∈ es → parse_entry e = Some (k, v) → is_Some (last_of es k).
Proof.
  induction es as [|e' rest IH]; simpl; intros Hin He.
  - by apply elem_of_nil in Hin.
  - apply elem_of_cons in Hin as [->|Hin].
    + destruct (last_of rest k); [done|].
      rewrite He. by rewrite decide_True.
    + destruct (IH Hin He) as [v' ->]. done.
Qed.

(** C9. Parsing is total: every string has a mapping. An entry that does
    not parse is dropped by itself, the mapping being the one of the
    well-formed entries alone; the key of every well-formed entry is in the
    mapping, bound as a well-formed entry of the string binds it; and the
    mapping holds nothing else. *)
Theorem parseOptions_drops_only_malformed (s e : string) (k : string) (v : Value) :
  parseOptions entries parse_entry s =
    foldl add ∅ (filter wf (entries s)) ∧
  (e ∈ entries s → parse_entry e = Some (k, v) →
     ∃ v', parseOptions entries parse_entry s !! k = Some v' ∧
           ∃ e', e' ∈ entries s ∧ parse_entry e' = Some (k, v')) ∧
  (parseOptions entries parse_entry s !! k = Some v →
     ∃ e', e' ∈ entries s ∧ parse_entry e' = Some (k, v)).
Proof.
  unfold parseOptions. split; [by rewrite foldl_add_filter|]. split.
  - intros Hin He. rewrite foldl_add_lookup.
    destruct (last_of_is_Some _ _ _ _ Hin He) as [v' Hv'].
    rewrite Hv'. exists v'. split; [done|]. by apply last_of_Some.
  - rewrite foldl_add_lookup, lookup_empty.
    destruct (last_of (entries s) k) as [v'|] eqn:E; [|done].
    intros [= <-]. by apply last_of_Some.
Qed.

End Facts.

Example parseOptions_example :
  parseOptions comma_entries colon_entry "target:#dlg,oops,:x,modal:true"
  = {[ "target" := "#dlg"; "modal" := "true" ]}.
Proof. by vm_compute. Qed.

Lemma parseOptions_drops_only_malformed_witness :
  ∃ v', parseOptions comma_entries colon_entry "target:#dlg,oops,modal:true"
          !! "target" = Some v' ∧
        ∃ e', e' ∈ comma_entries "target:#dlg,oops,modal:true" ∧
              colon_entry e' = Some ("target", v').
Proof.
  apply (proj1 (proj2 (parseOptions_drops_only_malformed comma_entries colon_entry
            "target:#dlg,oops,modal:true" "target:#dlg" "target" "#dlg"))).
  - apply (bool_decide_unpack _). by vm_compute.
  - reflexivity.
Defined.

End OptionsFacts.

(** ** The declarative trigger *)

Module TriggerFacts.
Import Trigger.

Section Facts.
Variable parseOptions : string → gmap string string.
Variable dom : option string → list nat.

Abbreviation click := (on_click parseOptions dom).
Abbreviation clicks := (on_clicks parseOptions dom).
Abbreviation target := (target_of parseOptions dom).
Abbreviation key := ("mdui.dialog"%string).

Lemma consistent_init : consistent init.
Proof. split; intros ? ?; simpl; [by rewrite lookup_empty | done]. Qed.

(** One controller per node. *)
Lemma consistent_NoDup s : consistent s → NoDup (ctl_node <$> constructed s).
Proof.
  intros [_ H2]. apply NoDup_alt. intros i j n Hi Hj.
  apply list_lookup_fmap_Some in Hi as (ci & -> & Hci).
  apply list_lookup_fmap_Some in Hj as (cj & Heq & Hcj).
  pose proof (H2 _ _ Hci) as Ei. pose proof (H2 _ _ Hcj) as Ej.
  rewrite <- Heq in Ej. congruence.
Qed.

(** An activation when the node has a controller: it is used again. *)
Lemma click_reuse a s n inst :
  target a = Some n → getData n key s = Some inst →
  click a s = Some (call_open inst s).
Proof.
  unfold target_of, on_click. intros -> Hg. by rewrite Hg.
Qed.

(** An activation when the node has none: one is built from the options
    without their [target], stored under the node, and opened. *)
Lemma click_first a s n :
  target a = Some n → getData n key s = None →
  click a s =
    Some {| store := <[(n, key) := length (constructed s)]> (store s);
            constructed := constructed s ++
              [{| ctl_node := n; ctl_options := delete "target" (parseOptions a) |}];
            openCalls := openCalls s ++ [length (constructed s)] |}.
Proof.
  unfold target_of, on_click. intros -> Hg. by rewrite Hg.
Qed.

Lemma click_step a s n :
  consistent s → target a = Some n →
  ∃ s' inst, click a s = Some s' ∧ consistent s' ∧
    openCalls s' = openCalls s ++ [inst] ∧
    store s' !! (n, key) = Some inst ∧
    (∀ k i, store s !! k = Some i → store s' !! k = Some i).
Proof.
  intros [H1 H2] Ht.
  destruct (getData n key s) as [inst|] eqn:Hg.
  - exists (call_open inst s), inst. rewrite (click_reuse _ _ _ _ Ht Hg).
    repeat split; [exact H1 | exact H2 | done..].
  - eexists _, _. rewrite (click_first _ _ _ Ht Hg).
    unfold getData in Hg.
    split; [done|]. split; [|split; [done|split; [by simpl; rewrite lookup_insert_eq|]]].
    + split; simpl.
      * intros m i Hm. destruct (decide (m = n)) as [->|Hne].
        -- rewrite lookup_insert_eq in Hm. injection Hm as <-.
           eexists. split; [by rewrite lookup_app_r, Nat.sub_diag|done].
        -- rewrite lookup_insert_ne in Hm by congruence.
           destruct (H1 _ _ Hm) as (c & Hc & Hn). exists c.
           split; [|done]. by apply lookup_app_l_Some.
      * intros i c Hc. apply lookup_app_Some in Hc as [Hc|[Hlen Hc]].
        -- pose proof (H2 _ _ Hc) as Hs.
           rewrite lookup_insert_ne; [done|]. intros [= Heq]. congruence.
        -- destruct (i - length (constructed s)) as [|j] eqn:E; [|done].
           injection Hc as <-. simpl. rewrite lookup_insert_eq. f_equal. lia.
    + simpl. intros k i Hk. rewrite lookup_insert_ne; [done|]. congruence.
Qed.

Lemma clicks_from attrs : ∀ s,
  consistent s → Forall (λ a, is_Some (target a)) attrs →
  ∃ s' calls, clicks attrs s = Some s' ∧ consistent s' ∧
    openCalls s' = openCalls s ++ calls ∧ length calls = length attrs ∧
    (∀ k i, store s !! k = Some i → store s' !! k = Some i) ∧
    (∀ i a n, attrs !! i = Some a → target a = Some n →
       ∃ inst, calls !! i = Some inst ∧ store s' !! (n, key) = Some inst).
Proof.
  induction attrs as [|a rest IH]; intros s Hc Hall.
  - exists s, []. simpl. rewrite app_nil_r.
    do 5 (split; [done|]). by intros i a n.
  - apply Forall_cons in Hall as [[n Hn] Hall].
    destruct (click_step a s n Hc Hn) as (s1 & inst & Hs1 & Hc1 & Ho1 & Hst1 & Hmono1).
    destruct (IH s1 Hc1 Hall) as (s2 & calls & Hs2 & Hc2 & Ho2 & Hlen & Hmono2 & Hcalls).
    exists s2, (inst :: calls). simpl. rewrite Hs1.
    split; [done|]. split; [done|].
    split; [by rewrite Ho2, Ho1, <- app_assoc|].
    split; [by rewrite Hlen|]. split; [by auto|].
    intros [|i] a' n' Ha' Hn'; simpl in *.
    + injection Ha' as <-. assert (n' = n) as -> by congruence.
      exists inst. split; [done|]. by apply Hmono2.
    + by eapply Hcalls.
Qed.

(** C7. Every click on an element with the trigger attribute whose target
    resolves to a node calls [open] on the controller stored for that node
    in the Node Data Store; the controller is built at the first activation
    of the node and stored under it, the later activations use the stored
    one again, and no node ever gets a second controller. *)
Theorem trigger_builds_once_opens_each_time (attrs : list string) :
  Forall (λ a, is_Some (target a)) attrs →
  ∃ s, clicks attrs init = Some s ∧
    length (openCalls s) = length attrs ∧
    (∀ i a n, attrs !! i = Some a → target a = Some n →
       ∃ inst c, openCalls s !! i = Some inst ∧
         getData n key s = Some inst ∧
         constructed s !! inst = Some c ∧ ctl_node c = n) ∧
    NoDup (ctl_node <$> constructed s) ∧
    (∀ a s0 n, target a = Some n →
       match getData n key s0 with
       | Some inst => click a s0 = Some (call_open inst s0)
       | None =>
           ∃ s1, click a s0 = Some s1 ∧
             constructed s1 = constructed s0 ++
               [{| ctl_node := n; ctl_options := delete "target" (parseOptions a) |}] ∧
             getData n key s1 = Some (length (constructed s0)) ∧
             openCalls s1 = openCalls s0 ++ [length (constructed s0)]
       end).
Proof.
  intros Hall.
  destruct (clicks_from attrs init consistent_init Hall)
    as (s & calls & Hs & Hc & Ho & Hlen & _ & Hcalls).
  simpl in Ho. exists s. split; [done|]. split; [by rewrite Ho|].
  split; [|split; [by apply consistent_NoDup|]].
  - intros i a n Ha Hn. destruct (Hcalls i a n Ha Hn) as (inst & Hi & Hst).
    destruct Hc as [H1 _]. destruct (H1 _ _ Hst) as (c & Hcc & Hcn).
    exists inst, c. by rewrite Ho.
  - intros a s0 n Hn. destruct (getData n key s0) as [inst|] eqn:Hg.
    + by apply click_reuse with n.
    + eexists. rewrite (click_first _ _ _ Hn Hg). split; [done|].
      split; [done|]. split; [|done].
      unfold getData. simpl. by rewrite lookup_insert_eq.
Qed.

End Facts.

Example trigger_example :
  (λ s, (openCalls s, ctl_node <$> constructed s)) <$>
    on_clicks (Options.parseOptions Options.comma_entries Options.colon_entry)
      demo_dom ["target:#a"; "target:#b,modal:true"; "target:#a"]%string init
  = Some ([0; 1; 0], [10; 20]).
Proof. by vm_compute. Qed.

Lemma trigger_builds_once_opens_each_time_witness :
  ∃ s, on_clicks (Options.parseOptions Options.comma_entries Options.colon_entry)
         demo_dom ["target:#a"; "target:#b,modal:true"; "target:#a"]%string init
       = Some s ∧ length (openCalls s) = 3.
Proof.
  destruct (trigger_builds_once_opens_each_time
              (Options.parseOptions Options.comma_entries Options.colon_entry)
              demo_dom ["target:#a"; "target:#b,modal:true"; "target:#a"]%string)
    as (s & Hs & Hlen & _).
  - apply (bool_decide_unpack _). by vm_compute.
  - exists s. split; [exact Hs | exact Hlen].
Defined.

End TriggerFacts.

(** ** The Dialog component *)

Module DialogFacts.
Import Dialog.

#[local] Arguments stop_each : simpl never.
#[local] Arguments animate_children : simpl never.
#[local] Arguments lockScreen : simpl never.
#[local] Arguments unlockScreen : simpl never.
#[local] Arguments run : simpl never.
#[local] Arguments onOpenChange : simpl never.
#[local] Arguments set_open : simpl never.
#[local] Arguments resume : simpl never.
#[local] Arguments dispatch_keydown : simpl never.
#[local] Arguments focus_is_function : simpl never.
#[local] Arguments run_open : simpl never.
#[local] Arguments run_open_animate : simpl never.
#[local] Arguments run_open_finish : simpl never.
#[local] Arguments run_close : simpl never.
#[local] Arguments run_close_animate : simpl never.
#[local] Arguments run_close_finish : simpl never.
#[local] Arguments focus_callback : simpl never.
#[local] Arguments open_animations : simpl never.
#[local] Arguments close_animations : simpl never.

(** *** The folds over the animated elements *)

Lemma with_anims_same x : with_anims (anims x) x = x.
Proof. by destruct x. Qed.

Lemma filter_all {A} (P : A → Prop) `{!∀ a, Decision (P a)} (l : list A) :
  (∀ a, a ∈ l → P a) → filter P l = l.
Proof.
  induction l as [|a l IH]; intros Hall; [done|].
  rewrite filter_cons_True by (apply Hall; by left).
  rewrite IH; [done|]. intros b Hb. apply Hall. by right.
Qed.

Lemma filter_none {A} (P : A → Prop) `{!∀ a, Decision (P a)} (l : list A) :
  (∀ a, a ∈ l → ¬ P a) → filter P l = [].
Proof.
  induction l as [|a l IH]; intros Hall; [done|].
  rewrite filter_cons_False by (apply Hall; by left).
  apply IH. intros b Hb. apply Hall. by right.
Qed.

Lemma stop_each_eq d ps w :
  stop_each d ps w =
    {| dialogs :=
         alter (λ y, with_anims (filter (λ a, an_part a ∉ ps) (anims y)) y) d (dialogs w);
       activeElement := activeElement w; activeModals := activeModals w;
       lockCount := lockCount w; lockOwners := lockOwners w;
       frames := frames w; timers := timers w;
       log := log w ++ (animations_stopped d <$> ps); nextRun := nextRun w |}.
Proof.
  revert w. induction ps as [|p ps IH]; intros w.
  - destruct w as [ds ? ? ? ? ? ? l ?]. unfold stop_each. simpl. f_equal.
    + symmetry. apply alter_id. intros x _.
      rewrite filter_all; [apply with_anims_same|].
      intros a _. apply not_elem_of_nil.
    + by rewrite app_nil_r.
  - unfold stop_each in *. simpl. rewrite IH. unfold stopAnimations. simpl.
    f_equal.
    + rewrite alter_alter_eq. apply alter_ext. intros x _.
      unfold with_anims. simpl. f_equal.
      rewrite list_filter_filter. apply list_filter_iff.
      intros a. rewrite not_elem_of_cons. tauto.
    + by rewrite <- app_assoc.
Qed.

Lemma animate_children_eq d k r kids w :
  animate_children d k r kids w =
    {| dialogs :=
         alter (λ y, with_anims (anims y ++
                  ((λ i, {| an_part := child i; an_keyframes := k; an_run := r |}) <$> kids)) y)
               d (dialogs w);
       activeElement := activeElement w; activeModals := activeModals w;
       lockCount := lockCount w; lockOwners := lockOwners w;
       frames := frames w; timers := timers w;
       log := log w ++ ((λ i, animation_started d
                {| an_part := child i; an_keyframes := k; an_run := r |}) <$> kids);
       nextRun := nextRun w |}.
Proof.
  revert w. induction kids as [|i kids IH]; intros w.
  - destruct w as [ds ? ? ? ? ? ? l ?]. unfold animate_children. simpl. f_equal.
    + symmetry. apply alter_id. intros x _. rewrite app_nil_r. apply with_anims_same.
    + by rewrite app_nil_r.
  - unfold animate_children in *. simpl. rewrite IH. unfold animateTo. simpl.
    f_equal.
    + rewrite alter_alter_eq. apply alter_ext. intros x _.
      unfold with_anims. simpl. f_equal. by rewrite <- app_assoc.
    + by rewrite <- app_assoc.
Qed.

(** *** Reading a dialog after an update *)

Lemma lookup_update d f w :
  dialogs (update d f w) !! d = f <$> dialogs w !! d.
Proof. apply lookup_alter_eq. Qed.

Lemma lookup_update_ne d d' f w :
  d ≠ d' → dialogs (update d f w) !! d' = dialogs w !! d'.
Proof. apply lookup_alter_ne. Qed.

(** *** What a transition leaves alone *)

Lemma extends_refl w : extends w w.
Proof. exists []. by rewrite app_nil_r. Qed.

Lemma extends_trans w1 w2 w3 : extends w1 w2 → extends w2 w3 → extends w1 w3.
Proof. intros [l1 H1] [l2 H2]. exists (l1 ++ l2). by rewrite H2, H1, app_assoc. Qed.

Lemma same_props_refl y : same_props y y.
Proof. by repeat split. Qed.

Lemma keeps_props_refl w : keeps_props w w.
Proof. intros d y Hy. exists y. split; [done|]. split; [done|apply same_props_refl]. Qed.

Lemma keeps_props_trans w1 w2 w3 :
  keeps_props w1 w2 → keeps_props w2 w3 → keeps_props w1 w3.
Proof.
  intros H12 H23 d y Hy.
  destruct (H12 d y Hy) as (y2 & Hy2 & Ho2 & Hp2).
  destruct (H23 d y2 Hy2) as (y3 & Hy3 & Ho3 & Hp3).
  exists y3. split; [done|]. split; [congruence|].
  unfold same_props in *. destruct Hp2 as (?&?&?&?&?&?&?&?).
  destruct Hp3 as (?&?&?&?&?&?&?&?). repeat split; congruence.
Qed.

(** An update of the fields a transition writes. *)
Lemma keeps_props_update d f w :
  (∀ y, open (f y) = open y ∧ same_props y (f y)) → keeps_props w (update d f w).
Proof.
  intros Hf d0 y Hy. simpl. rewrite lookup_alter. case_decide.
  - subst. rewrite Hy. simpl. exists (f y). split; [done|]. apply Hf.
  - exists y. split; [done|]. split; [done|apply same_props_refl].
Qed.

(** Steps that only touch what the dialogs share. *)
Lemma keeps_props_shared w w' :
  dialogs w' = dialogs w → keeps_props w w'.
Proof. intros E d y Hy. rewrite E. by apply keeps_props_refl. Qed.

Lemma keeps_props_record a w0 w : keeps_props w0 w → keeps_props w0 (record a w).
Proof. intros H. eapply keeps_props_trans; [exact H|]. by apply keeps_props_shared. Qed.

Lemma keeps_props_with_activeElement t w0 w :
  keeps_props w0 w → keeps_props w0 (with_activeElement t w).
Proof. intros H. eapply keeps_props_trans; [exact H|]. by apply keeps_props_shared. Qed.

Lemma keeps_props_with_activeModals l w0 w :
  keeps_props w0 w → keeps_props w0 (with_activeModals l w).
Proof. intros H. eapply keeps_props_trans; [exact H|]. by apply keeps_props_shared. Qed.

Lemma keeps_props_with_lock n o w0 w :
  keeps_props w0 w → keeps_props w0 (with_lock n o w).
Proof. intros H. eapply keeps_props_trans; [exact H|]. by apply keeps_props_shared. Qed.

Lemma keeps_props_with_frames l w0 w :
  keeps_props w0 w → keeps_props w0 (with_frames l w).
Proof. intros H. eapply keeps_props_trans; [exact H|]. by apply keeps_props_shared. Qed.

Lemma keeps_props_with_timers l w0 w :
  keeps_props w0 w → keeps_props w0 (with_timers l w).
Proof. intros H. eapply keeps_props_trans; [exact H|]. by apply keeps_props_shared. Qed.

Lemma keeps_props_with_nextRun n w0 w :
  keeps_props w0 w → keeps_props w0 (with_nextRun n w).
Proof. intros H. eapply keeps_props_trans; [exact H|]. by apply keeps_props_shared. Qed.

Lemma keeps_props_upd d f w0 w :
  (∀ y, open (f y) = open y ∧ same_props y (f y)) →
  keeps_props w0 w → keeps_props w0 (update d f w).
Proof. intros Hf H. eapply keeps_props_trans; [exact H|]. by apply keeps_props_update. Qed.

Lemma keeps_props_stop_each d ps w0 w :
  keeps_props w0 w → keeps_props w0 (stop_each d ps w).
Proof.
  intros H. eapply keeps_props_trans; [exact H|]. rewrite stop_each_eq.
  apply (keeps_props_update d (λ y, with_anims _ y)). intros y. by repeat split.
Qed.

Lemma keeps_props_animate_children d k r kids w0 w :
  keeps_props w0 w → keeps_props w0 (animate_children d k r kids w).
Proof.
  intros H. eapply keeps_props_trans; [exact H|]. rewrite animate_children_eq.
  apply (keeps_props_update d (λ y, with_anims _ y)). intros y. by repeat split.
Qed.

Lemma extends_record a w0 w : extends w0 w → extends w0 (record a w).
Proof. intros H. eapply extends_trans; [exact H|]. by exists [a]. Qed.

Lemma extends_same w0 w w' : log w' = log w → extends w0 w → extends w0 w'.
Proof. intros E [l H]. exists l. by rewrite E. Qed.

Lemma extends_update d f w0 w : extends w0 w → extends w0 (update d f w).
Proof. by apply extends_same. Qed.

Lemma extends_with_activeElement t w0 w :
  extends w0 w → extends w0 (with_activeElement t w).
Proof. by apply extends_same. Qed.

Lemma extends_with_activeModals l w0 w :
  extends w0 w → extends w0 (with_activeModals l w).
Proof. by apply extends_same. Qed.

Lemma extends_with_lock n o w0 w : extends w0 w → extends w0 (with_lock n o w).
Proof. by apply extends_same. Qed.

Lemma extends_with_frames l w0 w : extends w0 w → extends w0 (with_frames l w).
Proof. by apply extends_same. Qed.

Lemma extends_with_timers l w0 w : extends w0 w → extends w0 (with_timers l w).
Proof. by apply extends_same. Qed.

Lemma extends_with_nextRun n w0 w : extends w0 w → extends w0 (with_nextRun n w).
Proof. by apply extends_same. Qed.

Lemma extends_stop_each d ps w0 w : extends w0 w → extends w0 (stop_each d ps w).
Proof.
  intros H. eapply extends_trans; [exact H|]. rewrite stop_each_eq. by eexists.
Qed.

Lemma extends_animate_children d k r kids w0 w :
  extends w0 w → extends w0 (animate_children d k r kids w).
Proof.
  intros H. eapply extends_trans; [exact H|]. rewrite animate_children_eq. by eexists.
Qed.

(** The component code, opened up to the field updates. *)
Ltac open_code :=
  unfold run_open, run_open_animate, run_open_finish, run_close,
    run_close_animate, run_close_finish, emit, modal_activate, modal_deactivate,
    lockScreen, unlockScreen, stop_all, requestAnimationFrame, setTimeout,
    focus, animateTo, stopAnimations, suspend, focus_callback,
    connectedCallback, disconnectedCallback, animation_end.

Ltac split_code :=
  repeat first
    [ progress simpl
    | match goal with
      | |- context [if ?b then _ else _] => destruct b eqn:?
      | |- context [match ?o with Some _ => _ | None => _ end] => destruct o eqn:?
      end ].

Ltac keeps :=
  repeat match goal with
    | |- keeps_props ?w ?w => apply keeps_props_refl
    | |- keeps_props _ (record _ _) => apply keeps_props_record
    | |- keeps_props _ (with_activeElement _ _) => apply keeps_props_with_activeElement
    | |- keeps_props _ (with_activeModals _ _) => apply keeps_props_with_activeModals
    | |- keeps_props _ (with_lock _ _ _) => apply keeps_props_with_lock
    | |- keeps_props _ (with_frames _ _) => apply keeps_props_with_frames
    | |- keeps_props _ (with_timers _ _) => apply keeps_props_with_timers
    | |- keeps_props _ (with_nextRun _ _) => apply keeps_props_with_nextRun
    | |- keeps_props _ (stop_each _ _ _) => apply keeps_props_stop_each
    | |- keeps_props _ (animate_children _ _ _ _ _) => apply keeps_props_animate_children
    | |- keeps_props _ (update _ _ _) =>
        apply keeps_props_upd; [intros ?; by repeat split|]
    end.

Ltac grows :=
  repeat match goal with
    | |- extends ?w ?w => apply extends_refl
    | |- extends _ (record _ _) => apply extends_record
    | |- extends _ (stop_each _ _ _) => apply extends_stop_each
    | |- extends _ (animate_children _ _ _ _ _) => apply extends_animate_children
    | |- extends _ (update _ _ _) => apply extends_update
    | |- extends _ (with_activeElement _ _) => apply extends_with_activeElement
    | |- extends _ (with_activeModals _ _) => apply extends_with_activeModals
    | |- extends _ (with_lock _ _ _) => apply extends_with_lock
    | |- extends _ (with_frames _ _) => apply extends_with_frames
    | |- extends _ (with_timers _ _) => apply extends_with_timers
    | |- extends _ (with_nextRun _ _) => apply extends_with_nextRun
    end.

Lemma keeps_props_run d w0 w : keeps_props w0 w → keeps_props w0 (run d w).
Proof. intros H. unfold run. open_code. split_code; keeps; done. Qed.

Lemma extends_run d w0 w : extends w0 w → extends w0 (run d w).
Proof. intros H. unfold run. open_code. split_code; grows; done. Qed.

Lemma acts_on_refl d w : acts_on d w w.
Proof. by repeat split. Qed.

Lemma acts_on_trans d w1 w2 w3 : acts_on d w1 w2 → acts_on d w2 w3 → acts_on d w1 w3.
Proof.
  intros (A1 & B1 & C1) (A2 & B2 & C2).
  split; [|split]; intros d' Hne.
  - by rewrite A2, A1.
  - etrans; [by apply B2 | by apply B1].
  - etrans; [by apply C2 | by apply C1].
Qed.

Lemma acts_on_shared d w0 w w' :
  dialogs w' = dialogs w → activeModals w' = activeModals w →
  lockOwners w' = lockOwners w → acts_on d w0 w → acts_on d w0 w'.
Proof.
  intros E1 E2 E3 H. eapply acts_on_trans; [exact H|].
  unfold acts_on. rewrite E1, E2, E3. by repeat split.
Qed.

Lemma acts_on_record d a w0 w : acts_on d w0 w → acts_on d w0 (record a w).
Proof. by apply acts_on_shared. Qed.

Lemma acts_on_with_activeElement d t w0 w :
  acts_on d w0 w → acts_on d w0 (with_activeElement t w).
Proof. by apply acts_on_shared. Qed.

Lemma acts_on_with_frames d l w0 w : acts_on d w0 w → acts_on d w0 (with_frames l w).
Proof. by apply acts_on_shared. Qed.

Lemma acts_on_with_timers d l w0 w : acts_on d w0 w → acts_on d w0 (with_timers l w).
Proof. by apply acts_on_shared. Qed.

Lemma acts_on_with_nextRun d n w0 w : acts_on d w0 w → acts_on d w0 (with_nextRun n w).
Proof. by apply acts_on_shared. Qed.

Lemma acts_on_update d f w0 w : acts_on d w0 w → acts_on d w0 (update d f w).
Proof.
  intros H. eapply acts_on_trans; [exact H|]. repeat split; try done.
  intros d' Hne. simpl. by rewrite lookup_alter_ne.
Qed.

Lemma acts_on_modal_activate d w0 w :
  acts_on d w0 w → acts_on d w0 (modal_activate d w).
Proof.
  intros H. eapply acts_on_trans; [exact H|]. repeat split; try done; simpl.
  - intros Hin. apply elem_of_app in Hin as [Hin|Hin]; [done|].
    apply list_elem_of_singleton in Hin. congruence.
  - intros Hin. apply elem_of_app. by left.
Qed.

Lemma acts_on_modal_deactivate d w0 w :
  acts_on d w0 w → acts_on d w0 (modal_deactivate d w).
Proof.
  intros H. eapply acts_on_trans; [exact H|]. repeat split; try done; simpl.
  - intros Hin. by apply list_elem_of_filter in Hin as [_ Hin].
  - intros Hin. by apply list_elem_of_filter.
Qed.

Lemma acts_on_lockScreen d w0 w : acts_on d w0 w → acts_on d w0 (lockScreen d w).
Proof.
  intros H. eapply acts_on_trans; [exact H|]. unfold lockScreen.
  case_decide; [apply acts_on_refl|].
  split; [done|]. split; [done|]. intros d' Hne. simpl. set_solver.
Qed.

Lemma acts_on_unlockScreen d w0 w : acts_on d w0 w → acts_on d w0 (unlockScreen d w).
Proof.
  intros H. eapply acts_on_trans; [exact H|]. unfold unlockScreen.
  case_decide; [|apply acts_on_refl].
  split; [done|]. split; [done|]. intros d' Hne. simpl. set_solver.
Qed.

Lemma acts_on_stop_each d ps w0 w : acts_on d w0 w → acts_on d w0 (stop_each d ps w).
Proof.
  intros H. eapply acts_on_trans; [exact H|]. rewrite stop_each_eq.
  repeat split; try done. intros d' Hne. simpl. by rewrite lookup_alter_ne.
Qed.

Lemma acts_on_animate_children d k r kids w0 w :
  acts_on d w0 w → acts_on d w0 (animate_children d k r kids w).
Proof.
  intros H. eapply acts_on_trans; [exact H|]. rewrite animate_children_eq.
  repeat split; try done. intros d' Hne. simpl. by rewrite lookup_alter_ne.
Qed.

(** The code opened up to the helpers that touch what the dialogs share. *)
Ltac open_segments :=
  unfold run_open, run_open_animate, run_open_finish, run_close,
    run_close_animate, run_close_finish, emit, stop_all,
    requestAnimationFrame, setTimeout, focus, animateTo, stopAnimations,
    suspend, focus_callback, connectedCallback, disconnectedCallback,
    animation_end.

Ltac acts :=
  repeat match goal with
    | |- acts_on _ ?w ?w => apply acts_on_refl
    | |- acts_on _ _ (update _ _ _) => apply acts_on_update
    | |- acts_on _ _ (modal_activate _ _) => apply acts_on_modal_activate
    | |- acts_on _ _ (modal_deactivate _ _) => apply acts_on_modal_deactivate
    | |- acts_on _ _ (lockScreen _ _) => apply acts_on_lockScreen
    | |- acts_on _ _ (unlockScreen _ _) => apply acts_on_unlockScreen
    | |- acts_on _ _ (stop_each _ _ _) => apply acts_on_stop_each
    | |- acts_on _ _ (animate_children _ _ _ _ _) => apply acts_on_animate_children
    | |- acts_on _ _ (record _ _) => apply acts_on_record
    | |- acts_on _ _ (with_activeElement _ _) => apply acts_on_with_activeElement
    | |- acts_on _ _ (with_frames _ _) => apply acts_on_with_frames
    | |- acts_on _ _ (with_timers _ _) => apply acts_on_with_timers
    | |- acts_on _ _ (with_nextRun _ _) => apply acts_on_with_nextRun
    end.

Lemma acts_on_run d w0 w : acts_on d w0 w → acts_on d w0 (run d w).
Proof. intros H. unfold run. open_segments. split_code; acts; done. Qed.

Lemma keeps_props_onOpenChange d w0 w :
  keeps_props w0 w → keeps_props w0 (onOpenChange d w).
Proof.
  intros H. unfold onOpenChange. open_code.
  split_code; first [by apply keeps_props_run | keeps; done].
Qed.

Lemma extends_onOpenChange d w0 w : extends w0 w → extends w0 (onOpenChange d w).
Proof.
  intros H. unfold onOpenChange. open_code.
  split_code; first [by apply extends_run | grows; done].
Qed.

Lemma acts_on_onOpenChange d w0 w : acts_on d w0 w → acts_on d w0 (onOpenChange d w).
Proof.
  intros H. unfold onOpenChange. open_segments.
  split_code; first [by apply acts_on_run | acts; done].
Qed.

Lemma extends_set_open d b w0 w : extends w0 w → extends w0 (set_open d b w).
Proof.
  intros H. unfold set_open. split_code; try done.
  apply extends_onOpenChange. by apply extends_update.
Qed.

Lemma acts_on_set_open d b w0 w : acts_on d w0 w → acts_on d w0 (set_open d b w).
Proof.
  intros H. unfold set_open. split_code; try done.
  apply acts_on_onOpenChange. by apply acts_on_update.
Qed.

(** After [this.open = b] the property is [b]; the other properties of the
    dialog are what they were. *)
Lemma set_open_lookup d b w x :
  dialogs w !! d = Some x →
  ∃ x', dialogs (set_open d b w) !! d = Some x' ∧ open x' = b ∧ same_props x x'.
Proof.
  intros Hx. unfold set_open. rewrite Hx. case_bool_decide as Hb.
  - exists x. split; [done|]. split; [done|apply same_props_refl].
  - destruct (keeps_props_onOpenChange d (update d (with_open b) w)
                (update d (with_open b) w) (keeps_props_refl _) d (with_open b x))
      as (x' & Hx' & Ho & Hp).
    + by rewrite lookup_update, Hx.
    + exists x'. split; [done|]. split; [done|].
      unfold same_props in *. simpl in Hp. exact Hp.
Qed.

(** *** C1: a prevented open *)

(** C1. When a listener prevents the cancelable [open] event of an inactive
    dialog whose [open] property is set, the transition stops right after
    the event: the dialog is still inactive, the scroll-lock counter and its
    owners are what they were, the focus has not moved and no move is
    queued, no animation was started, the stack is unchanged; the only
    effect is the emitted event. This holds when the dialog has been
    rendered, and also when the change waits for the first update. *)
Theorem prevented_open_has_no_effect (w w' : World) (d : nat) (x : Dialog) :
  dialogs w !! d = Some x → open x = false → prevents x ev_open = true →
  inactive w d →
  (if hasUpdated x then w' = set_open d true w
   else w' = steps [FirstUpdate d; Resume d 0] (set_open d true w)) →
  inactive w' d ∧
  log w' = log w ++ [emitted d ev_open] ∧
  lockCount w' = lockCount w ∧ lockOwners w' = lockOwners w ∧
  activeModals w' = activeModals w ∧
  activeElement w' = activeElement w ∧
  frames w' = frames w ∧ timers w' = timers w ∧
  (∀ d', d' ≠ d → dialogs w' !! d' = dialogs w !! d') ∧
  dialogs w' !! d = Some (with_hasUpdated true (with_open true x)).
Proof.
  intros Hx Hopen Hprev (x0 & Hx0 & Hdisp & Hanims & Hconts & Hmod & Hown) Hw'.
  assert (x0 = x) as -> by congruence.
  assert (dialogs w' !! d = Some (with_hasUpdated true (with_open true x)) ∧
          (∀ d', d' ≠ d → dialogs w' !! d' = dialogs w !! d') ∧
          log w' = log w ++ [emitted d ev_open] ∧
          lockCount w' = lockCount w ∧ lockOwners w' = lockOwners w ∧
          activeModals w' = activeModals w ∧ activeElement w' = activeElement w ∧
          frames w' = frames w ∧ timers w' = timers w) as Hall.
  { destruct (hasUpdated x) eqn:Hup; subst w'.
    - unfold set_open. rewrite Hx, Hopen. simpl.
      unfold onOpenChange. rewrite lookup_update, Hx. simpl. rewrite Hup.
      unfold run. rewrite lookup_update, Hx. simpl.
      unfold run_open, emit. simpl. rewrite Hprev. simpl.
      rewrite lookup_alter_eq, Hx. simpl.
      split; [|split; [intros d' Hne; by rewrite lookup_alter_ne|done]].
      f_equal. destruct x; simpl in *; by subst.
    - unfold steps. simpl. unfold set_open. rewrite Hx, Hopen. simpl.
      unfold onOpenChange. rewrite lookup_update, Hx. simpl. rewrite Hup.
      unfold resume. simpl. rewrite !lookup_alter_eq, Hx. simpl.
      rewrite Hconts. simpl.
      unfold run. simpl. rewrite !lookup_alter_eq, Hx. simpl.
      unfold run_open, emit. simpl. rewrite Hprev. simpl.
      rewrite !lookup_alter_eq, Hx. simpl.
      split; [|split; [intros d' Hne; by rewrite !lookup_alter_ne|done]].
      f_equal. destruct x; simpl in *; by subst. }
  destruct Hall as (Hd & Hothers & Hlog & Hcnt & Howners & Hmodals & Hae & Hfr & Htm).
  split; [|by repeat split].
  exists (with_hasUpdated true (with_open true x)). simpl.
  rewrite Hmodals, Howners. by repeat split.
Qed.

Lemma prevented_open_has_no_effect_witness :
  inactive (set_open 1 true guarded_page) 1 ∧
  log (set_open 1 true guarded_page) = log guarded_page ++ [emitted 1 ev_open] ∧
  lockCount (set_open 1 true guarded_page) = lockCount guarded_page.
Proof.
  destruct (prevented_open_has_no_effect guarded_page (set_open 1 true guarded_page)
              1 (rendered_dialog prevent_open))
    as (H1 & H2 & H3 & _).
  - reflexivity.
  - reflexivity.
  - reflexivity.
  - exists (rendered_dialog prevent_open).
    split; [reflexivity|]. split; [discriminate|]. split; [reflexivity|].
    split; [reflexivity|]. split; [apply not_elem_of_nil | apply not_elem_of_empty].
  - reflexivity.
  - exact (conj H1 (conj H2 H3)).
Defined.

(** *** C10: a click on the overlay *)

(** C10. A click on the overlay of a dialog always emits [overlay-click],
    whatever [closeOnOverlayClick] is; the [open] property is set to
    [false] exactly when [closeOnOverlayClick] is set, and when it is not
    set the click leaves the dialog and the page as they were, the emitted
    event apart. *)
Theorem overlay_click_closes_iff_enabled (w : World) (d : nat) (x : Dialog) :
  dialogs w !! d = Some x →
  (∃ l, log (onOverlayClick d w) = log w ++ emitted d ev_overlay_click :: l) ∧
  onOverlayClick d w =
    (if closeOnOverlayClick x
     then set_open d false (record (emitted d ev_overlay_click) w)
     else record (emitted d ev_overlay_click) w) ∧
  (∃ x', dialogs (onOverlayClick d w) !! d = Some x' ∧
         open x' = open x && negb (closeOnOverlayClick x)) ∧
  (closeOnOverlayClick x = false →
     dialogs (onOverlayClick d w) = dialogs w ∧
     activeModals (onOverlayClick d w) = activeModals w ∧
     lockCount (onOverlayClick d w) = lockCount w ∧
     lockOwners (onOverlayClick d w) = lockOwners w ∧
     activeElement (onOverlayClick d w) = activeElement w ∧
     frames (onOverlayClick d w) = frames w ∧
     timers (onOverlayClick d w) = timers w).
Proof.
  intros Hx. unfold onOverlayClick, emit. rewrite Hx. simpl.
  destruct (closeOnOverlayClick x) eqn:Hc; simpl.
  - split; [|split; [done|split; [|done]]].
    + destruct (extends_set_open d false (record (emitted d ev_overlay_click) w)
                  (record (emitted d ev_overlay_click) w) (extends_refl _)) as [l Hl].
      exists l. rewrite Hl. simpl. by rewrite <- app_assoc.
    + destruct (set_open_lookup d false (record (emitted d ev_overlay_click) w) x Hx)
        as (x' & Hx' & Ho & _).
      exists x'. split; [done|]. by rewrite Ho, andb_false_r.
  - split; [by exists []|]. split; [done|]. split; [|done].
    exists x. split; [done|]. by rewrite andb_true_r.
Qed.

Lemma overlay_click_closes_iff_enabled_witness :
  ∃ l, log (onOverlayClick 1 demo_page)
       = log demo_page ++ emitted 1 ev_overlay_click :: l.
Proof.
  apply (proj1 (overlay_click_closes_iff_enabled demo_page 1
                  (rendered_dialog no_listener) eq_refl)).
Defined.

(** *** C3: the Escape key *)

(** The listeners of one dialog: the first one that finds the dialog open
    closes it, the others then find it closed. *)
Lemma keydown_listeners_run n d key w :
  Nat.iter n (keydown_listener d key) (false, w) =
    if bool_decide (0 < n) &&
       match dialogs w !! d with
       | Some x => open x && closeOnEsc x && bool_decide (key = "Escape")
       | None => false
       end
    then (true, set_open d false (record (propagation_stopped d) w))
    else (false, w).
Proof.
  induction n as [|n IH]; [done|].
  rewrite Nat.iter_succ, IH. clear IH.
  rewrite (bool_decide_true (0 < S n)) by lia. simpl.
  destruct (dialogs w !! d) as [x|] eqn:Hx.
  - destruct (open x && closeOnEsc x && bool_decide (key = "Escape")) eqn:Hc.
    + destruct n as [|n].
      * simpl. unfold keydown_listener. simpl. by rewrite Hx, Hc.
      * rewrite (bool_decide_true (0 < S n)) by lia. simpl.
        unfold keydown_listener. simpl.
        destruct (set_open_lookup d false (record (propagation_stopped d) w) x Hx)
          as (x' & Hx' & Ho & _).
        by rewrite Hx', Ho.
    + rewrite andb_false_r. unfold keydown_listener. simpl. by rewrite Hx, Hc.
  - rewrite andb_false_r. unfold keydown_listener. simpl. by rewrite Hx.
Qed.

Lemma dispatch_keydown_cons key d outer w :
  dispatch_keydown key (d :: outer) w =
    if reacts key w d
    then set_open d false (record (propagation_stopped d) w)
    else dispatch_keydown key outer w.
Proof.
  unfold dispatch_keydown at 1. fold dispatch_keydown.
  rewrite keydown_listeners_run. unfold reacts, listeners_on.
  destruct (dialogs w !! d) as [x|]; [|by rewrite andb_false_r].
  rewrite andb_comm.
  by destruct (open x && closeOnEsc x && bool_decide (key = "Escape")),
       (bool_decide (0 < keydownListeners x)).
Qed.

Lemma dispatch_keydown_find key path w :
  dispatch_keydown key path w =
    match find (reacts key w) path with
    | Some d => set_open d false (record (propagation_stopped d) w)
    | None => w
    end.
Proof.
  induction path as [|d outer IH]; [done|].
  rewrite dispatch_keydown_cons. simpl. by destruct (reacts key w d).
Qed.

(** C3, as the code has it. A keydown closes at most one dialog: the first
    one on its propagation path, from the target outwards, that has a
    listener, is open, closes on Escape and sees the Escape key; its
    listener stops the propagation, so no dialog further out hears the
    event, and no dialog off the path does. The stack is not consulted. So
    when the event starts in the topmost of two stacked dialogs that both
    close on Escape, only the topmost gets the close intent, and the lower
    one keeps its state, its place on the stack and its unit of the scroll
    lock. *)
Theorem escape_closes_first_on_path (key : string) (path rest : list nat)
    (w : World) (hi lo : nat) :
  dispatch_keydown key path w =
    match find (reacts key w) path with
    | Some d => set_open d false (record (propagation_stopped d) w)
    | None => w
    end ∧
  (reacts key w hi = true → lo ≠ hi →
     dialogs (dispatch_keydown key (hi :: rest) w) !! lo = dialogs w !! lo ∧
     (lo ∈ activeModals (dispatch_keydown key (hi :: rest) w) ↔ lo ∈ activeModals w) ∧
     (lo ∈ lockOwners (dispatch_keydown key (hi :: rest) w) ↔ lo ∈ lockOwners w) ∧
     (active w lo → active (dispatch_keydown key (hi :: rest) w) lo) ∧
     ∃ x, dialogs (dispatch_keydown key (hi :: rest) w) !! hi = Some x ∧
          open x = false).
Proof.
  split; [apply dispatch_keydown_find|].
  intros Hr Hne. rewrite dispatch_keydown_cons, Hr.
  destruct (acts_on_set_open hi false (record (propagation_stopped hi) w)
              (record (propagation_stopped hi) w) (acts_on_refl _ _))
    as (Hd & Hm & Ho).
  split; [by rewrite Hd|]. split; [by apply Hm|]. split; [by apply Ho|].
  split.
  - intros (x & Hx & Hopen & Hdisp & Han & Hco & Hin).
    exists x. rewrite Hd by done. repeat split; try done. by apply Hm.
  - unfold reacts in Hr. destruct (dialogs w !! hi) as [x|] eqn:Hx; [|done].
    destruct (set_open_lookup hi false (record (propagation_stopped hi) w) x Hx)
      as (x' & Hx' & Hopen & _).
    by exists x'.
Qed.

Lemma escape_closes_first_on_path_witness :
  active (dispatch_keydown "Escape" [2; 1] stacked_page) 1 ∧
  ∃ x, dialogs (dispatch_keydown "Escape" [2; 1] stacked_page) !! 2 = Some x ∧
       open x = false.
Proof.
  destruct (proj2 (escape_closes_first_on_path "Escape" [2; 1] [1] stacked_page 2 1))
    as (_ & _ & _ & Hact & Hx).
  - by vm_compute.
  - discriminate.
  - split; [|exact Hx]. apply Hact.
    exists (shown_dialog (element button)).
    split; [by vm_compute|]. do 4 (split; [reflexivity|]).
    apply (bool_decide_unpack _). by vm_compute.
Defined.

(** C3, as the claim has it, fails: two stacked dialogs, both shown and both
    closing on Escape, dialog 2 topmost; an Escape keydown whose target is
    in dialog 1 (its path is dialog 1 alone) makes the lower dialog react:
    it stops the event and gets the close intent, and the topmost one stays
    as it was. *)
Lemma escape_reaches_lower_dialog :
  topmost stacked_page = Some 2 ∧
  active stacked_page 1 ∧ active stacked_page 2 ∧
  reacts "Escape" stacked_page 1 = true ∧ reacts "Escape" stacked_page 2 = true ∧
  (∃ x, dialogs (dispatch_keydown "Escape" [1] stacked_page) !! 1 = Some x ∧
        open x = false ∧ conts x = [close_await_stop]) ∧
  (1 ∉ activeModals (dispatch_keydown "Escape" [1] stacked_page)) ∧
  dialogs (dispatch_keydown "Escape" [1] stacked_page) !! 2 = dialogs stacked_page !! 2.
Proof.
  split; [by vm_compute|].
  split.
  { exists (shown_dialog (element button)).
    split; [by vm_compute|]. do 4 (split; [reflexivity|]).
    apply (bool_decide_unpack _). by vm_compute. }
  split.
  { exists (shown_dialog (panel_of 1)).
    split; [by vm_compute|]. do 4 (split; [reflexivity|]).
    apply (bool_decide_unpack _). by vm_compute. }
  split; [by vm_compute|]. split; [by vm_compute|].
  split.
  { exists (with_conts [close_await_stop]
              (with_open false (shown_dialog (element button)))).
    split; [by vm_compute|]. split; reflexivity. }
  split; [apply (bool_decide_unpack _); by vm_compute | by vm_compute].
Qed.

(** *** C4: the opening transition *)

(** The open branch up to its first [await], when the event is not
    prevented; [y] is the dialog as it is, [x] as [run] read it. *)
Lemma run_open_effect d x y w :
  dialogs w !! d = Some y → prevents x ev_open = false → d ∉ lockOwners w →
  log (run_open d x w) =
    log w ++ [emitted d ev_open] ++
    (if topAppBar x then [scroll_target_set d] else []) ++
    [display_set d display_flex; trigger_captured d (activeElement w);
     modal_activated d; scroll_lock_inc d] ++
    (animations_stopped d <$> parts x) ∧
  dialogs (run_open d x w) !! d =
    Some (with_conts (conts y ++ [open_await_stop])
            (with_anims (filter (λ a, an_part a ∉ parts x) (anims y))
               (with_originalTrigger (activeElement w)
                  (with_display display_flex y)))) ∧
  activeModals (run_open d x w) = activeModals w ++ [d] ∧
  lockCount (run_open d x w) = (lockCount w + 1)%Z ∧
  lockOwners (run_open d x w) = {[d]} ∪ lockOwners w ∧
  activeElement (run_open d x w) = activeElement w ∧
  frames (run_open d x w) = frames w ∧ timers (run_open d x w) = timers w ∧
  nextRun (run_open d x w) = nextRun w.
Proof.
  intros Hy Hp Hown. unfold run_open, emit, stop_all. rewrite Hp. simpl.
  rewrite stop_each_eq. unfold lockScreen, modal_activate.
  destruct (topAppBar x); simpl; rewrite decide_False by done; simpl;
    rewrite !lookup_alter_eq, Hy; simpl;
    (split; [by rewrite <- !app_assoc|done]).
Qed.

Lemma fmap_started d (f : nat → Anim) (l : list nat) :
  (λ i, animation_started d (f i)) <$> l = animation_started d <$> (f <$> l).
Proof. by rewrite <- list_fmap_compose. Qed.

(** After [stopAnimations]: the focus callback is queued first, then the
    animations are started. *)
Lemma run_open_animate_effect d x y w :
  dialogs w !! d = Some y →
  log (run_open_animate d x w) =
    log w ++ [frame_requested d] ++
    (animation_started d <$> open_animations x (nextRun w)) ∧
  dialogs (run_open_animate d x w) !! d =
    Some (with_conts (conts y ++ [open_await_animate (nextRun w)])
            (with_anims (anims y ++ open_animations x (nextRun w)) y)) ∧
  frames (run_open_animate d x w) = frames w ++ [d] ∧
  activeElement (run_open_animate d x w) = activeElement w ∧
  activeModals (run_open_animate d x w) = activeModals w ∧
  lockCount (run_open_animate d x w) = lockCount w ∧
  lockOwners (run_open_animate d x w) = lockOwners w ∧
  timers (run_open_animate d x w) = timers w ∧
  nextRun (run_open_animate d x w) = S (nextRun w).
Proof.
  intros Hy. unfold run_open_animate, requestAnimationFrame, animateTo, suspend.
  simpl. rewrite animate_children_eq. simpl.
  rewrite !lookup_alter_eq, Hy. simpl.
  split; [|split; [|done]].
  - rewrite <- !app_assoc. simpl. do 5 f_equal. apply fmap_started.
  - unfold open_animations, with_conts, with_anims. simpl.
    by rewrite <- !app_assoc.
Qed.

(** The close branch up to its first [await], when the event is not
    prevented: the overlay context leaves the stack before anything is
    animated. *)
Lemma run_close_effect d x y w :
  dialogs w !! d = Some y → prevents x ev_close = false →
  log (run_close d x w) =
    log w ++ [emitted d ev_close; modal_deactivated d] ++
    (animations_stopped d <$> parts x) ∧
  dialogs (run_close d x w) !! d =
    Some (with_conts (conts y ++ [close_await_stop])
            (with_anims (filter (λ a, an_part a ∉ parts x) (anims y)) y)) ∧
  activeModals (run_close d x w) = filter (λ m, m ≠ d) (activeModals w) ∧
  lockCount (run_close d x w) = lockCount w ∧
  lockOwners (run_close d x w) = lockOwners w ∧
  activeElement (run_close d x w) = activeElement w ∧
  frames (run_close d x w) = frames w ∧ timers (run_close d x w) = timers w ∧
  nextRun (run_close d x w) = nextRun w.
Proof.
  intros Hy Hp. unfold run_close, emit, stop_all. rewrite Hp. simpl.
  rewrite stop_each_eq. unfold modal_deactivate. simpl.
  rewrite !lookup_alter_eq, Hy. simpl.
  split; [by rewrite <- !app_assoc|done].
Qed.

Lemma run_close_animate_effect d x y w :
  dialogs w !! d = Some y →
  log (run_close_animate d x w) =
    log w ++ (animation_started d <$> close_animations x (nextRun w)) ∧
  dialogs (run_close_animate d x w) !! d =
    Some (with_conts (conts y ++ [close_await_animate (nextRun w)])
            (with_anims (anims y ++ close_animations x (nextRun w)) y)) ∧
  frames (run_close_animate d x w) = frames w ∧
  activeElement (run_close_animate d x w) = activeElement w ∧
  activeModals (run_close_animate d x w) = activeModals w ∧
  lockCount (run_close_animate d x w) = lockCount w ∧
  lockOwners (run_close_animate d x w) = lockOwners w ∧
  timers (run_close_animate d x w) = timers w ∧
  nextRun (run_close_animate d x w) = S (nextRun w).
Proof.
  intros Hy. unfold run_close_animate, animateTo, suspend.
  simpl. rewrite animate_children_eq. simpl.
  rewrite !lookup_alter_eq, Hy. simpl.
  split; [|split; [|done]].
  - rewrite <- !app_assoc. simpl. do 4 f_equal. apply fmap_started.
  - unfold close_animations, with_conts, with_anims. simpl.
    by rewrite <- !app_assoc.
Qed.

(** After the close animations: the dialog is hidden, its unit of the
    scroll lock given back, the focus restoration handed to a timer when
    the captured element has a [focus] function, and [closed] emitted; the
    focus itself has not moved yet. *)
Lemma run_close_finish_effect d x y w :
  dialogs w !! d = Some y →
  log (run_close_finish d x w) =
    log w ++ [display_set d display_none] ++
    (if decide (d ∈ lockOwners w) then [scroll_lock_dec d] else []) ++
    (match originalTrigger x with
     | Some t => if focus_is_function (Some t) then [timeout_set d t] else []
     | None => []
     end) ++
    [emitted d ev_closed] ∧
  dialogs (run_close_finish d x w) !! d = Some (with_display display_none y) ∧
  timers (run_close_finish d x w) =
    timers w ++
    (match originalTrigger x with
     | Some t => if focus_is_function (Some t) then [t] else []
     | None => []
     end) ∧
  lockOwners (run_close_finish d x w) = lockOwners w ∖ {[d]} ∧
  lockCount (run_close_finish d x w) =
    (if decide (d ∈ lockOwners w) then lockCount w - 1 else lockCount w)%Z ∧
  activeElement (run_close_finish d x w) = activeElement w ∧
  activeModals (run_close_finish d x w) = activeModals w ∧
  frames (run_close_finish d x w) = frames w.
Proof.
  intros Hy. unfold run_close_finish, emit, unlockScreen, setTimeout. simpl.
  destruct (decide (d ∈ lockOwners w)) as [Hin|Hnot];
    destruct (originalTrigger x) as [t|];
    try destruct (focus_is_function (Some t)); simpl;
    rewrite ?lookup_alter_eq, ?Hy, <- ?app_assoc, ?app_nil_r; simpl;
    repeat split; try done; set_solver.
Qed.

(** An invocation goes on exactly when what it waits for is settled. *)
Lemma resume_eq d i w x c :
  dialogs w !! d = Some x → conts x !! i = Some c →
  resume d i w =
    if settled x c
    then continue d x c (update d (λ x, with_conts (delete i (conts x)) x) w)
    else w.
Proof. intros Hx Hc. unfold resume. by rewrite Hx, Hc. Qed.

(** [this.open = b] on a rendered dialog whose property changes. *)
Lemma set_open_eq d b w x :
  dialogs w !! d = Some x → open x = negb b → hasUpdated x = true →
  set_open d b w =
    if b then run_open d (with_open b x) (update d (with_open b) w)
    else run_close d (with_open b x) (update d (with_open b) w).
Proof.
  intros Hx Ho Hu. unfold set_open. rewrite Hx, Ho.
  rewrite bool_decide_false by (by destruct b).
  unfold onOpenChange. rewrite lookup_update, Hx. simpl. rewrite Hu.
  unfold run. rewrite lookup_update, Hx. simpl. rewrite Hu. by destruct b.
Qed.

(** The callback queued by [requestAnimationFrame]. *)
Lemma focus_callback_eq d w x :
  dialogs w !! d = Some x → focus_callback d w = focus (focus_target d x) w.
Proof.
  intros Hx. unfold focus_callback, focus_target. rewrite Hx.
  by destruct (autofocus x).
Qed.

(** C4, as the code has it. An opening that is not prevented emits [open],
    shows the overlay, captures the focused element, activates the modal
    context, takes a unit of the scroll lock and cancels the animations of
    its elements; when these have stopped it queues the focus callback for
    the next animation frame and only then starts the open animations; it
    emits [opened] when the animations have settled, and not before. The
    focus is moved by the frame callback, to the [autofocus] element if
    there is one and to the panel otherwise, whether or not the
    animations have finished by then. *)
Theorem opening_sequence (w : World) (d : nat) (x : Dialog) :
  dialogs w !! d = Some x → open x = false → hasUpdated x = true →
  prevents x ev_open = false → inactive w d →
  log (set_open d true w) =
    log w ++ [emitted d ev_open] ++
    (if topAppBar x then [scroll_target_set d] else []) ++
    [display_set d display_flex; trigger_captured d (activeElement w);
     modal_activated d; scroll_lock_inc d] ++
    (animations_stopped d <$> parts x) ∧
  activeModals (set_open d true w) = activeModals w ++ [d] ∧
  lockCount (set_open d true w) = (lockCount w + 1)%Z ∧
  activeElement (set_open d true w) = activeElement w ∧
  frames (set_open d true w) = frames w ∧
  log (resume d 0 (set_open d true w)) =
    log (set_open d true w) ++ [frame_requested d] ++
    (animation_started d <$> open_animations x (nextRun w)) ∧
  frames (resume d 0 (set_open d true w)) = frames w ++ [d] ∧
  activeElement (resume d 0 (set_open d true w)) = activeElement w ∧
  (∃ x2, dialogs (resume d 0 (set_open d true w)) !! d = Some x2 ∧
         open x2 = true ∧ display x2 = display_flex ∧
         originalTrigger x2 = activeElement w ∧
         anims x2 = open_animations x (nextRun w) ∧
         conts x2 = [open_await_animate (nextRun w)] ∧
         autofocus x2 = autofocus x) ∧
  (∀ w' x', dialogs w' !! d = Some x' → autofocus x' = autofocus x →
     focus_callback d w' = focus (focus_target d x) w') ∧
  (∀ w3 x3 i r, dialogs w3 !! d = Some x3 →
     conts x3 !! i = Some (open_await_animate r) →
     resume d i w3 =
       if forallb (λ a, negb (an_run a =? r)) (anims x3)
       then record (emitted d ev_opened)
              (update d (λ x, with_conts (delete i (conts x)) x) w3)
       else w3).
Proof.
  intros Hx Ho Hu Hp (x0 & Hx0 & Hdisp & Han & Hco & Hmod & Hown).
  assert (x0 = x) as -> by congruence.
  rewrite (set_open_eq d true w x Hx Ho Hu).
  set (W := update d (with_open true) w).
  assert (dialogs W !! d = Some (with_open true x)) as HW
    by (unfold W; by rewrite lookup_update, Hx).
  destruct (run_open_effect d (with_open true x) (with_open true x) W HW Hp Hown)
    as (L1 & D1 & M1 & C1 & O1 & A1 & F1 & T1 & N1).
  simpl in L1, D1. rewrite Han, Hco in D1. simpl in D1.
  split; [exact L1|]. split; [exact M1|]. split; [exact C1|].
  split; [exact A1|]. split; [exact F1|].
  set (w1 := run_open d (with_open true x) W) in *.
  erewrite (resume_eq d 0 w1) by (first [exact D1 | reflexivity]).
  cbn [settled continue].
  set (W1 := update d _ w1).
  assert (dialogs W1 !! d = Some
            (with_conts [] (with_anims []
               (with_originalTrigger (activeElement w)
                  (with_display display_flex (with_open true x)))))) as HW1
    by (unfold W1; by rewrite lookup_update, D1).
  match goal with
  | |- context [run_open_animate d ?X W1] =>
      destruct (run_open_animate_effect d X _ W1 HW1) as (L2 & D2 & F2 & A2 & _)
  end.
  replace (nextRun W1) with (nextRun w) in L2, D2 by (symmetry; exact N1).
  replace (log W1) with (log w1) in L2 by done.
  replace (frames W1) with (frames w1) in F2 by done.
  replace (activeElement W1) with (activeElement w1) in A2 by done.
  split; [exact L2|]. split; [by rewrite F2, F1|]. split; [by rewrite A2, A1|].
  split; [eexists; split; [exact D2|by repeat split]|].
  split.
  - intros w' x' Hx' Hauto. rewrite (focus_callback_eq d w' x' Hx').
    unfold focus_target. by rewrite Hauto.
  - intros w3 x3 i r Hx3 Hc3. by rewrite (resume_eq d i w3 x3 _ Hx3 Hc3).
Qed.

Lemma opening_sequence_witness :
  log (resume 1 0 (set_open 1 true demo_page)) =
    log (set_open 1 true demo_page) ++ [frame_requested 1] ++
    (animation_started 1 <$> open_animations (rendered_dialog no_listener) 0).
Proof.
  destruct (opening_sequence demo_page 1 (rendered_dialog no_listener))
    as (_ & _ & _ & _ & _ & H & _).
  - reflexivity.
  - reflexivity.
  - reflexivity.
  - reflexivity.
  - exists (rendered_dialog no_listener).
    split; [reflexivity|]. split; [discriminate|]. split; [reflexivity|].
    split; [reflexivity|]. split; [apply not_elem_of_nil | apply not_elem_of_empty].
  - exact H.
Defined.

(** C4, as the claim has it, fails: the focus is not moved after the open
    animation. On the demo page dialog 1 is opened; the focus callback is
    queued before the animations are started, and at the next animation
    frame it puts the focus on the panel while all five animations are
    still running and [opened] has not been emitted. *)
Lemma focus_moves_before_open_animation_ends :
  log (steps [SetOpen 1 true; Resume 1 0; Frame] demo_page) =
    [emitted 1 ev_open; display_set 1 display_flex;
     trigger_captured 1 (Some (element button));
     modal_activated 1; scroll_lock_inc 1;
     animations_stopped 1 overlay; animations_stopped 1 panel;
     animations_stopped 1 (child 0); animations_stopped 1 (child 1);
     frame_requested 1] ++
    (animation_started 1 <$> open_animations (rendered_dialog no_listener) 0) ++
    [focused (panel_of 1)] ∧
  activeElement (steps [SetOpen 1 true; Resume 1 0; Frame] demo_page)
    = Some (panel_of 1) ∧
  (anims <$> dialogs (steps [SetOpen 1 true; Resume 1 0; Frame] demo_page) !! 1)
    = Some (open_animations (rendered_dialog no_listener) 0) ∧
  length (open_animations (rendered_dialog no_listener) 0) = 5 ∧
  (emitted 1 ev_opened ∉ log (steps [SetOpen 1 true; Resume 1 0; Frame] demo_page)).
Proof.
  split; [by vm_compute|]. split; [by vm_compute|]. split; [by vm_compute|].
  split; [reflexivity|]. apply (bool_decide_unpack _). by vm_compute.
Qed.

(** *** C5: the closing transition *)

(** C5, as the code has it. A closing that is not prevented emits [close],
    takes the overlay context off the stack at once and cancels the
    animations of its elements; when these have stopped it starts the close
    animations; when they have settled, and not before, it hides the
    overlay, gives the unit of the scroll lock back, hands the restoration
    of the focus to a timer if the element captured at the opening has a
    [focus] function (and does nothing about the focus otherwise), and
    emits [closed]. The focus is still where it was when [closed] is
    emitted; the timer restores it afterwards. *)
Theorem closing_sequence (w : World) (d : nat) (x : Dialog) :
  dialogs w !! d = Some x → open x = true → hasUpdated x = true →
  prevents x ev_close = false → conts x = [] →
  log (set_open d false w) =
    log w ++ [emitted d ev_close; modal_deactivated d] ++
    (animations_stopped d <$> parts x) ∧
  activeModals (set_open d false w) = filter (λ m, m ≠ d) (activeModals w) ∧
  lockCount (set_open d false w) = lockCount w ∧
  lockOwners (set_open d false w) = lockOwners w ∧
  activeElement (set_open d false w) = activeElement w ∧
  log (resume d 0 (set_open d false w)) =
    log (set_open d false w) ++
    (animation_started d <$> close_animations x (nextRun w)) ∧
  (∃ x2, dialogs (resume d 0 (set_open d false w)) !! d = Some x2 ∧
         open x2 = false ∧ display x2 = display x ∧
         originalTrigger x2 = originalTrigger x ∧
         anims x2 = filter (λ a, an_part a ∉ parts x) (anims x) ++
                    close_animations x (nextRun w) ∧
         conts x2 = [close_await_animate (nextRun w)]) ∧
  (∀ w3 x3 i r, dialogs w3 !! d = Some x3 →
     conts x3 !! i = Some (close_await_animate r) →
     resume d i w3 =
       if forallb (λ a, negb (an_run a =? r)) (anims x3)
       then run_close_finish d x3
              (update d (λ x, with_conts (delete i (conts x)) x) w3)
       else w3) ∧
  (∀ w3 x3 y3, dialogs w3 !! d = Some y3 →
     log (run_close_finish d x3 w3) =
       log w3 ++ [display_set d display_none] ++
       (if decide (d ∈ lockOwners w3) then [scroll_lock_dec d] else []) ++
       (match originalTrigger x3 with
        | Some t => if focus_is_function (Some t) then [timeout_set d t] else []
        | None => []
        end) ++
       [emitted d ev_closed] ∧
     timers (run_close_finish d x3 w3) =
       timers w3 ++
       (match originalTrigger x3 with
        | Some t => if focus_is_function (Some t) then [t] else []
        | None => []
        end) ∧
     activeElement (run_close_finish d x3 w3) = activeElement w3 ∧
     lockOwners (run_close_finish d x3 w3) = lockOwners w3 ∖ {[d]} ∧
     lockCount (run_close_finish d x3 w3) =
       (if decide (d ∈ lockOwners w3) then lockCount w3 - 1 else lockCount w3)%Z ∧
     dialogs (run_close_finish d x3 w3) !! d = Some (with_display display_none y3)) ∧
  (∀ w4 t rest, timers w4 = t :: rest →
     timer w4 = focus t (with_timers rest w4)).
Proof.
  intros Hx Ho Hu Hp Hco.
  rewrite (set_open_eq d false w x Hx Ho Hu).
  set (W := update d (with_open false) w).
  assert (dialogs W !! d = Some (with_open false x)) as HW
    by (unfold W; by rewrite lookup_update, Hx).
  destruct (run_close_effect d (with_open false x) (with_open false x) W HW Hp)
    as (L1 & D1 & M1 & C1 & O1 & A1 & F1 & T1 & N1).
  split; [exact L1|]. split; [exact M1|]. split; [exact C1|].
  split; [exact O1|]. split; [exact A1|].
  set (w1 := run_close d (with_open false x) W) in *.
  assert (conts (with_open false x) ++ [close_await_stop] = [close_await_stop])
    as Hc1 by (simpl; by rewrite Hco).
  rewrite Hc1 in D1.
  erewrite (resume_eq d 0 w1) by (first [exact D1 | reflexivity]).
  cbn [settled continue].
  set (W1 := update d _ w1).
  assert (dialogs W1 !! d = Some
            (with_conts []
               (with_anims (filter (λ a, an_part a ∉ parts x) (anims x))
                  (with_open false x)))) as HW1
    by (unfold W1; by rewrite lookup_update, D1).
  match goal with
  | |- context [run_close_animate d ?X W1] =>
      destruct (run_close_animate_effect d X _ W1 HW1) as (L2 & D2 & _)
  end.
  replace (nextRun W1) with (nextRun w) in L2, D2 by (symmetry; exact N1).
  replace (log W1) with (log w1) in L2 by done.
  split; [exact L2|].
  split; [eexists; split; [exact D2|by repeat split]|].
  split; [|split].
  - intros w3 x3 i r Hx3 Hc3. by rewrite (resume_eq d i w3 x3 _ Hx3 Hc3).
  - intros w3 x3 y3 Hy3.
    destruct (run_close_finish_effect d x3 y3 w3 Hy3)
      as (La & Da & Ta & Oa & Ca & Aa & _).
    by repeat split.
  - intros w4 t rest Ht. unfold timer. by rewrite Ht.
Qed.

Lemma closing_sequence_witness :
  log (set_open 1 false opened_page) =
    log opened_page ++ [emitted 1 ev_close; modal_deactivated 1] ++
    (animations_stopped 1 <$> parts (shown_dialog (element button))).
Proof.
  destruct (closing_sequence opened_page 1 (shown_dialog (element button)))
    as (H & _).
  - by vm_compute.
  - reflexivity.
  - reflexivity.
  - reflexivity.
  - reflexivity.
  - exact H.
Defined.

(** C5, as the claim has it, fails twice: the overlay context is taken off
    the stack before the close animation is started, not after it, and
    [closed] is not the last effect, the focus being restored by a timer
    that runs after it. Dialog 1 of the demo page, shown, is closed. *)
Lemma closed_is_emitted_before_focus_returns :
  log (steps [SetOpen 1 false; Resume 1 0;
              AnimationEnd 1 0; AnimationEnd 1 0; AnimationEnd 1 0;
              AnimationEnd 1 0; AnimationEnd 1 0; Resume 1 0; Timer] opened_page) =
    log opened_page ++
    [emitted 1 ev_close; modal_deactivated 1;
     animations_stopped 1 overlay; animations_stopped 1 panel;
     animations_stopped 1 (child 0); animations_stopped 1 (child 1)] ++
    (animation_started 1 <$> close_animations (rendered_dialog no_listener) 1) ++
    [display_set 1 display_none; scroll_lock_dec 1;
     timeout_set 1 (element button); emitted 1 ev_closed;
     focused (element button)] ∧
  activeElement (steps [SetOpen 1 false; Resume 1 0;
              AnimationEnd 1 0; AnimationEnd 1 0; AnimationEnd 1 0;
              AnimationEnd 1 0; AnimationEnd 1 0; Resume 1 0] opened_page)
    = Some (panel_of 1) ∧
  activeModals (set_open 1 false opened_page) = [] ∧
  (anims <$> dialogs (set_open 1 false opened_page) !! 1) = Some [].
Proof.
  split; [by vm_compute|]. split; [by vm_compute|]. split; by vm_compute.
Qed.

(** *** C2: the scroll lock *)

Lemma increments_app d l1 l2 :
  increments d (l1 ++ l2) = increments d l1 + increments d l2.
Proof. unfold increments. by rewrite filter_app, length_app. Qed.

Lemma decrements_app d l1 l2 :
  decrements d (l1 ++ l2) = decrements d l1 + decrements d l2.
Proof. unfold decrements. by rewrite filter_app, length_app. Qed.

Lemma counts_no_lock_change d a :
  no_lock_change a → increments d [a] = 0 ∧ decrements d [a] = 0.
Proof.
  intros [Hi Hd]. unfold increments, decrements.
  rewrite !filter_cons_False by auto. done.
Qed.

Lemma counts_fmap_no_lock_change {A} d (f : A → Action) (l : list A) :
  (∀ i, no_lock_change (f i)) →
  increments d (f <$> l) = 0 ∧ decrements d (f <$> l) = 0.
Proof.
  intros Hf. induction l as [|i l [IH1 IH2]]; [done|].
  rewrite fmap_cons.
  change (f i :: (f <$> l)) with ([f i] ++ (f <$> l)).
  rewrite increments_app, decrements_app, IH1, IH2.
  by destruct (counts_no_lock_change d (f i) (Hf i)) as [-> ->].
Qed.

Lemma benign_refl w : benign w w.
Proof. repeat split; eauto. Qed.

Lemma benign_trans w1 w2 w3 : benign w1 w2 → benign w2 w3 → benign w1 w3.
Proof.
  intros (A1 & B1 & C1 & D1) (A2 & B2 & C2 & D2).
  split; [congruence|]. split; [congruence|]. split.
  - intros d. destruct (C1 d), (C2 d). split; congruence.
  - intros d x Hx Hf. destruct (D1 d x Hx Hf) as (x2 & Hx2 & Hf2). eauto.
Qed.

Lemma lock_consistent_benign w w' : benign w w' → lock_consistent w → lock_consistent w'.
Proof.
  intros (A & B & C & D) (I1 & I2 & I3). split; [by rewrite A, B|]. split.
  - intros d Hd. rewrite B in Hd. destruct (I2 d Hd) as (x & Hx & Hf). eauto.
  - intros d. destruct (C d) as [-> ->]. rewrite B. apply I3.
Qed.

Lemma benign_record a w0 w : no_lock_change a → benign w0 w → benign w0 (record a w).
Proof.
  intros Ha H. eapply benign_trans; [exact H|].
  split; [done|]. split; [done|]. split; [|by eauto].
  intros d. simpl. rewrite increments_app, decrements_app.
  destruct (counts_no_lock_change d a Ha) as [-> ->]. lia.
Qed.

Lemma benign_shared w0 w w' :
  dialogs w' = dialogs w → lockCount w' = lockCount w →
  lockOwners w' = lockOwners w → log w' = log w →
  benign w0 w → benign w0 w'.
Proof.
  intros E1 E2 E3 E4 H. eapply benign_trans; [exact H|].
  unfold benign. rewrite E1, E2, E3, E4. apply benign_refl.
Qed.

Lemma benign_with_activeElement t w0 w : benign w0 w → benign w0 (with_activeElement t w).
Proof. by apply benign_shared. Qed.

Lemma benign_with_activeModals l w0 w : benign w0 w → benign w0 (with_activeModals l w).
Proof. by apply benign_shared. Qed.

Lemma benign_with_frames l w0 w : benign w0 w → benign w0 (with_frames l w).
Proof. by apply benign_shared. Qed.

Lemma benign_with_timers l w0 w : benign w0 w → benign w0 (with_timers l w).
Proof. by apply benign_shared. Qed.

Lemma benign_with_nextRun n w0 w : benign w0 w → benign w0 (with_nextRun n w).
Proof. by apply benign_shared. Qed.

Lemma benign_update d f w0 w :
  (∀ y, display y = display_flex → display (f y) = display_flex) →
  benign w0 w → benign w0 (update d f w).
Proof.
  intros Hf H. eapply benign_trans; [exact H|].
  split; [done|]. split; [done|]. split; [done|].
  intros d' x Hx Hfl. simpl. rewrite lookup_alter. case_decide.
  - subst. rewrite Hx. simpl. eauto.
  - eauto.
Qed.

Lemma benign_stop_each d ps w0 w : benign w0 w → benign w0 (stop_each d ps w).
Proof.
  intros H. eapply benign_trans; [exact H|]. rewrite stop_each_eq.
  split; [done|]. split; [done|]. split.
  - intros d'. simpl. rewrite increments_app, decrements_app.
    destruct (counts_fmap_no_lock_change d' (animations_stopped d) ps) as [-> ->];
      [by split|lia].
  - intros d' x Hx Hfl. simpl. rewrite lookup_alter. case_decide.
    + subst. rewrite Hx. simpl. eauto.
    + eauto.
Qed.

Lemma benign_animate_children d k r kids w0 w :
  benign w0 w → benign w0 (animate_children d k r kids w).
Proof.
  intros H. eapply benign_trans; [exact H|]. rewrite animate_children_eq.
  split; [done|]. split; [done|]. split.
  - intros d'. simpl. rewrite increments_app, decrements_app.
    destruct (counts_fmap_no_lock_change d'
                (λ i, animation_started d
                   {| an_part := child i; an_keyframes := k; an_run := r |}) kids)
      as [-> ->]; [by split|lia].
  - intros d' x Hx Hfl. simpl. rewrite lookup_alter. case_decide.
    + subst. rewrite Hx. simpl. eauto.
    + eauto.
Qed.

Ltac benign_steps :=
  repeat match goal with
    | |- benign ?w ?w => apply benign_refl
    | |- benign _ (record _ _) => apply benign_record; [by split|]
    | |- benign _ (with_activeElement _ _) => apply benign_with_activeElement
    | |- benign _ (with_activeModals _ _) => apply benign_with_activeModals
    | |- benign _ (with_frames _ _) => apply benign_with_frames
    | |- benign _ (with_timers _ _) => apply benign_with_timers
    | |- benign _ (with_nextRun _ _) => apply benign_with_nextRun
    | |- benign _ (stop_each _ _ _) => apply benign_stop_each
    | |- benign _ (animate_children _ _ _ _ _) => apply benign_animate_children
    | |- benign _ (update _ _ _) => apply benign_update; [by intros ?|]
    end.

Ltac by_benign H := eapply lock_consistent_benign; [|exact H]; benign_steps.

Lemma counts_inc d d' :
  increments d' [scroll_lock_inc d] = (if decide (d' = d) then 1 else 0) ∧
  decrements d' [scroll_lock_inc d] = 0.
Proof.
  unfold increments, decrements. split; [|by rewrite filter_cons_False].
  case_decide.
  - subst. by rewrite filter_cons_True.
  - rewrite filter_cons_False; [done|]. congruence.
Qed.

Lemma counts_dec d d' :
  increments d' [scroll_lock_dec d] = 0 ∧
  decrements d' [scroll_lock_dec d] = (if decide (d' = d) then 1 else 0).
Proof.
  unfold increments, decrements. split; [by rewrite filter_cons_False|].
  case_decide.
  - subst. by rewrite filter_cons_True.
  - rewrite filter_cons_False; [done|]. congruence.
Qed.

(** Taking a unit, by a dialog that is shown. *)
Lemma lock_consistent_lockScreen d w :
  lock_consistent w →
  (∃ x, dialogs w !! d = Some x ∧ display x = display_flex) →
  lock_consistent (lockScreen d w).
Proof.
  intros (I1 & I2 & I3) Hd. unfold lockScreen. case_decide as Hin; [done|].
  split; [|split]; simpl.
  - rewrite size_union by set_solver. rewrite size_singleton. lia.
  - intros d' Hd'. apply elem_of_union in Hd' as [Hd'|Hd']; [|by apply I2].
    apply elem_of_singleton in Hd'. by subst.
  - intros d'. rewrite increments_app, decrements_app, I3.
    destruct (counts_inc d d') as [-> ->].
    destruct (decide (d' = d)) as [->|Hne].
    + rewrite decide_False by done. rewrite decide_True by set_solver. lia.
    + destruct (decide (d' ∈ lockOwners w)).
      * rewrite decide_True by set_solver. lia.
      * rewrite decide_False by set_solver. lia.
Qed.

(** Giving the unit back, whether or not the dialog was hidden just
    before: [w1] is [w] up to the display of [d]. *)
Lemma lock_consistent_unlockScreen d w w1 :
  lock_consistent w →
  lockCount w1 = lockCount w → lockOwners w1 = lockOwners w →
  (∀ d', increments d' (log w1) = increments d' (log w) ∧
         decrements d' (log w1) = decrements d' (log w)) →
  (∀ d' x, d' ≠ d → dialogs w !! d' = Some x → display x = display_flex →
           ∃ x', dialogs w1 !! d' = Some x' ∧ display x' = display_flex) →
  lock_consistent (unlockScreen d w1).
Proof.
  intros (I1 & I2 & I3) E1 E2 E3 E4. unfold unlockScreen. rewrite E2.
  case_decide as Hin.
  - split; [|split]; simpl.
    + rewrite E1, ?E2, I1.
      assert (size (lockOwners w) = size (lockOwners w ∖ {[d]}) + 1) as ->; [|lia].
      rewrite (union_difference_L {[d]} (lockOwners w)) at 1 by set_solver.
      rewrite size_union by set_solver. rewrite size_singleton. lia.
    + rewrite ?E2. intros d' Hd'. apply elem_of_difference in Hd' as [Hd' Hne].
      destruct (I2 d' Hd') as (x & Hx & Hf).
      apply (E4 d' x); [set_solver|done..].
    + rewrite ?E2. intros d'. rewrite increments_app, decrements_app.
      destruct (E3 d') as [-> ->]. rewrite I3.
      destruct (counts_dec d d') as [-> ->].
      destruct (decide (d' = d)) as [->|Hne].
      * rewrite decide_True by done. rewrite decide_False by set_solver. lia.
      * destruct (decide (d' ∈ lockOwners w)).
        -- rewrite decide_True by set_solver. lia.
        -- rewrite decide_False by set_solver. lia.
  - split; [|split].
    + by rewrite E1, ?E2.
    + rewrite ?E2. intros d' Hd'. destruct (I2 d' Hd') as (x & Hx & Hf).
      apply (E4 d' x); [congruence|done..].
    + rewrite ?E2. intros d'. destruct (E3 d') as [-> ->]. apply I3.
Qed.

(** The segments of [onOpenChange]. *)
Lemma lock_consistent_run_open d x y w :
  dialogs w !! d = Some y → lock_consistent w → lock_consistent (run_open d x w).
Proof.
  intros Hy H. unfold run_open, emit, stop_all, suspend, modal_activate. simpl.
  destruct (prevents x ev_open); [by_benign H|].
  match goal with
  | |- lock_consistent (update _ _ (stop_each _ _ (lockScreen d ?A))) =>
      apply (lock_consistent_benign (lockScreen d A)); [benign_steps|];
      apply lock_consistent_lockScreen
  end.
  - destruct (topAppBar x); by_benign H.
  - destruct (topAppBar x); simpl; rewrite !lookup_alter_eq, Hy; simpl; eauto.
Qed.

Lemma lock_consistent_run_close_finish d x w :
  lock_consistent w → lock_consistent (run_close_finish d x w).
Proof.
  intros H. unfold run_close_finish, emit, setTimeout. simpl.
  assert (lock_consistent
            (unlockScreen d (record (display_set d display_none)
               (update d (with_display display_none) w)))) as H'.
  { apply (lock_consistent_unlockScreen d w); try done.
    - intros d'. simpl. rewrite increments_app, decrements_app.
      destruct (counts_no_lock_change d' (display_set d display_none)) as [-> ->];
        [by split|lia].
    - intros d' x' Hne Hx' Hf. simpl. rewrite lookup_alter_ne by done. eauto. }
  destruct (originalTrigger x) as [t|]; [destruct (focus_is_function (Some t))|];
    by_benign H'.
Qed.

Lemma lock_consistent_run d w : lock_consistent w → lock_consistent (run d w).
Proof.
  intros H. unfold run. destruct (dialogs w !! d) as [x|] eqn:Hx; [|done].
  destruct (open x); [by apply (lock_consistent_run_open d x x)|].
  destruct (hasUpdated x); [|done].
  unfold run_close, emit, stop_all, suspend, modal_deactivate. simpl.
  destruct (prevents x ev_close); by_benign H.
Qed.

Lemma lock_consistent_onOpenChange d w :
  lock_consistent w → lock_consistent (onOpenChange d w).
Proof.
  intros H. unfold onOpenChange. destruct (dialogs w !! d) as [x|]; [|done].
  destruct (hasUpdated x); [by apply lock_consistent_run|].
  unfold suspend. by_benign H.
Qed.

Lemma lock_consistent_set_open d b w :
  lock_consistent w → lock_consistent (set_open d b w).
Proof.
  intros H. unfold set_open. destruct (dialogs w !! d) as [x|]; [|done].
  case_bool_decide; [done|]. apply lock_consistent_onOpenChange. by_benign H.
Qed.

Lemma lock_consistent_resume d i w : lock_consistent w → lock_consistent (resume d i w).
Proof.
  intros H. unfold resume. destruct (dialogs w !! d) as [x|] eqn:Hx; [|done].
  destruct (conts x !! i) as [c|]; [|done].
  destruct (settled x c); [|done].
  assert (lock_consistent (update d (λ x, with_conts (delete i (conts x)) x) w))
    as H' by by_benign H.
  destruct c; simpl.
  - by apply lock_consistent_run.
  - unfold run_open_animate, requestAnimationFrame, animateTo, suspend. by_benign H'.
  - unfold run_open_finish, emit. simpl. by_benign H'.
  - unfold run_close_animate, animateTo, suspend. by_benign H'.
  - by apply lock_consistent_run_close_finish.
Qed.

Lemma lock_consistent_focus_callback d w :
  lock_consistent w → lock_consistent (focus_callback d w).
Proof.
  intros H. unfold focus_callback, focus.
  destruct (dialogs w !! d) as [x|]; [|done].
  destruct (autofocus x); by_benign H.
Qed.

Lemma lock_consistent_frame w : lock_consistent w → lock_consistent (frame w).
Proof.
  intros H. unfold frame.
  assert (lock_consistent (with_frames [] w)) as H' by by_benign H.
  revert H'. generalize (with_frames [] w). generalize (frames w).
  intros l. induction l as [|d l IH]; intros w' H'; [done|].
  simpl. apply IH. by apply lock_consistent_focus_callback.
Qed.

Lemma lock_consistent_timer w : lock_consistent w → lock_consistent (timer w).
Proof.
  intros H. unfold timer, focus. destruct (timers w); [done|]. by_benign H.
Qed.

Lemma lock_consistent_keydown_listener d key sw :
  lock_consistent (snd sw) → lock_consistent (snd (keydown_listener d key sw)).
Proof.
  intros H. unfold keydown_listener.
  destruct (dialogs (snd sw) !! d) as [x|]; [|done].
  destruct (open x && closeOnEsc x && bool_decide (key = "Escape")); [|done].
  simpl. apply lock_consistent_set_open. by_benign H.
Qed.

Lemma lock_consistent_dispatch_keydown key path w :
  lock_consistent w → lock_consistent (dispatch_keydown key path w).
Proof.
  revert w. induction path as [|d outer IH]; intros w H; [done|].
  unfold dispatch_keydown. fold dispatch_keydown.
  assert (∀ n, lock_consistent (snd (Nat.iter n (keydown_listener d key) (false, w))))
    as Hn.
  { intros n. induction n as [|n IHn]; [done|].
    rewrite Nat.iter_succ. by apply lock_consistent_keydown_listener. }
  destruct (fst (Nat.iter (listeners_on d w) (keydown_listener d key) (false, w)));
    [apply Hn | apply IH, Hn].
Qed.

Lemma lock_consistent_onOverlayClick d w :
  lock_consistent w → lock_consistent (onOverlayClick d w).
Proof.
  intros H. unfold onOverlayClick, emit.
  destruct (dialogs w !! d) as [x|]; [|done]. simpl.
  destruct (closeOnOverlayClick x); simpl;
    [apply lock_consistent_set_open|]; by_benign H.
Qed.

Lemma lock_consistent_disconnectedCallback d w :
  lock_consistent w → lock_consistent (disconnectedCallback d w).
Proof.
  intros H. unfold disconnectedCallback.
  apply (lock_consistent_unlockScreen d w); eauto.
Qed.

(** Every event keeps the scroll lock consistent. *)
Lemma lock_consistent_step e w : lock_consistent w → lock_consistent (step e w).
Proof.
  intros H. destruct e; simpl.
  - by apply lock_consistent_set_open.
  - by_benign H.
  - by apply lock_consistent_resume.
  - unfold animation_end. by_benign H.
  - by apply lock_consistent_frame.
  - by apply lock_consistent_timer.
  - by apply lock_consistent_dispatch_keydown.
  - by apply lock_consistent_onOverlayClick.
  - unfold connectedCallback. by_benign H.
  - by apply lock_consistent_disconnectedCallback.
  - by_benign H.
  - by_benign H.
Qed.

Lemma lock_consistent_steps es w : lock_consistent w → lock_consistent (steps es w).
Proof.
  revert w. induction es as [|e es IH]; intros w H; [done|].
  simpl. apply IH. by apply lock_consistent_step.
Qed.

Lemma lock_consistent_page ds focus : lock_consistent (page ds focus).
Proof.
  split; [done|]. split; [|done]. intros d Hd. simpl in Hd.
  by apply not_elem_of_empty in Hd.
Qed.

(** C2. From a page whose scroll lock is free, whatever happens (intents to
    open and to close, prevented or not, continuations in any order,
    animations ending, keys, clicks, connections and disconnections), the
    scroll-lock counter is never negative and is the number of dialogs
    owning a unit; for every dialog the counter went up as often as down,
    plus once if it owns a unit now, so that each increment is followed by
    at most one decrement of the same dialog and by exactly one when the
    dialog has closed or was disconnected; a disconnection gives the unit
    back; and when no dialog is shown any more the counter is 0. *)
Theorem scroll_lock_is_paired (ds : gmap nat Dialog) (focus : option Target)
    (es : list Event) (d : nat) :
  (0 ≤ lockCount (steps es (page ds focus)))%Z ∧
  lockCount (steps es (page ds focus)) =
    Z.of_nat (size (lockOwners (steps es (page ds focus)))) ∧
  increments d (log (steps es (page ds focus))) =
    decrements d (log (steps es (page ds focus))) +
    (if decide (d ∈ lockOwners (steps es (page ds focus))) then 1 else 0) ∧
  (d ∉ lockOwners (steps (es ++ [Disconnect d]) (page ds focus))) ∧
  increments d (log (steps (es ++ [Disconnect d]) (page ds focus))) =
    decrements d (log (steps (es ++ [Disconnect d]) (page ds focus))) ∧
  (all_hidden (steps es (page ds focus)) →
     lockCount (steps es (page ds focus)) = 0%Z ∧
     increments d (log (steps es (page ds focus))) =
       decrements d (log (steps es (page ds focus)))).
Proof.
  pose proof (lock_consistent_steps es _ (lock_consistent_page ds focus))
    as (I1 & I2 & I3).
  pose proof (lock_consistent_steps (es ++ [Disconnect d]) _
                (lock_consistent_page ds focus)) as (J1 & J2 & J3).
  assert (d ∉ lockOwners (steps (es ++ [Disconnect d]) (page ds focus))) as Hout.
  { unfold steps. rewrite foldl_app. simpl.
    unfold disconnectedCallback, unlockScreen. case_decide; simpl; set_solver. }
  split; [lia|]. split; [done|]. split; [apply I3|]. split; [done|].
  split; [rewrite J3, decide_False by done; lia|].
  intros Hh.
  assert (lockOwners (steps es (page ds focus)) = ∅) as Hempty.
  { apply set_eq. intros d'. split; [|set_solver]. intros Hd'.
    destruct (I2 d' Hd') as (x & Hx & Hf). by destruct (Hh d' x Hx). }
  split.
  - by rewrite I1, Hempty, size_empty.
  - rewrite I3, Hempty. rewrite decide_False by set_solver. lia.
Qed.

Example scroll_lock_counts :
  lockCount (steps (open_fully 1 ++ open_fully 2) demo_page) = 2%Z ∧
  lockCount (steps (open_fully 1 ++ open_fully 2 ++ close_fully 1) demo_page) = 1%Z ∧
  lockCount (steps open_close_both demo_page) = 0%Z ∧
  lockCount (steps (open_fully 1 ++ [Disconnect 1] ++ close_fully 1) demo_page) = 0%Z ∧
  lockCount (steps [Disconnect 1; Disconnect 2] demo_page) = 0%Z.
Proof. repeat split; by vm_compute. Qed.

Lemma scroll_lock_is_paired_witness :
  lockCount (steps open_close_both demo_page) = 0%Z ∧
  increments 1 (log (steps open_close_both demo_page)) =
    decrements 1 (log (steps open_close_both demo_page)).
Proof.
  apply (scroll_lock_is_paired
           {[ 1 := rendered_dialog no_listener; 2 := rendered_dialog no_listener ]}
           (Some (element button)) open_close_both 1).
  change (map_Forall (λ _ x, display x ≠ display_flex)
            (dialogs (steps open_close_both demo_page))).
  apply (bool_decide_unpack _). by vm_compute.
Defined.

(** *** C6: closing while the open animation runs *)

Lemma acts_on_resume d i w0 w : acts_on d w0 w → acts_on d w0 (resume d i w).
Proof.
  intros H. unfold resume. destruct (dialogs w !! d) as [x|]; [|done].
  destruct (conts x !! i) as [c|]; [|done]. destruct (settled x c); [|done].
  destruct c; simpl.
  - apply acts_on_run. by apply acts_on_update.
  - unfold run_open_animate, requestAnimationFrame, animateTo, suspend. by acts.
  - unfold run_open_finish, emit. simpl. by acts.
  - unfold run_close_animate, animateTo, suspend. by acts.
  - unfold run_close_finish, emit, setTimeout. simpl.
    destruct (originalTrigger x) as [t|]; [destruct (focus_is_function (Some t))|];
      by acts.
Qed.

Lemma acts_on_onOverlayClick d w0 w : acts_on d w0 w → acts_on d w0 (onOverlayClick d w).
Proof.
  intros H. unfold onOverlayClick, emit. destruct (dialogs w !! d) as [x|]; [|done].
  simpl. destruct (closeOnOverlayClick x); simpl;
    [apply acts_on_set_open|]; by acts.
Qed.

(** The callbacks of frames and timers touch no dialog, nor the stack, nor
    the scroll lock. *)
Lemma acts_on_frame d w0 w : acts_on d w0 w → acts_on d w0 (frame w).
Proof.
  intros H. unfold frame.
  assert (acts_on d w0 (with_frames [] w)) as H' by by acts.
  revert H'. generalize (with_frames [] w). generalize (frames w).
  intros l. induction l as [|d' l IH]; intros w' H'; [done|].
  simpl. apply IH. unfold focus_callback, focus.
  destruct (dialogs w' !! d') as [x|]; [|done]. destruct (autofocus x); by acts.
Qed.

Lemma acts_on_timer d w0 w : acts_on d w0 w → acts_on d w0 (timer w).
Proof. intros H. unfold timer, focus. destruct (timers w); [done|]. by acts. Qed.

(** What an event does to a dialog it is not about. *)
Lemma step_elsewhere e d w :
  e ≠ SetOpen d true →
  (match e with
   | SetOpen d' _ | FirstUpdate d' | Resume d' _ | AnimationEnd d' _
   | OverlayClick d' | Connect d' | Disconnect d' | Listen d' _ => d' ≠ d
   | Keydown key path => reacts key w d = false
   | Frame | Timer | FocusMoved _ => True
   end) →
  dialogs (step e w) !! d = dialogs w !! d ∧
  (d ∈ activeModals (step e w) ↔ d ∈ activeModals w) ∧
  (d ∈ lockOwners (step e w) ↔ d ∈ lockOwners w).
Proof.
  intros _ He.
  assert (∀ d', d' ≠ d → acts_on d' w (step e w) →
            dialogs (step e w) !! d = dialogs w !! d ∧
            (d ∈ activeModals (step e w) ↔ d ∈ activeModals w) ∧
            (d ∈ lockOwners (step e w) ↔ d ∈ lockOwners w)) as Hacts.
  { intros d' Hne (A & B & C). split; [by apply A|]. split; [by apply B|by apply C]. }
  destruct e; simpl in He |- *.
  - apply (Hacts d0); [done|]. apply acts_on_set_open, acts_on_refl.
  - apply (Hacts d0); [done|]. simpl. by acts.
  - apply (Hacts d0); [done|]. apply acts_on_resume, acts_on_refl.
  - apply (Hacts d0); [done|]. simpl. unfold animation_end. by acts.
  - apply (Hacts (S d)); [lia|]. apply acts_on_frame, acts_on_refl.
  - apply (Hacts (S d)); [lia|]. apply acts_on_timer, acts_on_refl.
  - rewrite dispatch_keydown_find.
    destruct (find (reacts key w) path) as [d'|] eqn:Hf; [|done].
    apply find_some in Hf as [_ Hr].
    assert (d' ≠ d) as Hne by (intros ->; congruence).
    destruct (acts_on_set_open d' false (record (propagation_stopped d') w)
                (record (propagation_stopped d') w) (acts_on_refl _ _))
      as (A & B & C).
    split; [by apply A|]. split; [by apply B|by apply C].
  - apply (Hacts d0); [done|]. apply acts_on_onOverlayClick, acts_on_refl.
  - apply (Hacts d0); [done|]. simpl. unfold connectedCallback. by acts.
  - apply (Hacts d0); [done|]. simpl. unfold disconnectedCallback. by acts.
  - apply (Hacts d0); [done|]. simpl. by acts.
  - done.
Qed.

Lemma closing_inv_ext d r w w' :
  dialogs w' !! d = dialogs w !! d →
  (d ∈ activeModals w' → d ∈ activeModals w) →
  (d ∈ lockOwners w' → d ∈ lockOwners w) →
  closing_inv d r w → closing_inv d r w'.
Proof.
  intros E Hm Ho (y & pre & Hy & Hopen & Hmod & Hpre & Hph).
  exists y, pre. rewrite E. split; [done|]. split; [done|].
  split; [by auto|]. split; [done|].
  destruct Hph as [?|[?|(? & ? & ? & ?)]]; auto 10.
Qed.

Lemma closing_inv_update d r f w :
  (∀ y, open (f y) = open y ∧ conts (f y) = conts y ∧
        anims (f y) = anims y ∧ display (f y) = display y) →
  closing_inv d r w → closing_inv d r (update d f w).
Proof.
  intros Hf (y & pre & Hy & Hopen & Hmod & Hpre & Hph).
  destruct (Hf y) as (E1 & E2 & E3 & E4).
  exists (f y), pre. rewrite lookup_update, Hy. simpl.
  rewrite E1, E2, E3, E4. done.
Qed.

(** While it closes, the dialog carries the animations of one run at most,
    and once nothing of it is in flight it is inactive. *)
Lemma closing_inv_no_conflict d r w : closing_inv d r w → no_conflict w d.
Proof.
  intros (y & pre & Hy & _ & _ & _ & Hph) x a b Hx Ha Hb _.
  assert (x = y) as -> by congruence.
  destruct Hph as [[_ Hn]|[(r2 & _ & Hall)|(_ & Hn & _)]].
  - rewrite Hn in Ha. by apply elem_of_nil in Ha.
  - rewrite Forall_forall in Hall. by rewrite (Hall a Ha), (Hall b Hb).
  - rewrite Hn in Ha. by apply elem_of_nil in Ha.
Qed.

Lemma closing_inv_quiescent d r w :
  closing_inv d r w → quiescent w d → inactive w d.
Proof.
  intros (y & pre & Hy & _ & Hmod & Hpre & Hph) (x & Hx & Han & Hco).
  assert (x = y) as -> by congruence.
  exists y. split; [done|].
  destruct Hph as [[Hc _]|[(r2 & Hc & _)|(Hc & _ & Hd & Hown)]].
  - rewrite Hco in Hc. by destruct pre.
  - rewrite Hco in Hc. by destruct pre.
  - rewrite Hd. done.
Qed.

(** All animations of a run are gone when the run is what they all have. *)
Lemma settled_all_of_run r2 (l : list Anim) :
  Forall (λ a, an_run a = r2) l →
  forallb (λ a, negb (an_run a =? r2)) l = true → l = [].
Proof.
  intros Hall Hs. destruct l as [|a l]; [done|].
  apply Forall_cons in Hall as [Ha _]. simpl in Hs.
  rewrite Ha, Nat.eqb_refl in Hs. done.
Qed.

Lemma close_animations_run x r2 :
  Forall (λ a, an_run a = r2) (close_animations x r2).
Proof.
  unfold close_animations. apply Forall_app. split.
  - by repeat constructor.
  - apply Forall_fmap. by apply Forall_forall.
Qed.

(** The opening that was cut short emits [opened]. *)
Lemma resumed_open_finish d y i w :
  dialogs w !! d = Some y →
  let w' := run_open_finish d y (update d (λ x, with_conts (delete i (conts x)) x) w) in
  dialogs w' !! d = Some (with_conts (delete i (conts y)) y) ∧
  activeModals w' = activeModals w ∧ lockOwners w' = lockOwners w.
Proof.
  intros Hy. cbv zeta. unfold run_open_finish, emit. simpl.
  by rewrite lookup_alter_eq, Hy.
Qed.

Lemma resumed_close_animate d y i w :
  dialogs w !! d = Some y →
  let w' := run_close_animate d y (update d (λ x, with_conts (delete i (conts x)) x) w) in
  dialogs w' !! d =
    Some (with_conts (delete i (conts y) ++ [close_await_animate (nextRun w)])
            (with_anims (anims y ++ close_animations y (nextRun w)) y)) ∧
  activeModals w' = activeModals w ∧ lockOwners w' = lockOwners w.
Proof.
  intros Hy.
  destruct (run_close_animate_effect d y (with_conts (delete i (conts y)) y)
              (update d (λ x, with_conts (delete i (conts x)) x) w))
    as (_ & D & _ & _ & M & _ & O & _).
  { by rewrite lookup_update, Hy. }
  cbv zeta. rewrite D, M, O. done.
Qed.

Lemma resumed_close_finish d y i w :
  dialogs w !! d = Some y →
  let w' := run_close_finish d y (update d (λ x, with_conts (delete i (conts x)) x) w) in
  dialogs w' !! d =
    Some (with_display display_none (with_conts (delete i (conts y)) y)) ∧
  activeModals w' = activeModals w ∧ lockOwners w' = lockOwners w ∖ {[d]}.
Proof.
  intros Hy.
  destruct (run_close_finish_effect d y (with_conts (delete i (conts y)) y)
              (update d (λ x, with_conts (delete i (conts x)) x) w))
    as (_ & D & _ & O & _ & _ & M & _).
  { by rewrite lookup_update, Hy. }
  cbv zeta. rewrite D, M, O. done.
Qed.

Lemma closing_inv_resume d r i w :
  closing_inv d r w → closing_inv d r (resume d i w).
Proof.
  intros Hinv. pose proof Hinv as (y & pre & Hy & Hopen & Hmod & Hpre & Hph).
  unfold resume. rewrite Hy.
  destruct (conts y !! i) as [c|] eqn:Hc; [|done].
  destruct (settled y c) eqn:Hs; [|done].
  destruct c as [| |ro| |rc]; simpl.
  - (* await_update is never pending here *)
    exfalso. apply list_elem_of_lookup_2 in Hc.
    destruct Hpre as [->| ->];
      destruct Hph as [[E _]|[(r2 & E & _)|(E & _)]]; rewrite E in Hc; set_solver.
  - exfalso. apply list_elem_of_lookup_2 in Hc.
    destruct Hpre as [->| ->];
      destruct Hph as [[E _]|[(r2 & E & _)|(E & _)]]; rewrite E in Hc; set_solver.
  - (* the opening that was cut short *)
    destruct (resumed_open_finish d y i w Hy) as (D & M & O).
    assert (pre = [open_await_animate r] ∧ i = 0) as [-> ->].
    { destruct Hpre as [->| ->];
        destruct Hph as [[E _]|[(r2 & E & _)|(E & _)]]; rewrite E in Hc;
        destruct i as [|[|i]]; simpl in Hc; try done; by injection Hc as <-. }
    eexists _, []. split; [exact D|]. split; [done|]. rewrite M, O.
    split; [done|]. split; [by left|].
    destruct Hph as [[E Ha]|[(r2 & E & Ha)|(E & Ha & Hd & Ho)]];
      simpl; rewrite E; simpl; eauto 10.
  - (* the closing starts its animations *)
    destruct (resumed_close_animate d y i w Hy) as (D & M & O).
    assert (conts y = pre ++ [close_await_stop] ∧ anims y = [] ∧ i = length pre)
      as (E & Ha & ->).
    { destruct Hpre as [->| ->];
        destruct Hph as [[E Ha]|[(r2 & E & _)|(E & _)]]; rewrite E in Hc;
        destruct i as [|[|i]]; simpl in Hc; try done. }
    eexists _, pre. split; [exact D|]. split; [done|]. rewrite M.
    split; [done|]. split; [done|]. right. left. exists (nextRun w).
    simpl. rewrite E, Ha. split.
    + by destruct Hpre as [->| ->].
    + apply close_animations_run.
  - (* the closing ends *)
    destruct (resumed_close_finish d y i w Hy) as (D & M & O).
    assert (conts y = pre ++ [close_await_animate rc] ∧ anims y = [] ∧ i = length pre)
      as (E & Ha & ->).
    { destruct Hpre as [->| ->];
        destruct Hph as [[E Ha]|[(r2 & E & Ha)|(E & _)]]; rewrite E in Hc;
        destruct i as [|[|i]]; simpl in Hc; try done;
        injection Hc as <-; (split; [done|]); (split; [|done]);
        by apply (settled_all_of_run r2). }
    eexists _, pre. split; [exact D|]. split; [done|]. rewrite M, O.
    split; [done|]. split; [done|]. right. right.
    simpl. rewrite E, Ha. split; [|split; [done|split; [done|set_solver]]].
    by destruct Hpre as [->| ->].
Qed.

Lemma closing_inv_animation_end d r i w :
  closing_inv d r w → closing_inv d r (animation_end d i w).
Proof.
  intros (y & pre & Hy & Hopen & Hmod & Hpre & Hph).
  exists (with_anims (delete i (anims y)) y), pre.
  unfold animation_end. rewrite lookup_update, Hy. simpl.
  split; [done|]. split; [done|]. split; [done|]. split; [done|].
  destruct Hph as [[E Ha]|[(r2 & E & Ha)|(E & Ha & Hd & Ho)]].
  - left. by rewrite Ha.
  - right. left. exists r2. split; [done|].
    apply Forall_forall. intros a Hin. rewrite Forall_forall in Ha. apply Ha.
    by eapply list_elem_of_delete_inv.
  - right. right. by rewrite Ha.
Qed.

Lemma closing_inv_elsewhere e d r w :
  e ≠ SetOpen d true →
  (match e with
   | SetOpen d' _ | FirstUpdate d' | Resume d' _ | AnimationEnd d' _
   | OverlayClick d' | Connect d' | Disconnect d' | Listen d' _ => d' ≠ d
   | Keydown key path => reacts key w d = false
   | Frame | Timer | FocusMoved _ => True
   end) →
  closing_inv d r w → closing_inv d r (step e w).
Proof.
  intros Hne He Hinv. destruct (step_elsewhere e d w Hne He) as (A & B & C).
  apply (closing_inv_ext d r w); [done|apply B|apply C|done].
Qed.

(** Whatever happens, short of a new open intent for the dialog, the
    closing stays within its states. *)
Lemma closing_inv_step e d r w :
  e ≠ SetOpen d true → closing_inv d r w → closing_inv d r (step e w).
Proof.
  intros Hne Hinv. pose proof Hinv as (y & pre & Hy & Hopen & Hmod & Hpre & Hph).
  destruct e as [d0 b|d0|d0 i|d0 i| | |key path|d0|d0|d0|d0 p|t];
    try (destruct (decide (d0 = d)) as [->|Hd0];
         [|by apply closing_inv_elsewhere]);
    try (by apply closing_inv_elsewhere).
  - destruct b; [done|]. simpl. unfold set_open. rewrite Hy, Hopen.
    by rewrite bool_decide_true.
  - simpl. by apply closing_inv_update.
  - by apply closing_inv_resume.
  - by apply closing_inv_animation_end.
  - apply closing_inv_elsewhere; [done| |done].
    unfold reacts. by rewrite Hy, Hopen.
  - simpl. unfold onOverlayClick, emit. rewrite Hy. simpl.
    assert (closing_inv d r (record (emitted d ev_overlay_click) w)) as H'
      by (by apply (closing_inv_ext d r w)).
    destruct (closeOnOverlayClick y); simpl; [|done].
    unfold set_open. simpl. rewrite Hy, Hopen. by rewrite bool_decide_true.
  - simpl. unfold connectedCallback. by apply closing_inv_update.
  - simpl. unfold disconnectedCallback, unlockScreen.
    case_decide; [|done]. apply (closing_inv_ext d r w); try done.
  - simpl. by apply closing_inv_update.
Qed.

Lemma closing_inv_steps es d r w :
  Forall (λ e, e ≠ SetOpen d true) es →
  closing_inv d r w → closing_inv d r (steps es w).
Proof.
  revert w. induction es as [|e es IH]; intros w Hall Hinv; [done|].
  apply Forall_cons in Hall as [He Hall].
  simpl. apply IH; [done|]. by apply closing_inv_step.
Qed.

(** The close intent while the open animations run: they are cancelled. *)
Lemma close_cancels_open_animations w d x r :
  dialogs w !! d = Some x → open x = true → hasUpdated x = true →
  prevents x ev_close = false → conts x = [open_await_animate r] →
  Forall (λ a, an_part a ∈ parts x) (anims x) →
  dialogs (set_open d false w) !! d =
    Some (with_conts [open_await_animate r; close_await_stop]
            (with_anims [] (with_open false x))) ∧
  (d ∉ activeModals (set_open d false w)) ∧
  log (set_open d false w) =
    log w ++ [emitted d ev_close; modal_deactivated d] ++
    (animations_stopped d <$> parts x) ∧
  nextRun (set_open d false w) = nextRun w.
Proof.
  intros Hx Ho Hu Hp Hco Hparts.
  rewrite (set_open_eq d false w x Hx Ho Hu).
  destruct (run_close_effect d (with_open false x) (with_open false x)
              (update d (with_open false) w))
    as (L & D & M & _ & _ & _ & _ & _ & N); [by rewrite lookup_update, Hx|done|].
  split; [|split; [|split; [exact L|exact N]]].
  - rewrite D. simpl. rewrite Hco. f_equal.
    unfold with_conts, with_anims. simpl. f_equal.
    apply filter_none. intros a Ha Hnot. apply Hnot.
    rewrite Forall_forall in Hparts. by apply Hparts.
  - rewrite M. simpl. intros Hin. by apply list_elem_of_filter in Hin as [Hne _].
Qed.

(** All running animations of a dialog end, one after the other. *)
Lemma animation_end_all n : ∀ w d y,
  dialogs w !! d = Some y → length (anims y) = n →
  dialogs (steps (replicate n (AnimationEnd d 0)) w) !! d = Some (with_anims [] y).
Proof.
  induction n as [|n IH]; intros w d y Hy Hlen.
  - simpl. rewrite Hy. f_equal. destruct y; simpl in *.
    by apply nil_length_inv in Hlen as ->.
  - destruct (anims y) as [|a l] eqn:Ha; [done|].
    simpl. unfold animation_end.
    erewrite (IH _ d (with_anims l y)).
    + done.
    + rewrite lookup_update, Hy. simpl. by rewrite Ha.
    + simpl in *. lia.
Qed.

(** The closing does come to its end. *)
Lemma settle_close_quiescent w d x r :
  dialogs w !! d = Some x → open x = true → hasUpdated x = true →
  prevents x ev_close = false → conts x = [open_await_animate r] →
  Forall (λ a, an_part a ∈ parts x) (anims x) →
  quiescent (steps (settle_close d x) (set_open d false w)) d.
Proof.
  intros Hx Ho Hu Hp Hco Hparts.
  destruct (close_cancels_open_animations w d x r Hx Ho Hu Hp Hco Hparts)
    as (D1 & _ & _ & _).
  set (w1 := set_open d false w) in *.
  unfold settle_close, steps. rewrite !foldl_app. fold (steps).
  change (foldl (λ w e, step e w) w1 [Resume d 1]) with (resume d 1 w1).
  (* the closing animations start *)
  erewrite (resume_eq d 1 w1) by (first [exact D1 | reflexivity]).
  cbn [settled continue].
  match goal with
  | |- context [run_close_animate d ?X (update d ?F w1)] =>
      destruct (resumed_close_animate d X 1 w1 D1) as (D2 & _)
  end.
  cbv zeta in D2.
  match type of D2 with
  | dialogs ?W !! d = Some ?Y =>
      set (w2 := W) in *; set (y2 := Y) in *
  end.
  (* they end *)
  pose proof (animation_end_all (3 + length (children x)) w2 d y2 D2) as D3.
  unfold steps in D3.
  match type of D3 with _ → dialogs ?W !! d = _ => set (w3 := W) in * end.
  assert (dialogs w3 !! d = Some (with_anims [] y2)) as D3'.
  { apply D3. unfold y2, close_animations. simpl. by rewrite length_fmap. }
  clear D3.
  (* the closing goes on to its end, then the opening emits [opened] *)
  simpl.
  erewrite (resume_eq d 1 w3) by (first [exact D3' | reflexivity]).
  cbn [settled anims with_anims forallb continue].
  match goal with
  | |- context [run_close_finish d ?X (update d ?F w3)] =>
      destruct (resumed_close_finish d X 1 w3 D3') as (D4 & _)
  end.
  cbv zeta in D4.
  match type of D4 with dialogs ?W !! d = _ => set (w4 := W) in * end.
  erewrite (resume_eq d 0 w4) by (first [exact D4 | reflexivity]).
  cbn [settled anims with_anims with_display with_conts forallb continue].
  match goal with
  | |- context [run_open_finish d ?X (update d ?F w4)] =>
      destruct (resumed_open_finish d X 0 w4 D4) as (D5 & _)
  end.
  cbv zeta in D5.
  eexists. split; [exact D5|]. done.
Qed.

(** C6. When the close intent is set on a dialog whose open animations are
    still running (and the [close] event is not prevented), the close
    branch cancels them all with [stopAnimations] before it starts any
    animation of its own, which it does only once they have stopped; from
    then on, whatever happens on the page short of a new open intent for
    this dialog, no element of the dialog ever carries animations of two
    transitions, and whenever nothing of the dialog is in flight any more
    the dialog is inactive; and it does get there: when the closing
    animations have ended the transition runs to its end, which leaves the
    dialog inactive with no animation running. *)
Theorem close_during_open_animation (w : World) (d r : nat) (x : Dialog)
    (es : list Event) :
  dialogs w !! d = Some x → open x = true → hasUpdated x = true →
  prevents x ev_close = false → conts x = [open_await_animate r] →
  anims x ≠ [] → Forall (λ a, an_part a ∈ parts x) (anims x) →
  Forall (λ e, e ≠ SetOpen d true) es →
  (anims <$> dialogs (set_open d false w) !! d) = Some [] ∧
  log (set_open d false w) =
    log w ++ [emitted d ev_close; modal_deactivated d] ++
    (animations_stopped d <$> parts x) ∧
  log (resume d 1 (set_open d false w)) =
    log (set_open d false w) ++
    (animation_started d <$> close_animations x (nextRun w)) ∧
  no_conflict (steps es (set_open d false w)) d ∧
  (quiescent (steps es (set_open d false w)) d →
   inactive (steps es (set_open d false w)) d) ∧
  inactive (steps (settle_close d x) (set_open d false w)) d.
Proof.
  intros Hx Ho Hu Hp Hco _ Hparts Hes.
  destruct (close_cancels_open_animations w d x r Hx Ho Hu Hp Hco Hparts)
    as (D1 & M1 & L1 & N1).
  assert (closing_inv d r (set_open d false w)) as Hinv.
  { eexists _, [open_await_animate r]. split; [exact D1|]. split; [done|].
    split; [done|]. split; [by right|]. by left. }
  split; [by rewrite D1|]. split; [exact L1|]. split; [|split; [|split]].
  - erewrite (resume_eq d 1 (set_open d false w)) by (first [exact D1 | reflexivity]).
    cbn [settled continue].
    match goal with
    | |- context [run_close_animate d ?X ?W] =>
        destruct (run_close_animate_effect d X
                    (with_conts (delete 1 (conts X)) X) W) as (L2 & _)
    end.
    { by rewrite lookup_update, D1. }
    rewrite L2. simpl. by rewrite N1.
  - apply (closing_inv_no_conflict d r). by apply closing_inv_steps.
  - apply (closing_inv_quiescent d r). by apply closing_inv_steps.
  - apply (closing_inv_quiescent d r).
    + apply closing_inv_steps; [|done].
      unfold settle_close. apply Forall_app. split; [by repeat constructor|].
      apply Forall_app. split; [|by repeat constructor].
      apply Forall_replicate. done.
    + by apply (settle_close_quiescent w d x r).
Qed.

Lemma close_during_open_animation_witness :
  inactive (steps (settle_close 1 (rendered_dialog no_listener))
              (set_open 1 false opening_page)) 1 ∧
  no_conflict (steps [Resume 1 1; Frame; Resume 1 0; AnimationEnd 1 1]
                 (set_open 1 false opening_page)) 1.
Proof.
  destruct (close_during_open_animation opening_page 1 0
              (with_conts [open_await_animate 0]
                 (with_anims
                    [ {| an_part := panel; an_keyframes := panel_scale_in; an_run := 0 |};
                      {| an_part := child 0; an_keyframes := child_fade_in; an_run := 0 |} ]
                    (shown_dialog (element button))))
              [Resume 1 1; Frame; Resume 1 0; AnimationEnd 1 1])
    as (_ & _ & _ & Hnc & _ & Hin).
  - by vm_compute.
  - reflexivity.
  - reflexivity.
  - reflexivity.
  - reflexivity.
  - discriminate.
  - apply (bool_decide_unpack _). by vm_compute.
  - repeat constructor; discriminate.
  - split; [exact Hin | exact Hnc].
Defined.

End DialogFacts.

(* ===================================================================== *)
(** * Further properties of the code                                      *)
(* ===================================================================== *)

(** ** [$.fn.extend]: how registrations compose *)

Module PluginMore.
Import Plugin.

Section Facts.
Context {Fn : Type}.
Variable assign_inherited : Fn → string → Fn → Table Fn → option (Table Fn).
Implicit Types (obj : PlainObject Fn) (fn : Table Fn) (m : gmap string Fn).

Lemma entry_of_not_elem obj name : name ∉ obj.*1 → entry_of obj name = None.
Proof.
  intros Hnot. destruct (entry_of obj name) eqn:E; [|done].
  exfalso. apply Hnot. apply PluginFacts.entry_of_Some_elem. by rewrite E.
Qed.

Lemma install_ordinary obj m :
  ordinary obj → m !! "__proto__" = None → install obj m !! "__proto__" = None.
Proof.
  intros Hord Hm. rewrite PluginFacts.install_lookup.
  by rewrite (entry_of_not_elem obj "__proto__" Hord).
Qed.

(** While [$.fn] has the prototype it was created with, registering a
    mapping that has no entry named [__proto__] never throws and installs
    each of its entries as a capability that every Collection sees;
    registering a name again replaces the implementation, so after
    [extend({n: f})] and [extend({n: g})] the capability [n] is [g];
    registering one mapping twice gives what registering it once gives; and
    a capability the mapping does not name is left as it is. *)
Theorem extend_last_writer_wins obj fn (c : Collection)
    (name n : string) (value f g : Fn) :
  proto fn = None → ordinary obj → n ≠ "__proto__" →
  (∃ fn', extend assign_inherited obj fn = Some fn' ∧ proto fn' = None ∧
     (NoDup obj.*1 → (name, value) ∈ obj → capability fn' c name = Some value) ∧
     (name ∉ obj.*1 → capability fn' c name = capability fn c name) ∧
     extend assign_inherited obj fn' = Some fn') ∧
  (extend assign_inherited [(n, f)] fn ≫= extend assign_inherited [(n, g)] =
     extend assign_inherited [(n, g)] fn) ∧
  (∃ fn', extend assign_inherited [(n, f)] fn ≫= extend assign_inherited [(n, g)]
            = Some fn' ∧ capability fn' c n = Some g).
Proof.
  intros Hp Hord Hn.
  assert (ordinary [(n, f)] ∧ ordinary [(n, g)]) as [Hf Hg].
  { unfold ordinary. simpl.
    split; intros Hin; apply list_elem_of_singleton in Hin; congruence. }
  split; [|split].
  - eexists. split; [by apply PluginFacts.extend_ordinary|].
    split; [done|]. unfold capability. simpl. split; [|split].
    + intros Hnd Hin. rewrite PluginFacts.install_lookup.
      by rewrite (PluginFacts.entry_of_NoDup _ _ _ Hnd Hin).
    + intros Hnot. rewrite PluginFacts.install_lookup.
      by rewrite (entry_of_not_elem obj name Hnot).
    + rewrite PluginFacts.extend_ordinary by done. simpl.
      by rewrite PluginFacts.install_idempotent.
  - rewrite (PluginFacts.extend_ordinary _ [(n, f)] fn Hp Hf). simpl.
    rewrite !PluginFacts.extend_ordinary by done. simpl.
    unfold install. simpl. by rewrite insert_insert_eq.
  - rewrite (PluginFacts.extend_ordinary _ [(n, f)] fn Hp Hf). simpl.
    rewrite PluginFacts.extend_ordinary by done.
    eexists. split; [done|]. unfold capability, install. simpl.
    apply lookup_insert_eq.
Qed.


(** A registration without an entry named [__proto__] never removes a
    capability, while [$.fn] has the prototype it was created with: the
    names [$.fn] holds afterwards are the names it held and the names of
    the mapping, and its prototype is still the one it was created with. *)
Theorem extend_names obj fn :
  proto fn = None → ordinary obj →
  ∃ fn', extend assign_inherited obj fn = Some fn' ∧ proto fn' = None ∧
         dom (own fn') = dom (own fn) ∪ list_to_set obj.*1.
Proof.
  intros Hp Hord. eexists. split; [by apply PluginFacts.extend_ordinary|].
  split; [done|]. simpl.
  apply set_eq. intros name.
  rewrite elem_of_union, !elem_of_dom, elem_of_list_to_set.
  rewrite PluginFacts.install_lookup. split.
  - destruct (entry_of obj name) as [v|] eqn:E; [|by left].
    intros _. right. apply PluginFacts.entry_of_Some_elem. by rewrite E.
  - intros [Hfn|Hin].
    + by destruct (entry_of obj name).
    + destruct (entry_of obj name) as [v|] eqn:E; [done|].
      exfalso. revert Hin. clear -E.
      induction obj as [|[prop w] rest IH]; simpl in *.
      * by intros ?%elem_of_nil.
      * destruct (entry_of rest name); [done|].
        case_decide; [done|]. intros [?|?]%elem_of_cons; [congruence|by apply IH].
Qed.

End Facts.

Lemma extend_last_writer_wins_witness :
  ∃ fn', extend function_prototype [("show", 1)] demo_table
           ≫= extend function_prototype [("show", 2)] = Some fn' ∧
         capability fn' {| nodes := [4] |} "show" = Some 2.
Proof.
  apply (extend_last_writer_wins function_prototype
           [("hide", 1); ("show", 2)] demo_table {| nodes := [4] |}
           "show" "show" 2 1 2 eq_refl).
  - apply (bool_decide_unpack _). by vm_compute.
  - discriminate.
Defined.


Lemma extend_names_witness :
  ∃ fn', extend function_prototype [("hide", 1); ("show", 2)] demo_table = Some fn' ∧
         proto fn' = None ∧
         dom (own fn') = dom (own demo_table) ∪ list_to_set [("hide", 1); ("show", 2)].*1.
Proof.
  apply (extend_names function_prototype [("hide", 1); ("show", 2)] demo_table eq_refl).
  apply (bool_decide_unpack _). by vm_compute.
Defined.

End PluginMore.

(** ** The declarative trigger: what a click writes *)

Module TriggerMore.
Import Trigger.

Section Facts.
Variable parseOptions : string → gmap string string.
Variable dom : option string → list nat.

Abbreviation click := (on_click parseOptions dom).
Abbreviation clicks := (on_clicks parseOptions dom).
Abbreviation target := (target_of parseOptions dom).
Abbreviation key := ("mdui.dialog"%string).

(** What one click leaves as it is. *)
Lemma click_keeps a s n :
  target a = Some n →
  ∃ s', click a s = Some s' ∧
    (∀ k, k ≠ (n, key) → store s' !! k = store s !! k) ∧
    (∀ k i, store s !! k = Some i → store s' !! k = Some i) ∧
    (∀ i c, constructed s !! i = Some c → constructed s' !! i = Some c).
Proof.
  intros Ht. destruct (getData n key s) as [inst|] eqn:Hg.
  - exists (call_open inst s). by rewrite (TriggerFacts.click_reuse _ _ _ _ _ _ Ht Hg).
  - eexists. rewrite (TriggerFacts.click_first _ _ _ _ _ Ht Hg). simpl.
    split; [done|]. simpl. split; [|split].
    + intros k Hk. by rewrite lookup_insert_ne.
    + intros k i Hk. rewrite lookup_insert_ne; [done|]. unfold getData in Hg. congruence.
    + intros i c Hc. by apply lookup_app_l_Some.
Qed.

Lemma clicks_keep l : ∀ s,
  Forall (λ a, is_Some (target a)) l →
  ∃ s', clicks l s = Some s' ∧
    (∀ k i, store s !! k = Some i → store s' !! k = Some i) ∧
    (∀ i c, constructed s !! i = Some c → constructed s' !! i = Some c) ∧
    (∀ n, Forall (λ b, target b ≠ Some n) l →
          store s' !! (n, key) = store s !! (n, key)).
Proof.
  induction l as [|a l IH]; intros s Hall.
  - exists s. by repeat split.
  - apply Forall_cons in Hall as [[m Hm] Hall].
    destruct (click_keeps a s m Hm) as (s1 & Hs1 & Ho1 & Hst1 & Hc1).
    destruct (IH s1 Hall) as (s2 & Hs2 & Hst2 & Hc2 & Ho2).
    exists s2. simpl. rewrite Hs1. split; [done|].
    split; [by auto|]. split; [by auto|].
    intros n Hn. apply Forall_cons in Hn as [Hna Hn].
    rewrite (Ho2 n Hn). apply Ho1. congruence.
Qed.

Lemma clicks_app l1 l2 s :
  clicks (l1 ++ l2) s =
    match clicks l1 s with
    | Some s1 => clicks l2 s1
    | None => None
    end.
Proof.
  revert s. induction l1 as [|a l1 IH]; intros s; simpl; [done|].
  destruct (click a s); [apply IH|done].
Qed.

(** A click writes at most one entry of the data store: the one of its
    target under ['mdui.dialog'], and that only when there was none. All
    other entries, whatever their key, and an entry that is already there
    are left as they are; and no controller built before is replaced. *)
Theorem click_writes_one_entry (a : string) (s : State) (n : nat) :
  target a = Some n →
  ∃ s', click a s = Some s' ∧
    (∀ k, k ≠ (n, key) → store s' !! k = store s !! k) ∧
    (∀ k i, store s !! k = Some i → store s' !! k = Some i) ∧
    (∀ i c, constructed s !! i = Some c → constructed s' !! i = Some c).
Proof. apply click_keeps. Qed.

(** The controller of a node is built with the options of the first
    trigger activated for the node, without their [target]; what later
    triggers for the same node carry as options is not used. *)
Theorem controller_keeps_first_options (pre post : list string) (a : string)
    (n : nat) :
  Forall (λ b, is_Some (target b)) (pre ++ a :: post) →
  target a = Some n →
  Forall (λ b, target b ≠ Some n) pre →
  ∃ s inst c, clicks (pre ++ a :: post) init = Some s ∧
    getData n key s = Some inst ∧ constructed s !! inst = Some c ∧
    ctl_node c = n ∧
    ctl_options c = delete "target" (parseOptions a) ∧
    ctl_options c !! "target" = None.
Proof.
  intros Hall Ha Hpre.
  apply Forall_app in Hall as [Hall1 Hall2].
  apply Forall_cons in Hall2 as [_ Hall2].
  destruct (clicks_keep pre init Hall1) as (s1 & Hs1 & _ & _ & Ho1).
  assert (getData n key s1 = None) as Hg1.
  { unfold getData. rewrite (Ho1 n Hpre). apply lookup_empty. }
  pose proof (TriggerFacts.click_first _ _ a s1 n Ha Hg1) as Hs2.
  match type of Hs2 with _ = Some ?S => set (s2 := S) in * end.
  destruct (clicks_keep post s2 Hall2) as (s3 & Hs3 & Hst3 & Hc3 & _).
  exists s3, (length (constructed s1)),
    {| ctl_node := n; ctl_options := delete "target" (parseOptions a) |}.
  split.
  - rewrite clicks_app, Hs1. simpl. by rewrite Hs2.
  - split; [|split; [|split; [done|split; [done|apply lookup_delete_eq]]]].
    + apply Hst3. unfold s2. simpl. apply lookup_insert_eq.
    + apply Hc3. unfold s2. simpl. by rewrite lookup_app_r, Nat.sub_diag.
Qed.

End Facts.

Lemma click_writes_one_entry_witness :
  ∃ s', on_click (Options.parseOptions Options.comma_entries Options.colon_entry)
          demo_dom "target:#a" init = Some s' ∧
        store s' !! (20, "other") = None.
Proof.
  destruct (click_writes_one_entry
              (Options.parseOptions Options.comma_entries Options.colon_entry)
              demo_dom "target:#a" init 10) as (s' & Hs & Ho & _).
  - by vm_compute.
  - exists s'. split; [exact Hs|]. rewrite Ho; [apply lookup_empty|discriminate].
Defined.

Lemma controller_keeps_first_options_witness :
  ∃ s inst c,
    on_clicks (Options.parseOptions Options.comma_entries Options.colon_entry)
      demo_dom ["target:#b"; "target:#a,modal:true"; "target:#a,modal:false"] init
      = Some s ∧
    getData 10 "mdui.dialog" s = Some inst ∧ constructed s !! inst = Some c ∧
    ctl_options c !! "modal" = Some "true"%string.
Proof.
  destruct (controller_keeps_first_options
              (Options.parseOptions Options.comma_entries Options.colon_entry)
              demo_dom ["target:#b"] ["target:#a,modal:false"]
              "target:#a,modal:true" 10)
    as (s & inst & c & Hs & Hg & Hc & _ & Ho & _).
  - apply (bool_decide_unpack _). by vm_compute.
  - by vm_compute.
  - repeat constructor. by vm_compute.
  - exists s, inst, c. split; [exact Hs|]. split; [exact Hg|]. split; [exact Hc|].
    rewrite Ho. by vm_compute.
Defined.

End TriggerMore.

(** ** The Dialog component: further properties *)

Module DialogMore.
Import Dialog DialogFacts.

#[local] Arguments stop_each : simpl never.
#[local] Arguments animate_children : simpl never.
#[local] Arguments lockScreen : simpl never.
#[local] Arguments unlockScreen : simpl never.
#[local] Arguments run : simpl never.
#[local] Arguments onOpenChange : simpl never.
#[local] Arguments set_open : simpl never.
#[local] Arguments resume : simpl never.
#[local] Arguments dispatch_keydown : simpl never.
#[local] Arguments focus_is_function : simpl never.
#[local] Arguments run_open : simpl never.
#[local] Arguments run_open_animate : simpl never.
#[local] Arguments run_open_finish : simpl never.
#[local] Arguments run_close : simpl never.
#[local] Arguments run_close_animate : simpl never.
#[local] Arguments run_close_finish : simpl never.
#[local] Arguments focus_callback : simpl never.
#[local] Arguments open_animations : simpl never.
#[local] Arguments close_animations : simpl never.

(** *** A prevented close *)

(** When a listener prevents the cancelable [close] event of a rendered
    dialog whose [open] property is set to [false], the close branch stops
    right after the event: the dialog stays shown, on the stack, with its
    unit of the scroll lock and its running animations; only the event is
    emitted, and the property stays [false]. *)
Theorem prevented_close_keeps_dialog (w : World) (d : nat) (x : Dialog) :
  dialogs w !! d = Some x → open x = true → hasUpdated x = true →
  prevents x ev_close = true →
  set_open d false w = record (emitted d ev_close) (update d (with_open false) w) ∧
  dialogs (set_open d false w) !! d = Some (with_open false x) ∧
  activeModals (set_open d false w) = activeModals w ∧
  lockCount (set_open d false w) = lockCount w ∧
  lockOwners (set_open d false w) = lockOwners w ∧
  activeElement (set_open d false w) = activeElement w ∧
  timers (set_open d false w) = timers w.
Proof.
  intros Hx Ho Hu Hp. rewrite (set_open_eq d false w x Hx Ho Hu).
  unfold run_close, emit. simpl. rewrite Hp. simpl.
  by rewrite lookup_alter_eq, Hx.
Qed.

Lemma prevented_close_keeps_dialog_witness :
  activeModals (set_open 1 false held_page) = [1].
Proof.
  destruct (prevented_close_keeps_dialog held_page 1
              (with_prevents (λ _, true) (shown_dialog (element button))))
    as (_ & _ & H & _).
  - reflexivity.
  - reflexivity.
  - reflexivity.
  - reflexivity.
  - exact H.
Defined.

(** *** Keys that close nothing *)

(** A keydown that is not the Escape key changes nothing, whatever its
    path; nor does an Escape keydown on whose path no dialog is open with
    [closeOnEsc] and a listener: no propagation is stopped, no property is
    written. *)
Theorem keydown_without_reaction (key : string) (path : list nat) (w : World) :
  (key ≠ "Escape" → dispatch_keydown key path w = w) ∧
  ((∀ d, d ∈ path → reacts key w d = false) → dispatch_keydown key path w = w).
Proof.
  assert ((∀ d, d ∈ path → reacts key w d = false) →
          dispatch_keydown key path w = w) as Hnone.
  { intros Hno. rewrite dispatch_keydown_find.
    destruct (find (reacts key w) path) as [d|] eqn:Hf; [|done].
    apply find_some in Hf as [Hin Hr]. apply list_elem_of_In in Hin.
    by rewrite (Hno d Hin) in Hr. }
  split; [|exact Hnone].
  intros Hkey. apply Hnone. intros d _. unfold reacts.
  destruct (dialogs w !! d) as [x|]; [|done].
  rewrite (bool_decide_false (key = "Escape")) by done.
  by rewrite andb_false_r.
Qed.

Lemma keydown_without_reaction_witness :
  dispatch_keydown "Enter" [2; 1] stacked_page = stacked_page.
Proof.
  apply (proj1 (keydown_without_reaction "Enter" [2; 1] stacked_page)).
  discriminate.
Defined.

(** *** Connecting more than once *)

Lemma listeners_on_connected n : ∀ d w,
  is_Some (dialogs w !! d) →
  listeners_on d (Nat.iter n (connectedCallback d) w) = n + listeners_on d w.
Proof.
  induction n as [|n IH]; intros d w Hd; [done|].
  rewrite Nat.iter_succ. unfold connectedCallback at 1, listeners_on at 1.
  rewrite lookup_update.
  assert (is_Some (dialogs (Nat.iter n (connectedCallback d) w) !! d)) as [y Hy].
  { clear IH. induction n as [|n IHn]; [done|].
    rewrite Nat.iter_succ. unfold connectedCallback at 1.
    rewrite lookup_update. destruct IHn as [y ->]. by eexists. }
  specialize (IH d w Hd). unfold listeners_on in IH at 1. rewrite Hy in IH.
  rewrite Hy. simpl. lia.
Qed.

(** [connectedCallback] adds a keydown listener each time it runs and
    [disconnectedCallback] removes none, so a dialog connected [n] times
    has [n] listeners more. The listeners of a dialog nevertheless handle a
    keydown as one listener does: the first that closes the dialog stops
    the propagation, and the others find the dialog closed. *)
Theorem repeated_connect_handles_key_once (n : nat) (d : nat) (key : string)
    (w : World) :
  (is_Some (dialogs w !! d) →
   listeners_on d (Nat.iter n (connectedCallback d) w) = n + listeners_on d w) ∧
  listeners_on d (disconnectedCallback d w) = listeners_on d w ∧
  (0 < n →
   Nat.iter n (keydown_listener d key) (false, w) = keydown_listener d key (false, w)).
Proof.
  split; [apply listeners_on_connected|]. split.
  - unfold disconnectedCallback, unlockScreen, listeners_on. by case_decide.
  - intros Hn. rewrite keydown_listeners_run.
    rewrite (bool_decide_true (0 < n)) by done. simpl.
    unfold keydown_listener. simpl.
    destruct (dialogs w !! d) as [x|]; [|done].
    by destruct (open x && closeOnEsc x && bool_decide (key = "Escape")).
Qed.

Lemma repeated_connect_handles_key_once_witness :
  listeners_on 1 (Nat.iter 3 (connectedCallback 1) opened_page) = 4 ∧
  Nat.iter 4 (keydown_listener 1 "Escape") (false, opened_page) =
    keydown_listener 1 "Escape" (false, opened_page).
Proof.
  destruct (repeated_connect_handles_key_once 3 1 "Escape" opened_page) as (H1 & _).
  destruct (repeated_connect_handles_key_once 4 1 "Escape" opened_page) as (_ & _ & H2).
  split; [rewrite H1; [by vm_compute|] | apply H2; lia].
  apply (bool_decide_unpack _). by vm_compute.
Defined.

(** *** One dialog among others *)

Lemma keydown_off_path key path d w :
  d ∉ path →
  dialogs (dispatch_keydown key path w) !! d = dialogs w !! d ∧
  (d ∈ activeModals (dispatch_keydown key path w) ↔ d ∈ activeModals w) ∧
  (d ∈ lockOwners (dispatch_keydown key path w) ↔ d ∈ lockOwners w).
Proof.
  intros Hd. rewrite dispatch_keydown_find.
  destruct (find (reacts key w) path) as [d'|] eqn:Hf; [|done].
  apply find_some in Hf as [Hin _]. apply list_elem_of_In in Hin.
  assert (d ≠ d') as Hne by (intros ->; done).
  destruct (acts_on_set_open d' false (record (propagation_stopped d') w)
              (record (propagation_stopped d') w) (acts_on_refl _ _))
    as (A & B & C).
  split; [by apply A|]. split; [by apply B|by apply C].
Qed.

Lemma step_off_dialog e d w :
  elsewhere e d →
  dialogs (step e w) !! d = dialogs w !! d ∧
  (d ∈ activeModals (step e w) ↔ d ∈ activeModals w) ∧
  (d ∈ lockOwners (step e w) ↔ d ∈ lockOwners w).
Proof.
  intros He. destruct e as [d0 b|d0|d0 i|d0 i| | |key path|d0|d0|d0|d0 p|t];
    try (apply step_elsewhere; [simpl in He; congruence | exact He]);
    try (by apply step_elsewhere).
  by apply keydown_off_path.
Qed.

(** Whatever happens to other dialogs (intents, continuations, animations
    ending, clicks, connections, keys that do not pass it) and whatever
    frames and timers run, a dialog keeps its state, its place on the
    stack and its unit of the scroll lock. *)
Theorem other_dialogs_leave_dialog_alone (es : list Event) (d : nat) (w : World) :
  Forall (λ e, elsewhere e d) es →
  dialogs (steps es w) !! d = dialogs w !! d ∧
  (d ∈ activeModals (steps es w) ↔ d ∈ activeModals w) ∧
  (d ∈ lockOwners (steps es w) ↔ d ∈ lockOwners w).
Proof.
  revert w. induction es as [|e es IH]; intros w Hall; [done|].
  apply Forall_cons in Hall as [He Hall].
  destruct (step_off_dialog e d w He) as (A & B & C).
  destruct (IH (step e w) Hall) as (A' & B' & C').
  simpl. rewrite A', B', C'. done.
Qed.

Lemma other_dialogs_leave_dialog_alone_witness :
  dialogs (steps (close_fully 2) stacked_page) !! 1 = dialogs stacked_page !! 1.
Proof.
  apply (other_dialogs_leave_dialog_alone (close_fully 2) 1 stacked_page).
  repeat constructor; discriminate.
Defined.

(** *** The stack of overlay contexts *)

Lemma run_open_stack d x w :
  activeModals (run_open d x w) =
    if prevents x ev_open then activeModals w else activeModals w ++ [d].
Proof.
  unfold run_open, emit, stop_all, suspend, modal_activate, lockScreen. simpl.
  destruct (prevents x ev_open); [done|].
  rewrite stop_each_eq. simpl. destruct (topAppBar x); simpl; by case_decide.
Qed.

(** An opening that is not prevented makes the dialog the topmost overlay
    context, above whatever is on the stack; a closing that is not
    prevented takes the contexts of the dialog off the stack and leaves the
    others in their order. So opening a dialog and closing it again gives
    back the stack as it was, even before any animation has run. *)
Theorem open_then_close_restores_stack (w : World) (d : nat) (x : Dialog) :
  dialogs w !! d = Some x → open x = false → hasUpdated x = true →
  prevents x ev_open = false → prevents x ev_close = false →
  activeModals (set_open d true w) = activeModals w ++ [d] ∧
  topmost (set_open d true w) = Some d ∧
  activeModals (set_open d false (set_open d true w)) =
    filter (λ m, m ≠ d) (activeModals w) ∧
  (d ∉ activeModals w →
   activeModals (set_open d false (set_open d true w)) = activeModals w).
Proof.
  intros Hx Ho Hu Hpo Hpc.
  assert (activeModals (set_open d true w) = activeModals w ++ [d]) as Hopen.
  { rewrite (set_open_eq d true w x Hx Ho Hu), run_open_stack. simpl.
    by rewrite Hpo. }
  destruct (set_open_lookup d true w x Hx) as (x1 & Hx1 & Ho1 & Hp1).
  destruct Hp1 as (_ & _ & Hu1 & _ & _ & _ & _ & Hpr1).
  assert (activeModals (set_open d false (set_open d true w)) =
          filter (λ m, m ≠ d) (activeModals w)) as Hclose.
  { rewrite (set_open_eq d false _ x1 Hx1 Ho1) by congruence.
    destruct (run_close_effect d (with_open false x1) (with_open false x1)
                (update d (with_open false) (set_open d true w)))
      as (_ & _ & M & _).
    - by rewrite lookup_update, Hx1.
    - simpl. by rewrite Hpr1.
    - rewrite M. simpl. rewrite Hopen, filter_app.
      rewrite (filter_cons_False _ d []) by (intros Hne; by apply Hne).
      by rewrite filter_nil, app_nil_r. }
  split; [done|]. split; [unfold topmost; by rewrite Hopen, last_snoc|].
  split; [done|]. intros Hnot. rewrite Hclose.
  apply filter_all. intros m Hm ->. done.
Qed.

Lemma open_then_close_restores_stack_witness :
  activeModals (set_open 2 false (set_open 2 true opened_page)) = [1].
Proof.
  destruct (open_then_close_restores_stack opened_page 2 (rendered_dialog no_listener))
    as (_ & _ & _ & H).
  - by vm_compute.
  - reflexivity.
  - reflexivity.
  - reflexivity.
  - reflexivity.
  - rewrite H; [by vm_compute|]. apply (bool_decide_unpack _). by vm_compute.
Defined.

(** *** A whole cycle *)

Lemma animation_end_all_shared n : ∀ w d,
  activeElement (steps (replicate n (AnimationEnd d 0)) w) = activeElement w ∧
  activeModals (steps (replicate n (AnimationEnd d 0)) w) = activeModals w ∧
  lockCount (steps (replicate n (AnimationEnd d 0)) w) = lockCount w ∧
  lockOwners (steps (replicate n (AnimationEnd d 0)) w) = lockOwners w ∧
  frames (steps (replicate n (AnimationEnd d 0)) w) = frames w ∧
  timers (steps (replicate n (AnimationEnd d 0)) w) = timers w ∧
  nextRun (steps (replicate n (AnimationEnd d 0)) w) = nextRun w ∧
  log (steps (replicate n (AnimationEnd d 0)) w) = log w.
Proof.
  induction n as [|n IH]; intros w d; [done|].
  destruct (IH (animation_end d 0 w) d) as (A & B & C & D & E & F & G & H).
  simpl. by rewrite A, B, C, D, E, F, G, H.
Qed.

Lemma focus_callbacks_shared l : ∀ w,
  dialogs (foldl (λ w d, focus_callback d w) w l) = dialogs w ∧
  activeModals (foldl (λ w d, focus_callback d w) w l) = activeModals w ∧
  lockCount (foldl (λ w d, focus_callback d w) w l) = lockCount w ∧
  lockOwners (foldl (λ w d, focus_callback d w) w l) = lockOwners w ∧
  frames (foldl (λ w d, focus_callback d w) w l) = frames w ∧
  timers (foldl (λ w d, focus_callback d w) w l) = timers w.
Proof.
  induction l as [|d l IH]; intros w; [done|].
  destruct (IH (focus_callback d w)) as (A & B & C & D & E & F).
  simpl. rewrite A, B, C, D, E, F.
  unfold focus_callback, focus.
  destruct (dialogs w !! d) as [x|]; [|done]. by destruct (autofocus x).
Qed.

(** The animation frame after an opening has queued its callback: the
    focus is where the callback of the dialog puts it, whatever other
    callbacks ran before. *)
Lemma frame_effect w d x l :
  dialogs w !! d = Some x → frames w = l ++ [d] →
  dialogs (frame w) = dialogs w ∧
  activeElement (frame w) = Some (focus_target d x) ∧
  activeModals (frame w) = activeModals w ∧
  lockCount (frame w) = lockCount w ∧
  lockOwners (frame w) = lockOwners w ∧
  frames (frame w) = [] ∧ timers (frame w) = timers w.
Proof.
  intros Hx Hf. unfold frame. rewrite Hf, foldl_app. simpl.
  destruct (focus_callbacks_shared l (with_frames [] w)) as (A & B & C & D & E & F).
  rewrite (focus_callback_eq d _ x) by (by rewrite A).
  unfold focus. simpl. by rewrite A, B, C, D, E, F.
Qed.

Lemma resume_open_animate w d y :
  dialogs w !! d = Some y → conts y = [open_await_stop] →
  dialogs (resume d 0 w) !! d =
    Some (with_conts [open_await_animate (nextRun w)]
            (with_anims (anims y ++ open_animations y (nextRun w)) y)) ∧
  frames (resume d 0 w) = frames w ++ [d] ∧
  activeElement (resume d 0 w) = activeElement w ∧
  activeModals (resume d 0 w) = activeModals w ∧
  lockCount (resume d 0 w) = lockCount w ∧
  lockOwners (resume d 0 w) = lockOwners w ∧
  timers (resume d 0 w) = timers w.
Proof.
  intros Hy Hc.
  rewrite (resume_eq d 0 w y open_await_stop Hy) by (by rewrite Hc).
  cbn [settled continue].
  destruct (run_open_animate_effect d y (with_conts (delete 0 (conts y)) y)
              (update d (λ x, with_conts (delete 0 (conts x)) x) w))
    as (_ & D & F & A & M & C & O & T & _); [by rewrite lookup_update, Hy|].
  rewrite D, F, A, M, C, O, T. rewrite Hc. done.
Qed.

Lemma resume_open_finish w d y r :
  dialogs w !! d = Some y → conts y = [open_await_animate r] → anims y = [] →
  dialogs (resume d 0 w) !! d = Some (with_conts [] y) ∧
  log (resume d 0 w) = log w ++ [emitted d ev_opened] ∧
  frames (resume d 0 w) = frames w ∧
  activeElement (resume d 0 w) = activeElement w ∧
  activeModals (resume d 0 w) = activeModals w ∧
  lockCount (resume d 0 w) = lockCount w ∧
  lockOwners (resume d 0 w) = lockOwners w ∧
  timers (resume d 0 w) = timers w.
Proof.
  intros Hy Hc Ha.
  rewrite (resume_eq d 0 w y (open_await_animate r) Hy) by (by rewrite Hc).
  cbn [settled continue]. rewrite Ha. cbn [forallb].
  unfold run_open_finish, emit. simpl. rewrite lookup_alter_eq, Hy. simpl.
  by rewrite Hc.
Qed.

Lemma resume_close_animate w d y :
  dialogs w !! d = Some y → conts y = [close_await_stop] →
  dialogs (resume d 0 w) !! d =
    Some (with_conts [close_await_animate (nextRun w)]
            (with_anims (anims y ++ close_animations y (nextRun w)) y)) ∧
  frames (resume d 0 w) = frames w ∧
  activeElement (resume d 0 w) = activeElement w ∧
  activeModals (resume d 0 w) = activeModals w ∧
  lockCount (resume d 0 w) = lockCount w ∧
  lockOwners (resume d 0 w) = lockOwners w ∧
  timers (resume d 0 w) = timers w.
Proof.
  intros Hy Hc.
  rewrite (resume_eq d 0 w y close_await_stop Hy) by (by rewrite Hc).
  cbn [settled continue].
  destruct (run_close_animate_effect d y (with_conts (delete 0 (conts y)) y)
              (update d (λ x, with_conts (delete 0 (conts x)) x) w))
    as (_ & D & F & A & M & C & O & T & _); [by rewrite lookup_update, Hy|].
  rewrite D, F, A, M, C, O, T. rewrite Hc. done.
Qed.

Lemma resume_close_finish w d y r :
  dialogs w !! d = Some y → conts y = [close_await_animate r] → anims y = [] →
  dialogs (resume d 0 w) !! d = Some (with_display display_none (with_conts [] y)) ∧
  timers (resume d 0 w) =
    timers w ++ (if focus_is_function (originalTrigger y)
                 then option_list (originalTrigger y) else []) ∧
  lockOwners (resume d 0 w) = lockOwners w ∖ {[d]} ∧
  lockCount (resume d 0 w) =
    (if decide (d ∈ lockOwners w) then lockCount w - 1 else lockCount w)%Z ∧
  activeElement (resume d 0 w) = activeElement w ∧
  activeModals (resume d 0 w) = activeModals w ∧
  frames (resume d 0 w) = frames w.
Proof.
  intros Hy Hc Ha.
  rewrite (resume_eq d 0 w y (close_await_animate r) Hy) by (by rewrite Hc).
  cbn [settled continue]. rewrite Ha. cbn [forallb].
  destruct (run_close_finish_effect d y (with_conts (delete 0 (conts y)) y)
              (update d (λ x, with_conts (delete 0 (conts x)) x) w))
    as (_ & D & T & O & C & A & M & F); [by rewrite lookup_update, Hy|].
  rewrite D, T, O, C, A, M, F. rewrite Hc. simpl.
  repeat split. f_equal. destruct (originalTrigger y) as [t|]; [|done].
  by destruct (focus_is_function (Some t)).
Qed.

Lemma steps_app es1 es2 w : steps (es1 ++ es2) w = steps es2 (steps es1 w).
Proof. apply foldl_app. Qed.

Lemma close_to_end_children d y x :
  children y = children x → close_to_end d y = close_to_end d x.
Proof. intros H. unfold close_to_end. by rewrite H. Qed.

(** An opening run to its end. *)
Lemma open_to_end_effect w d x :
  dialogs w !! d = Some x → open x = false → hasUpdated x = true →
  prevents x ev_open = false → anims x = [] → conts x = [] →
  d ∉ lockOwners w →
  dialogs (steps (open_to_end d x) w) !! d =
    Some (with_originalTrigger (activeElement w)
            (with_display display_flex (with_open true x))) ∧
  last (log (steps (open_to_end d x) w)) = Some (emitted d ev_opened) ∧
  activeElement (steps (open_to_end d x) w) = Some (focus_target d x) ∧
  activeModals (steps (open_to_end d x) w) = activeModals w ++ [d] ∧
  lockCount (steps (open_to_end d x) w) = (lockCount w + 1)%Z ∧
  lockOwners (steps (open_to_end d x) w) = {[d]} ∪ lockOwners w ∧
  frames (steps (open_to_end d x) w) = [] ∧
  timers (steps (open_to_end d x) w) = timers w.
Proof.
  intros Hx Ho Hu Hp Ha Hc Hown.
  set (w1 := set_open d true w).
  set (w2 := resume d 0 w1).
  set (w3 := frame w2).
  set (w4 := steps (replicate (3 + length (children x)) (AnimationEnd d 0)) w3).
  set (w5 := resume d 0 w4).
  assert (steps (open_to_end d x) w = w5) as ->.
  { unfold open_to_end, steps. rewrite !foldl_app. reflexivity. }
  (* the intent *)
  destruct (run_open_effect d (with_open true x) (with_open true x)
              (update d (with_open true) w))
    as (_ & D1 & M1 & C1 & O1 & A1 & F1 & T1 & _);
    [by rewrite lookup_update, Hx|done|done|].
  rewrite <- (set_open_eq d true w x Hx Ho Hu) in D1, M1, C1, O1, A1, F1, T1.
  fold w1 in D1, M1, C1, O1, A1, F1, T1.
  simpl in D1. rewrite Ha, Hc in D1. simpl in D1.
  (* the animations start *)
  destruct (resume_open_animate w1 d _ D1 eq_refl)
    as (D2 & F2 & A2 & M2 & C2 & O2 & T2).
  fold w2 in D2, F2, A2, M2, C2, O2, T2. simpl in D2.
  (* the frame *)
  destruct (frame_effect w2 d _ (frames w1) D2 F2)
    as (D3 & A3 & M3 & C3 & O3 & F3 & T3).
  fold w3 in D3, A3, M3, C3, O3, F3, T3.
  rewrite <- D3 in D2.
  (* the animations end *)
  pose proof (animation_end_all (3 + length (children x)) w3 d _ D2) as D4.
  destruct (animation_end_all_shared (3 + length (children x)) w3 d)
    as (A4 & M4 & C4 & O4 & F4 & T4 & _ & _).
  fold w4 in D4, A4, M4, C4, O4, F4, T4.
  assert (length (open_animations (with_open true x) (nextRun w1)) =
          3 + length (children x)) as Hlen.
  { unfold open_animations. simpl. by rewrite length_fmap. }
  specialize (D4 Hlen).
  (* the opening ends *)
  destruct (resume_open_finish w4 d _ (nextRun w1) D4 eq_refl eq_refl)
    as (D5 & L5 & F5 & A5 & M5 & C5 & O5 & T5).
  fold w5 in D5, L5, F5, A5, M5, C5, O5, T5.
  split.
  { rewrite D5. f_equal. destruct x; simpl in *; subst. reflexivity. }
  split; [by rewrite L5, last_snoc|].
  split; [by rewrite A5, A4, A3|].
  split; [by rewrite M5, M4, M3, M2, M1|].
  split; [by rewrite C5, C4, C3, C2, C1|].
  split; [by rewrite O5, O4, O3, O2, O1|].
  split; [by rewrite F5, F4, F3|].
  by rewrite T5, T4, T3, T2, T1.
Qed.

(** A closing run to its end, when no other timer is waiting. *)
Lemma close_to_end_effect w d y :
  dialogs w !! d = Some y → open y = true → hasUpdated y = true →
  prevents y ev_close = false → anims y = [] → conts y = [] →
  timers w = [] →
  dialogs (steps (close_to_end d y) w) !! d =
    Some (with_display display_none (with_open false y)) ∧
  activeElement (steps (close_to_end d y) w) =
    (if focus_is_function (originalTrigger y) then originalTrigger y
     else activeElement w) ∧
  activeModals (steps (close_to_end d y) w) = filter (λ m, m ≠ d) (activeModals w) ∧
  lockCount (steps (close_to_end d y) w) =
    (if decide (d ∈ lockOwners w) then lockCount w - 1 else lockCount w)%Z ∧
  lockOwners (steps (close_to_end d y) w) = lockOwners w ∖ {[d]} ∧
  frames (steps (close_to_end d y) w) = frames w ∧
  timers (steps (close_to_end d y) w) = [].
Proof.
  intros Hy Ho Hu Hp Ha Hc Ht.
  set (w1 := set_open d false w).
  set (w2 := resume d 0 w1).
  set (w3 := steps (replicate (3 + length (children y)) (AnimationEnd d 0)) w2).
  set (w4 := resume d 0 w3).
  assert (steps (close_to_end d y) w = timer w4) as ->.
  { unfold close_to_end, steps. rewrite !foldl_app. reflexivity. }
  (* the intent *)
  destruct (run_close_effect d (with_open false y) (with_open false y)
              (update d (with_open false) w))
    as (_ & D1 & M1 & C1 & O1 & A1 & F1 & T1 & _);
    [by rewrite lookup_update, Hy|done|].
  rewrite <- (set_open_eq d false w y Hy Ho Hu) in D1, M1, C1, O1, A1, F1, T1.
  fold w1 in D1, M1, C1, O1, A1, F1, T1.
  simpl in D1, M1, C1, O1, A1, F1, T1. rewrite Ha, Hc in D1. simpl in D1.
  (* the animations start *)
  destruct (resume_close_animate w1 d _ D1 eq_refl)
    as (D2 & F2 & A2 & M2 & C2 & O2 & T2).
  fold w2 in D2, F2, A2, M2, C2, O2, T2. simpl in D2.
  (* the animations end *)
  pose proof (animation_end_all (3 + length (children y)) w2 d _ D2) as D3.
  destruct (animation_end_all_shared (3 + length (children y)) w2 d)
    as (A3 & M3 & C3 & O3 & F3 & T3 & _ & _).
  fold w3 in D3, A3, M3, C3, O3, F3, T3.
  assert (length (close_animations (with_open false y) (nextRun w1)) =
          3 + length (children y)) as Hlen.
  { unfold close_animations. simpl. by rewrite length_fmap. }
  specialize (D3 Hlen).
  (* the closing ends *)
  destruct (resume_close_finish w3 d _ (nextRun w1) D3 eq_refl eq_refl)
    as (D4 & T4 & O4 & C4 & A4 & M4 & F4).
  fold w4 in D4, T4, O4, C4, A4, M4, F4.
  simpl in T4. rewrite T3, T2, T1, Ht in T4. simpl in T4.
  rewrite O3, O2, O1 in C4, O4. rewrite C3, C2, C1 in C4.
  assert (dialogs w4 !! d = Some (with_display display_none (with_open false y)))
    as D4'.
  { rewrite D4. f_equal. destruct y; simpl in *; subst. reflexivity. }
  unfold timer. rewrite T4.
  destruct (originalTrigger y) as [t|] eqn:Htr; simpl.
  - destruct (focus_is_function (Some t)) eqn:Hfn; simpl.
    + unfold focus. simpl. rewrite D4', M4, M3, M2, M1, C4, O4, F4, F3, F2, F1.
      done.
    + rewrite D4', A4, A3, A2, A1, M4, M3, M2, M1, C4, O4, F4, F3, F2, F1, T4.
      done.
  - replace (focus_is_function None) with false by done. simpl.
    rewrite D4', A4, A3, A2, A1, M4, M3, M2, M1, C4, O4, F4, F3, F2, F1, T4.
    done.
Qed.

(** A dialog that is opened and runs to its end is shown, the topmost
    overlay context, with one unit of the scroll lock; it remembers the
    element that had the focus, and the focus is on its [autofocus]
    element if there is one and on its panel otherwise; [opened] is the
    last thing that happened. *)
Theorem open_runs_to_active (w : World) (d : nat) (x : Dialog) :
  dialogs w !! d = Some x → open x = false → hasUpdated x = true →
  prevents x ev_open = false → anims x = [] → conts x = [] →
  d ∉ lockOwners w →
  active (steps (open_to_end d x) w) d ∧
  topmost (steps (open_to_end d x) w) = Some d ∧
  (originalTrigger <$> dialogs (steps (open_to_end d x) w) !! d) =
    Some (activeElement w) ∧
  activeElement (steps (open_to_end d x) w) = Some (focus_target d x) ∧
  lockCount (steps (open_to_end d x) w) = (lockCount w + 1)%Z ∧
  d ∈ lockOwners (steps (open_to_end d x) w) ∧
  last (log (steps (open_to_end d x) w)) = Some (emitted d ev_opened).
Proof.
  intros Hx Ho Hu Hp Ha Hc Hown.
  destruct (open_to_end_effect w d x Hx Ho Hu Hp Ha Hc Hown)
    as (D & L & A & M & C & O & F & T).
  split.
  { eexists. split; [exact D|]. repeat split; try done.
    rewrite M. set_solver. }
  split; [unfold topmost; by rewrite M, last_snoc|].
  split; [by rewrite D|]. split; [done|]. split; [done|].
  split; [rewrite O; set_solver|done].
Qed.

Lemma open_runs_to_active_witness :
  active (steps (open_to_end 1 (rendered_dialog no_listener)) demo_page) 1.
Proof.
  destruct (open_runs_to_active demo_page 1 (rendered_dialog no_listener))
    as (H & _).
  - reflexivity.
  - reflexivity.
  - reflexivity.
  - reflexivity.
  - reflexivity.
  - reflexivity.
  - apply not_elem_of_empty.
  - exact H.
Defined.

(** Opening a dialog and closing it again, each run to its end, gives the
    page back: the stack of overlay contexts, the scroll-lock counter and
    its owners are what they were, no callback and no timer is left, the
    other dialogs are untouched, and the dialog itself is as before but
    hidden and remembering the element that had the focus. *)
Theorem open_close_round_trip (w : World) (d : nat) (x : Dialog) :
  dialogs w !! d = Some x → open x = false → hasUpdated x = true →
  prevents x ev_open = false → prevents x ev_close = false →
  anims x = [] → conts x = [] →
  d ∉ activeModals w → d ∉ lockOwners w → timers w = [] →
  dialogs (steps (open_to_end d x ++ close_to_end d x) w) !! d =
    Some (with_originalTrigger (activeElement w) (with_display display_none x)) ∧
  (∀ d', d' ≠ d →
     dialogs (steps (open_to_end d x ++ close_to_end d x) w) !! d' =
       dialogs w !! d') ∧
  activeModals (steps (open_to_end d x ++ close_to_end d x) w) = activeModals w ∧
  lockCount (steps (open_to_end d x ++ close_to_end d x) w) = lockCount w ∧
  lockOwners (steps (open_to_end d x ++ close_to_end d x) w) = lockOwners w ∧
  frames (steps (open_to_end d x ++ close_to_end d x) w) = [] ∧
  timers (steps (open_to_end d x ++ close_to_end d x) w) = [].
Proof.
  intros Hx Ho Hu Hpo Hpc Ha Hc Hmod Hown Ht.
  assert (∀ d', d' ≠ d →
            dialogs (steps (open_to_end d x ++ close_to_end d x) w) !! d' =
              dialogs w !! d') as Hothers.
  { intros d' Hne.
    assert (Forall (λ e, elsewhere e d') (open_to_end d x ++ close_to_end d x)) as Hall.
    { unfold open_to_end, close_to_end. rewrite !Forall_app.
      repeat split; try apply Forall_replicate; repeat constructor;
        intros ->; by apply Hne. }
    clear -Hall. revert w Hall.
    generalize (open_to_end d x ++ close_to_end d x).
    intros es. induction es as [|e es IH]; intros w Hall; [reflexivity|].
    apply Forall_cons in Hall as [He Hall].
    destruct (step_off_dialog e d' w He) as (E & _).
    rewrite <- E. exact (IH (step e w) Hall). }
  revert Hothers. rewrite steps_app.
  destruct (open_to_end_effect w d x Hx Ho Hu Hpo Ha Hc Hown)
    as (D & _ & _ & M & C & O & F & T).
  rewrite <- (close_to_end_children d
                (with_originalTrigger (activeElement w)
                   (with_display display_flex (with_open true x))) x eq_refl).
  pose proof (close_to_end_effect (steps (open_to_end d x) w) d _ D
                eq_refl Hu Hpc Ha Hc (eq_trans T Ht)) as H.
  revert M C O F H. clear D T.
  generalize (steps (open_to_end d x) w). intros W M C O F H Hothers.
  destruct H as (D' & _ & M' & C' & O' & F' & T').
  split.
  { rewrite D'. f_equal. clear -Ho. destruct x; simpl in *; subst. reflexivity. }
  split; [exact Hothers|].
  rewrite M', C', O', F', T'. rewrite M, O, C, F.
  split.
  { rewrite filter_app, (filter_cons_False _ d []) by (intros Hne; by apply Hne).
    rewrite filter_nil, app_nil_r. apply filter_all. by intros m Hm ->. }
  split; [rewrite decide_True by set_solver; lia|].
  split; [set_solver|]. split; reflexivity.
Qed.

Lemma open_close_round_trip_witness :
  activeModals
    (steps (open_to_end 1 (rendered_dialog no_listener) ++
            close_to_end 1 (rendered_dialog no_listener)) demo_page) = [] ∧
  lockCount
    (steps (open_to_end 1 (rendered_dialog no_listener) ++
            close_to_end 1 (rendered_dialog no_listener)) demo_page) = 0%Z.
Proof.
  destruct (open_close_round_trip demo_page 1 (rendered_dialog no_listener))
    as (_ & _ & HM & HC & _).
  - reflexivity.
  - reflexivity.
  - reflexivity.
  - reflexivity.
  - reflexivity.
  - reflexivity.
  - reflexivity.
  - apply not_elem_of_nil.
  - apply not_elem_of_empty.
  - reflexivity.
  - split; [exact HM | exact HC].
Defined.

(** *** Reopening while the close animations run *)

(** The open branch up to its first [await], whether or not the dialog
    already has its unit of the scroll lock. *)
Lemma run_open_any d x y w :
  dialogs w !! d = Some y → prevents x ev_open = false →
  dialogs (run_open d x w) !! d =
    Some (with_conts (conts y ++ [open_await_stop])
            (with_anims (filter (λ a, an_part a ∉ parts x) (anims y))
               (with_originalTrigger (activeElement w)
                  (with_display display_flex y)))) ∧
  activeModals (run_open d x w) = activeModals w ++ [d] ∧
  lockOwners (run_open d x w) = {[d]} ∪ lockOwners w ∧
  lockCount (run_open d x w) =
    (if decide (d ∈ lockOwners w) then lockCount w else lockCount w + 1)%Z.
Proof.
  intros Hy Hp. unfold run_open, emit, stop_all. rewrite Hp. simpl.
  rewrite stop_each_eq. unfold lockScreen, modal_activate.
  destruct (topAppBar x); simpl;
    destruct (decide (d ∈ lockOwners w)); simpl;
    rewrite !lookup_alter_eq, Hy; simpl;
    repeat split; try done; set_solver.
Qed.

Lemma open_animations_run x r :
  Forall (λ a, an_run a = r) (open_animations x r).
Proof.
  unfold open_animations. apply Forall_app. split.
  - by repeat constructor.
  - apply Forall_fmap. by apply Forall_forall.
Qed.

Lemma resumed_open_animate d y i w :
  dialogs w !! d = Some y →
  dialogs (run_open_animate d y
             (update d (λ x, with_conts (delete i (conts x)) x) w)) !! d =
    Some (with_conts (delete i (conts y) ++ [open_await_animate (nextRun w)])
            (with_anims (anims y ++ open_animations y (nextRun w)) y)) ∧
  activeModals (run_open_animate d y
                  (update d (λ x, with_conts (delete i (conts x)) x) w)) =
    activeModals w ∧
  lockOwners (run_open_animate d y
                (update d (λ x, with_conts (delete i (conts x)) x) w)) =
    lockOwners w.
Proof.
  intros Hy.
  destruct (run_open_animate_effect d y (with_conts (delete i (conts y)) y)
              (update d (λ x, with_conts (delete i (conts x)) x) w))
    as (_ & D & _ & _ & M & _ & O & _).
  { by rewrite lookup_update, Hy. }
  rewrite D, M, O. done.
Qed.

Lemma reopen_inv_ext d w w' :
  dialogs w' !! d = dialogs w !! d →
  (d ∈ activeModals w → d ∈ activeModals w') →
  (d ∈ lockOwners w' → d ∈ lockOwners w) →
  reopen_inv d w → reopen_inv d w'.
Proof.
  intros E Hm Ho (y & cp & op & Hy & Hopen & Hmod & Hco & Hcp & Hop).
  exists y, cp, op. rewrite E. split; [done|]. split; [done|].
  split; [by auto|]. split; [done|]. split; [|done].
  destruct Hcp as [?|(? & ? & Hl)]; [by left|right].
  split; [done|]. split; [done|]. intros Hin. apply Hl. by apply Ho.
Qed.

Lemma reopen_inv_update d f w :
  (∀ y, open (f y) = open y ∧ conts (f y) = conts y ∧
        anims (f y) = anims y ∧ display (f y) = display y) →
  reopen_inv d w → reopen_inv d (update d f w).
Proof.
  intros Hf (y & cp & op & Hy & Hopen & Hmod & Hco & Hcp & Hop).
  destruct (Hf y) as (E1 & E2 & E3 & E4).
  exists (f y), cp, op. rewrite lookup_update, Hy. simpl.
  rewrite E1, E2, E3, E4. done.
Qed.

Lemma reopen_inv_resume d i w : reopen_inv d w → reopen_inv d (resume d i w).
Proof.
  intros Hinv.
  pose proof Hinv as (y & cp & op & Hy & Hopen & Hmod & Hco & Hcp & Hop).
  unfold resume. rewrite Hy.
  destruct (conts y !! i) as [c|] eqn:Hc; [|done].
  destruct (settled y c) eqn:Hs; [|done].
  rewrite Hco in Hc.
  destruct c as [| |ro| |rc]; simpl.
  - exfalso. apply list_elem_of_lookup_2 in Hc.
    destruct Hcp as [[rc ->]|(-> & _)];
      destruct Hop as [[-> _]|[(ro & -> & _)|[-> _]]]; set_solver.
  - (* the opening starts its animations *)
    destruct (resumed_open_animate d y i w Hy) as (D & M & O).
    assert (op = [open_await_stop] ∧ anims y = [] ∧ i = length cp)
      as (-> & Ha & ->).
    { destruct Hcp as [[rc ->]|(-> & _)];
        destruct Hop as [[-> ?]|[(ro & -> & _)|[-> _]]];
        destruct i as [|[|i]]; simpl in Hc; try done. }
    eexists _, cp, [open_await_animate (nextRun w)].
    split; [exact D|]. split; [done|]. rewrite M. split; [done|].
    split.
    { simpl. rewrite Hco. by destruct Hcp as [[rc ->]|(-> & _)]. }
    split.
    { destruct Hcp as [?|(? & Hd & Hl)]; [by left|right]. by rewrite O. }
    right. left. exists (nextRun w). split; [done|].
    simpl. rewrite Ha. apply open_animations_run.
  - (* the opening ends *)
    destruct (resumed_open_finish d y i w Hy) as (D & M & O).
    assert (op = [open_await_animate ro] ∧ anims y = [] ∧ i = length cp)
      as (-> & Ha & ->).
    { destruct Hcp as [[rc ->]|(-> & _)];
        destruct Hop as [[-> ?]|[(ro' & -> & Hall)|[-> _]]];
        destruct i as [|[|i]]; simpl in Hc; try done;
        injection Hc as <-; (split; [done|]); (split; [|done]);
        by apply (settled_all_of_run ro'). }
    eexists _, cp, []. split; [exact D|]. split; [done|]. rewrite M.
    split; [done|]. split.
    { simpl. rewrite Hco. by destruct Hcp as [[rc ->]|(-> & _)]. }
    split.
    { destruct Hcp as [?|(? & Hd & Hl)]; [by left|right]. by rewrite O. }
    right. right. done.
  - exfalso. apply list_elem_of_lookup_2 in Hc.
    destruct Hcp as [[rc ->]|(-> & _)];
      destruct Hop as [[-> _]|[(ro & -> & _)|[-> _]]]; set_solver.
  - (* the closing that was cut short ends *)
    destruct (resumed_close_finish d y i w Hy) as (D & M & O).
    assert (cp = [close_await_animate rc] ∧ i = 0) as (-> & ->).
    { destruct Hcp as [[rc' ->]|(-> & _)];
        destruct Hop as [[-> ?]|[(ro & -> & _)|[-> _]]];
        destruct i as [|[|i]]; simpl in Hc; try done;
        by injection Hc as <-. }
    eexists _, [], op. split; [exact D|]. split; [done|]. rewrite M, O.
    split; [done|]. split; [simpl; by rewrite Hco|].
    split; [right; split; [done|split; [done|set_solver]]|].
    done.
Qed.

Lemma reopen_inv_animation_end d i w :
  reopen_inv d w → reopen_inv d (animation_end d i w).
Proof.
  intros (y & cp & op & Hy & Hopen & Hmod & Hco & Hcp & Hop).
  exists (with_anims (delete i (anims y)) y), cp, op.
  unfold animation_end. rewrite lookup_update, Hy. simpl.
  split; [done|]. split; [done|]. split; [done|]. split; [done|].
  split; [done|].
  destruct Hop as [[E Ha]|[(ro & E & Ha)|(E & Ha)]].
  - left. by rewrite Ha.
  - right. left. exists ro. split; [done|].
    apply Forall_forall. intros a Hin. rewrite Forall_forall in Ha. apply Ha.
    by eapply list_elem_of_delete_inv.
  - right. right. by rewrite Ha.
Qed.

(** Whatever happens, short of an intent to close the dialog, the reopened
    dialog stays within these states. *)
Lemma reopen_inv_step e d w :
  no_close_intent e d → reopen_inv d w → reopen_inv d (step e w).
Proof.
  intros He Hinv.
  pose proof Hinv as (y & cp & op & Hy & Hopen & Hmod & Hco & Hcp & Hop).
  assert (elsewhere e d → reopen_inv d (step e w)) as Helse.
  { intros H. destruct (step_off_dialog e d w H) as (A & B & C).
    apply (reopen_inv_ext d w); [done|apply B|apply C|done]. }
  destruct e as [d0 b|d0|d0 i|d0 i| | |key path|d0|d0|d0|d0 p|t];
    try (destruct (decide (d0 = d)) as [->|Hd0]; [|by apply Helse]);
    try (by apply Helse).
  - simpl in He. rewrite (He eq_refl). simpl. unfold set_open.
    rewrite Hy, Hopen. by rewrite bool_decide_true.
  - simpl. by apply reopen_inv_update.
  - by apply reopen_inv_resume.
  - by apply reopen_inv_animation_end.
  - simpl. unfold connectedCallback. by apply reopen_inv_update.
  - simpl. unfold disconnectedCallback, unlockScreen.
    case_decide; [|done]. apply (reopen_inv_ext d w); try done.
  - simpl. by apply reopen_inv_update.
Qed.

Lemma reopen_inv_steps es d w :
  Forall (λ e, no_close_intent e d) es →
  reopen_inv d w → reopen_inv d (steps es w).
Proof.
  revert w. induction es as [|e es IH]; intros w Hall Hinv; [done|].
  apply Forall_cons in Hall as [He Hall].
  simpl. apply IH; [done|]. by apply reopen_inv_step.
Qed.

Lemma reopen_inv_quiescent d w :
  reopen_inv d w → quiescent w d → open_but_hidden w d.
Proof.
  intros (y & cp & op & Hy & Hopen & Hmod & Hco & Hcp & Hop) (x & Hx & Ha & Hc).
  assert (x = y) as -> by congruence.
  rewrite Hco in Hc. apply app_eq_nil in Hc as [-> ->].
  destruct Hcp as [[rc ?]|(_ & Hd & Hl)]; [done|].
  exists y. by repeat split.
Qed.

(** The open intent while the close animations run: they are cancelled,
    and the overlay context is pushed on the stack again. *)
Lemma open_cancels_close_animations w d x rc :
  dialogs w !! d = Some x → open x = false → hasUpdated x = true →
  prevents x ev_open = false → conts x = [close_await_animate rc] →
  Forall (λ a, an_part a ∈ parts x) (anims x) →
  dialogs (set_open d true w) !! d =
    Some (with_conts [close_await_animate rc; open_await_stop]
            (with_anims []
               (with_originalTrigger (activeElement w)
                  (with_display display_flex (with_open true x))))) ∧
  activeModals (set_open d true w) = activeModals w ++ [d].
Proof.
  intros Hx Ho Hu Hp Hco Hparts.
  rewrite (set_open_eq d true w x Hx Ho Hu).
  destruct (run_open_any d (with_open true x) (with_open true x)
              (update d (with_open true) w))
    as (D & M & _); [by rewrite lookup_update, Hx|done|].
  split; [|exact M].
  rewrite D. simpl. rewrite Hco. f_equal.
  unfold with_conts, with_anims. simpl. f_equal.
  apply filter_none. intros a Ha Hnot. apply Hnot.
  rewrite Forall_forall in Hparts. by apply Hparts.
Qed.

(** The reopened dialog does come to rest. *)
Lemma settle_reopen_quiescent w d x rc :
  dialogs w !! d = Some x → open x = false → hasUpdated x = true →
  prevents x ev_open = false → conts x = [close_await_animate rc] →
  Forall (λ a, an_part a ∈ parts x) (anims x) →
  quiescent (steps (settle_reopen d x) (set_open d true w)) d.
Proof.
  intros Hx Ho Hu Hp Hco Hparts.
  destruct (open_cancels_close_animations w d x rc Hx Ho Hu Hp Hco Hparts)
    as (D1 & _).
  revert D1. generalize (set_open d true w). intros w1 D1.
  set (w2 := resume d 0 w1).
  set (w3 := resume d 0 w2).
  set (w4 := steps (replicate (3 + length (children x)) (AnimationEnd d 0)) w3).
  assert (steps (settle_reopen d x) w1 = resume d 0 w4) as ->.
  { unfold settle_reopen, steps. rewrite !foldl_app. reflexivity. }
  (* the closing that was cut short ends *)
  assert (∃ y2, dialogs w2 !! d = Some y2 ∧ conts y2 = [open_await_stop] ∧
                anims y2 = [] ∧ children y2 = children x) as (y2 & D2 & C2 & A2 & K2).
  { unfold w2.
    erewrite (resume_eq d 0 w1) by (first [exact D1 | reflexivity]).
    cbn [settled anims with_anims with_conts forallb continue].
    match goal with
    | |- context [run_close_finish d ?X (update d ?F w1)] =>
        destruct (resumed_close_finish d X 0 w1 D1) as (D & _)
    end.
    cbv zeta in D. eexists. split; [exact D|]. done. }
  clearbody w2.
  (* the open animations start *)
  destruct (resume_open_animate w2 d y2 D2 C2) as (D3 & _).
  fold w3 in D3. clearbody w3.
  (* they end *)
  pose proof (animation_end_all (3 + length (children x)) w3 d _ D3) as D4.
  fold w4 in D4. clearbody w4.
  assert (dialogs w4 !! d =
            Some (with_anims []
                    (with_conts [open_await_animate (nextRun w2)]
                       (with_anims (anims y2 ++ open_animations y2 (nextRun w2)) y2))))
    as D4'.
  { apply D4. simpl. rewrite A2. unfold open_animations. simpl.
    by rewrite length_fmap, K2. }
  (* the opening ends *)
  destruct (resume_open_finish w4 d _ (nextRun w2) D4' eq_refl eq_refl) as (D5 & _).
  eexists. split; [exact D5|]. done.
Qed.

(** When the open intent is set on a dialog whose close animations are
    still running, the open branch shows the dialog, pushes its overlay
    context on the stack again and cancels the close animations. The
    closing that was cut short is not cancelled with them: its animations
    having settled, it goes on, hides the dialog and gives the unit of the
    scroll lock back. So, whatever happens on the page short of an intent
    to close this dialog, whenever nothing of the dialog is in flight any
    more the dialog is open and on the stack of overlay contexts, yet
    hidden and without a unit of the scroll lock; and it does get there. *)
Theorem reopen_during_close_animation (w : World) (d rc : nat) (x : Dialog)
    (es : list Event) :
  dialogs w !! d = Some x → open x = false → hasUpdated x = true →
  prevents x ev_open = false → conts x = [close_await_animate rc] →
  Forall (λ a, an_part a ∈ parts x) (anims x) →
  Forall (λ e, no_close_intent e d) es →
  (anims <$> dialogs (set_open d true w) !! d) = Some [] ∧
  (display <$> dialogs (set_open d true w) !! d) = Some display_flex ∧
  topmost (set_open d true w) = Some d ∧
  (quiescent (steps es (set_open d true w)) d →
   open_but_hidden (steps es (set_open d true w)) d) ∧
  open_but_hidden (steps (settle_reopen d x) (set_open d true w)) d.
Proof.
  intros Hx Ho Hu Hp Hco Hparts Hes.
  destruct (open_cancels_close_animations w d x rc Hx Ho Hu Hp Hco Hparts)
    as (D1 & M1).
  assert (reopen_inv d (set_open d true w)) as Hinv.
  { eexists _, [close_await_animate rc], [open_await_stop].
    split; [exact D1|]. split; [done|]. rewrite M1.
    split; [set_solver|]. split; [done|]. split; [left; by eexists|]. by left. }
  split; [by rewrite D1|]. split; [by rewrite D1|].
  split; [unfold topmost; by rewrite M1, last_snoc|]. split.
  - apply reopen_inv_quiescent. by apply reopen_inv_steps.
  - apply reopen_inv_quiescent.
    + apply reopen_inv_steps; [|done].
      unfold settle_reopen. apply Forall_app. split; [by repeat constructor|].
      apply Forall_app. split; [|by repeat constructor].
      apply Forall_replicate. done.
    + by apply (settle_reopen_quiescent w d x rc).
Qed.

Lemma reopen_during_close_animation_witness :
  open_but_hidden (steps (settle_reopen 1 (rendered_dialog no_listener))
                     (set_open 1 true closing_page)) 1 ∧
  topmost (set_open 1 true closing_page) = Some 1.
Proof.
  destruct (reopen_during_close_animation closing_page 1 1
              (with_conts [close_await_animate 1]
                 (with_anims
                    (drop 1 (close_animations (rendered_dialog no_listener) 1))
                    (with_open false (shown_dialog (element button)))))
              [Frame; Resume 1 1; Resume 1 0])
    as (_ & _ & Htop & _ & Hend).
  - by vm_compute.
  - reflexivity.
  - reflexivity.
  - reflexivity.
  - reflexivity.
  - apply (bool_decide_unpack _). by vm_compute.
  - repeat constructor.
  - split; [exact Hend | exact Htop].
Defined.

(** *** The property and the transitions *)

Lemma keeps_props_resume d i w0 w :
  keeps_props w0 w → keeps_props w0 (resume d i w).
Proof.
  intros H. unfold resume.
  destruct (dialogs w !! d) as [x|]; [|done].
  destruct (conts x !! i) as [c|]; [|done].
  destruct (settled x c); [|done].
  destruct c as [| |ro| |rc]; cbn [continue].
  - apply keeps_props_run. by keeps.
  - open_code. split_code; keeps; done.
  - open_code. split_code; keeps; done.
  - open_code. split_code; keeps; done.
  - open_code. split_code; keeps; done.
Qed.

Lemma keeps_props_frame w0 w : keeps_props w0 w → keeps_props w0 (frame w).
Proof.
  intros H. unfold frame.
  assert (keeps_props w0 (with_frames [] w)) as H' by by keeps.
  revert H'. generalize (with_frames [] w). generalize (frames w).
  intros l. induction l as [|d' l IH]; intros w' H'; [done|].
  simpl. apply IH. unfold focus_callback, focus.
  destruct (dialogs w' !! d') as [x|]; [|done]. destruct (autofocus x); by keeps.
Qed.

(** The transitions never write [open], nor any other property of a
    dialog: whatever continuations go on, animations end, frames and
    timers run, every dialog keeps the value of [open] the last intent has
    given it, whether the transition was prevented, was cut short or has
    come to its end. *)
Theorem transitions_never_write_open (es : list Event) (w : World) :
  Forall internal es → keeps_props w (steps es w).
Proof.
  intros Hall.
  assert (∀ w', keeps_props w w' → keeps_props w (steps es w')) as Hgen;
    [|apply Hgen, keeps_props_refl].
  induction es as [|e es IH]; intros w' H; [exact H|].
  apply Forall_cons in Hall as [He Hall]. simpl. apply IH; [done|].
  destruct e; try done; simpl.
  - by apply keeps_props_resume.
  - unfold animation_end. by keeps.
  - by apply keeps_props_frame.
  - unfold timer, focus. destruct (timers w'); [done|]. by keeps.
Qed.

Lemma transitions_never_write_open_witness :
  keeps_props (set_open 1 true demo_page)
    (steps [Resume 1 0; Frame; Timer; AnimationEnd 1 0] (set_open 1 true demo_page)).
Proof.
  apply (transitions_never_write_open [Resume 1 0; Frame; Timer; AnimationEnd 1 0]
           (set_open 1 true demo_page)).
  repeat constructor.
Defined.

End DialogMore.

(** ** The Chip component *)

Module ChipFacts.
Import Chip.

(** A click writes no property of the chip but [selected], and a second
    click takes the first one back: whatever the chip, after two clicks
    [selected] is what it was. A click changes [selected] exactly when the
    chip is selectable and neither disabled nor loading. *)
Theorem click_twice_restores (c : Chip) :
  selected (onClick (onClick c)) = selected c ∧
  (disabled (onClick c) = disabled c ∧ loading (onClick c) = loading c ∧
   selectable (onClick c) = selectable c ∧ deletable (onClick c) = deletable c) ∧
  (selected (onClick c) ≠ selected c ↔
   selectable c = true ∧ disabled c = false ∧ loading c = false).
Proof.
  unfold onClick.
  destruct c as [dis load sel s del em]; simpl.
  destruct dis, load, sel, s; simpl; repeat split; try done;
    try (intros H; by exfalso); try (by intros (? & ? & ?)).
Qed.

(** The space key does to the chip what a click does, and its default
    action is prevented exactly when it toggles the selection. The Delete
    and Backspace keys emit one [delete] on a deletable chip that is
    neither disabled nor loading, and nothing otherwise; they never touch
    the selection and never prevent the default action. Any other key
    leaves the chip as it is. *)
Theorem keys_of_chip (k : string) (c : Chip) :
  (k = " " →
   press k c = (selectable c && negb (disabled c || loading c), onClick c)) ∧
  (k = "Delete" ∨ k = "Backspace" →
   press k c =
     (false, if deletable c && negb (disabled c || loading c)
             then emit "delete" c else c)) ∧
  (k ≠ " " → k ≠ "Delete" → k ≠ "Backspace" → press k c = (false, c)).
Proof.
  unfold press, onKeyDown, onClick.
  destruct c as [dis load sel s del em].
  split; [|split].
  - intros ->. destruct dis, load, sel, del; reflexivity.
  - intros [-> | ->]; destruct dis, load, sel, del; reflexivity.
  - intros H1 H2 H3.
    assert (bool_decide (k ∈ ["Delete"; "Backspace"]) = false) as Hdel
      by (apply bool_decide_false; set_solver).
    destruct dis, load, sel, del; simpl;
      rewrite ?(bool_decide_false (k = " ")) by done; simpl;
      rewrite ?Hdel, ?andb_false_r; reflexivity.
Qed.

Lemma keys_of_chip_witness :
  press " " demo_chip = (true, onClick demo_chip) ∧
  press "Delete" disabled_chip = (false, disabled_chip) ∧
  press "Enter" demo_chip = (false, demo_chip).
Proof.
  destruct (keys_of_chip " " demo_chip) as (H1 & _).
  destruct (keys_of_chip "Delete" disabled_chip) as (_ & H2 & _).
  destruct (keys_of_chip "Enter" demo_chip) as (_ & _ & H3).
  split; [exact (H1 eq_refl)|]. split; [exact (H2 (or_introl eq_refl))|].
  apply H3; discriminate.
Defined.

(** A click on the delete icon emits one [delete] and stops there: the
    click does not reach the listener of the chip, so the selection is
    never toggled by it. Unlike the Delete key, the icon does so on a
    disabled or loading chip as well. A chip that is not deletable has no
    icon to click. *)
Theorem delete_icon_click (c : Chip) :
  (deletable c = true → click_delete_icon c = Some (emit "delete" c)) ∧
  (deletable c = false → click_delete_icon c = None) ∧
  (∀ c', click_delete_icon c = Some c' →
     selected c' = selected c ∧ emitted c' = emitted c ++ ["delete"]).
Proof.
  unfold click_delete_icon, renderDeleteIcon, onDelete. simpl.
  split; [by intros ->|]. split; [by intros ->|].
  intros c'. destruct (deletable c); [|done]. by intros [= <-].
Qed.

Lemma delete_icon_click_witness :
  click_delete_icon disabled_chip = Some (emit "delete" disabled_chip).
Proof.
  apply (proj1 (delete_icon_click disabled_chip)). reflexivity.
Defined.

End ChipFacts.
